(** * PWM audio streaming engine: ring buffer, ISR consumer, blocking writer

    A shallow embedding of [audio_demo/components/pwm_audio/pwm_audio.c].

    Conventions.
    - The target is a 32-bit little-endian core: [uint32_t], [size_t] and
      [unsigned long] are 32 bits wide.  Machine integers are values of [Z];
      every place where the C code computes in a fixed width carries its
      wrap-around explicitly ([u8], [u16], [u32], [s8], [s16], [s32]).
    - The byte storage [char *buf] is a [list Z] indexed with stdpp's lookup
      and insert.  C leaves an access outside the allocation undefined; the
      model reads [0] and stores nothing there, and the invariant [rb_ok]
      shows that such an access never happens.
    - State is passed explicitly.  Functions that run "inside" a session
      live in a small state monad that also logs the observable events
      (ring buffer calls, actuator writes, semaphore traffic). *)

From Stdlib Require Import ZArith Lia List Bool.
From stdpp Require Import base numbers list.
Import ListNotations.
Local Open Scope Z_scope.

(** ** Fixed-width integers *)

Definition u8  (x : Z) : Z := x mod 2^8.
Definition u16 (x : Z) : Z := x mod 2^16.
Definition u32 (x : Z) : Z := x mod 2^32.
Definition s8  (x : Z) : Z := (x + 2^7) mod 2^8 - 2^7.
Definition s16 (x : Z) : Z := (x + 2^15) mod 2^16 - 2^15.
Definition s32 (x : Z) : Z := (x + 2^31) mod 2^32 - 2^31.

(** [esp_err_t], restricted to the codes this component returns. *)
Inductive esp_err_t :=
| ESP_OK
| ESP_FAIL
| ESP_ERR_NO_MEM
| ESP_ERR_INVALID_ARG
| ESP_ERR_INVALID_STATE.

Definition esp_err_eqb (a b : esp_err_t) : bool :=
  match a, b with
  | ESP_OK, ESP_OK | ESP_FAIL, ESP_FAIL | ESP_ERR_NO_MEM, ESP_ERR_NO_MEM
  | ESP_ERR_INVALID_ARG, ESP_ERR_INVALID_ARG
  | ESP_ERR_INVALID_STATE, ESP_ERR_INVALID_STATE => true
  | _, _ => false
  end.

Definition BUFFER_MIN_SIZE : Z := 256.
Definition SAMPLE_RATE_MAX : Z := 48000.
Definition SAMPLE_RATE_MIN : Z := 8000.
Definition CHANNEL_LEFT_MASK : Z := 1.
Definition CHANNEL_RIGHT_MASK : Z := 2.

(** ** The ring buffer *)

(** [semaphore_rb] is the FreeRTOS binary semaphore: [true] when a give is
    pending, [false] when it is empty. *)
Record ringBuf := mkRingBuf {
  buf : list Z;
  head : Z;
  tail : Z;
  size : Z;
  is_give : Z;
  semaphore_rb : bool
}.

Definition set_head (rb : ringBuf) (b : list Z) (h : Z) : ringBuf :=
  mkRingBuf b h (tail rb) (size rb) (is_give rb) (semaphore_rb rb).
Definition set_tail (rb : ringBuf) (t : Z) : ringBuf :=
  mkRingBuf (buf rb) (head rb) t (size rb) (is_give rb) (semaphore_rb rb).
Definition set_is_give (rb : ringBuf) (g : Z) : ringBuf :=
  mkRingBuf (buf rb) (head rb) (tail rb) (size rb) g (semaphore_rb rb).
Definition set_semaphore (rb : ringBuf) (b : bool) : ringBuf :=
  mkRingBuf (buf rb) (head rb) (tail rb) (size rb) (is_give rb) b.

(** [rb_create(int size)].  The comparison against
    [BUFFER_MIN_SIZE << 2] is unsigned ([256UL]), so [size] is converted
    first.  [heap] says whether the three allocations succeed.  The fresh
    storage is uninitialised in C; it is filled with zeros here, and no
    result below depends on that. *)
Definition rb_create (size : Z) (heap : bool) : option ringBuf :=
  if u32 size <? Z.shiftl BUFFER_MIN_SIZE 2 then None
  else if heap then
    Some (mkRingBuf (replicate (Z.to_nat (u32 size)) 0) 0 0 (u32 size) 0 false)
  else None.

Definition rb_get_count (rb : ringBuf) : Z :=
  let tail := tail rb in
  if head rb >=? tail then u32 (head rb - tail)
  else u32 (size rb - u32 (tail - head rb)).

Definition rb_get_free (rb : ringBuf) : Z :=
  u32 (u32 (size rb - rb_get_count rb) - 1).

Definition rb_flush (rb : ringBuf) : esp_err_t * ringBuf :=
  (ESP_OK, mkRingBuf (buf rb) 0 0 (size rb) (is_give rb) (semaphore_rb rb)).

(** [rb_read_byte(rb, outdata)]: the second argument is the current
    content of [*outdata]; the second component of the result is its
    content on return (untouched when the buffer is empty). *)
Definition rb_read_byte (rb : ringBuf) (outdata : Z) : esp_err_t * Z * ringBuf :=
  let tail0 := tail rb in
  if tail0 =? head rb then (ESP_FAIL, outdata, rb)
  else
    let out := u8 (default 0 (buf rb !! Z.to_nat tail0)) in
    let tail1 := u32 (tail0 + 1) in
    let tail2 := if tail1 =? size rb then 0 else tail1 in
    (ESP_OK, out, set_tail rb tail2).

(** [rb_write_byte(rb, indata)]: the parameter has type [uint8_t], so
    the argument is converted on entry. *)
Definition rb_write_byte (rb : ringBuf) (indata : Z) : esp_err_t * ringBuf :=
  let indata := u8 indata in
  let next_head := u32 (head rb + 1) in
  let next_head := if next_head =? size rb then 0 else next_head in
  if next_head =? tail rb then (ESP_FAIL, rb)
  else (ESP_OK, set_head rb (<[Z.to_nat (head rb) := indata]> (buf rb)) next_head).

(** Sequences of ring buffer operations. *)
Inductive rb_op :=
| OpWrite (b : Z)
| OpRead
| OpFlush.

Definition rb_apply (rb : ringBuf) (op : rb_op) : ringBuf :=
  match op with
  | OpWrite b => snd (rb_write_byte rb b)
  | OpRead => snd (rb_read_byte rb 0)
  | OpFlush => snd (rb_flush rb)
  end.

Definition rb_run (ops : list rb_op) (rb : ringBuf) : ringBuf :=
  fold_left rb_apply ops rb.

(** The representation invariant: both indices are valid positions of a
    storage of [size] bytes. *)
Record rb_ok (rb : ringBuf) : Prop := mk_rb_ok {
  ok_head : 0 <= head rb < size rb;
  ok_tail : 0 <= tail rb < size rb;
  ok_size : size rb < 2^32;
  ok_buf : Z.of_nat (length (buf rb)) = size rb
}.

(** The index part alone, which is all the counting arguments need. *)
Definition rb_idx (rb : ringBuf) : Prop :=
  0 <= head rb < size rb /\ 0 <= tail rb < size rb /\ size rb < 2^32.

(** The bytes waiting in the buffer, oldest first: position [i] of the
    queue is the cell [(tail + i) mod size]. *)
Definition rb_cell (rb : ringBuf) (i : nat) : Z :=
  u8 (default 0 (buf rb !! Z.to_nat ((tail rb + Z.of_nat i) mod size rb))).

Definition rb_contents (rb : ringBuf) : list Z :=
  map (rb_cell rb) (seq 0 (Z.to_nat (rb_get_count rb))).

(** ** The session *)

Inductive pwm_audio_status_t :=
| PWM_AUDIO_STATUS_UN_INIT
| PWM_AUDIO_STATUS_IDLE
| PWM_AUDIO_STATUS_BUSY.

Definition status_eqb (a b : pwm_audio_status_t) : bool :=
  match a, b with
  | PWM_AUDIO_STATUS_UN_INIT, PWM_AUDIO_STATUS_UN_INIT
  | PWM_AUDIO_STATUS_IDLE, PWM_AUDIO_STATUS_IDLE
  | PWM_AUDIO_STATUS_BUSY, PWM_AUDIO_STATUS_BUSY => true
  | _, _ => false
  end.

(** [pwm_audio_handle], with the one field of [config] that the streaming
    engine reads ([config.duty_resolution]).  The timer and LEDC
    configuration blocks only feed the peripheral drivers. *)
Record pwm_audio_handle := mkHandle {
  duty_resolution : Z;
  ringbuf : ringBuf;
  channel_mask : Z;
  channel_set_num : Z;
  framerate : Z;
  bits_per_sample : Z;
  status : pwm_audio_status_t
}.

Definition set_ringbuf (h : pwm_audio_handle) (rb : ringBuf) : pwm_audio_handle :=
  mkHandle (duty_resolution h) rb (channel_mask h) (channel_set_num h)
           (framerate h) (bits_per_sample h) (status h).
Definition set_status (h : pwm_audio_handle) (st : pwm_audio_status_t) : pwm_audio_handle :=
  mkHandle (duty_resolution h) (ringbuf h) (channel_mask h) (channel_set_num h)
           (framerate h) (bits_per_sample h) st.
Definition set_framerate (h : pwm_audio_handle) (rate : Z) : pwm_audio_handle :=
  mkHandle (duty_resolution h) (ringbuf h) (channel_mask h) (channel_set_num h)
           rate (bits_per_sample h) (status h).

(** The three registers of one LEDC channel that the fast duty setter
    touches. *)
Record ledc_regs := mkLedc {
  duty_val : Z;
  conf0_val : Z;
  conf1_val : Z
}.

(** The global state: the session behind [g_pwm_audio_handle], the
    function-local statics of the interrupt handler, and the registers
    behind the cached [g_ledc_left_*] and [g_ledc_right_*] pointers (the two
    outputs are taken to sit on different LEDC channels). *)
Record session := mkSession {
  handle : pwm_audio_handle;
  wave_h : Z;
  wave_l : Z;
  value : Z;
  ledc_left : ledc_regs;
  ledc_right : ledc_regs
}.

Definition rb_of (s : session) : ringBuf := ringbuf (handle s).

Definition with_rb (s : session) (rb : ringBuf) : session :=
  mkSession (set_ringbuf (handle s) rb) (wave_h s) (wave_l s) (value s)
            (ledc_left s) (ledc_right s).
Definition with_wave_h (s : session) (v : Z) : session :=
  mkSession (handle s) v (wave_l s) (value s) (ledc_left s) (ledc_right s).
Definition with_wave_l (s : session) (v : Z) : session :=
  mkSession (handle s) (wave_h s) v (value s) (ledc_left s) (ledc_right s).
Definition with_value (s : session) (v : Z) : session :=
  mkSession (handle s) (wave_h s) (wave_l s) v (ledc_left s) (ledc_right s).
Definition with_left (s : session) (r : ledc_regs) : session :=
  mkSession (handle s) (wave_h s) (wave_l s) (value s) r (ledc_right s).
Definition with_right (s : session) (r : ledc_regs) : session :=
  mkSession (handle s) (wave_h s) (wave_l s) (value s) (ledc_left s) r.

(** What an observer of the engine can see. *)
Inductive event :=
| EvRead (r : esp_err_t)
| EvWrite (r : esp_err_t)
| EvLeftDuty (v : Z)
| EvRightDuty (v : Z)
| EvArm
| EvGuard
| EvGive
| EvTake (woken : bool).

Fixpoint left_duties (tr : list event) : list Z :=
  match tr with
  | [] => []
  | EvLeftDuty v :: tr => v :: left_duties tr
  | _ :: tr => left_duties tr
  end.

Fixpoint right_duties (tr : list event) : list Z :=
  match tr with
  | [] => []
  | EvRightDuty v :: tr => v :: right_duties tr
  | _ :: tr => right_duties tr
  end.

Fixpoint reads (tr : list event) : nat :=
  match tr with
  | [] => 0%nat
  | EvRead _ :: tr => S (reads tr)
  | _ :: tr => reads tr
  end.

(** State passing with an event log. *)
Definition M (A : Type) : Type := session -> A * session * list event.

Definition ret {A} (a : A) : M A := fun s => (a, s, []).

Definition bind {A B} (m : M A) (k : A -> M B) : M B :=
  fun s =>
    let '(a, s1, e1) := m s in
    let '(b, s2, e2) := k a s1 in
    (b, s2, e1 ++ e2).

Definition gets {A} (f : session -> A) : M A := fun s => (f s, s, []).

Notation "'let*' x ':=' m 'in' k" := (bind m (fun x => k))
  (at level 10, x name, m at level 100, k at level 200).
Notation "m >> k" := (bind m (fun _ => k)) (at level 65, right associativity).

Definition events {A} (r : A * session * list event) : list event := snd r.
Definition final {A} (r : A * session * list event) : session := snd (fst r).
Definition result {A} (r : A * session * list event) : A := fst (fst r).

(** ** The interrupt handler *)

Definition read_wave_l : M esp_err_t := fun s =>
  let '(r, o, rb) := rb_read_byte (rb_of s) (wave_l s) in
  (r, with_wave_l (with_rb s rb) o, [EvRead r]).

Definition read_wave_h : M esp_err_t := fun s =>
  let '(r, o, rb) := rb_read_byte (rb_of s) (wave_h s) in
  (r, with_wave_h (with_rb s rb) o, [EvRead r]).

(** [value = ((wave_h << 8) | wave_l)] into the [uint16_t] static. *)
Definition combine_value : M unit := fun s =>
  (tt, with_value s (u16 (Z.lor (Z.shiftl (wave_h s) 8) (wave_l s))), []).

Definition ledc_set_duty_fast (duty : Z) (r : ledc_regs) : ledc_regs :=
  mkLedc (u32 (Z.shiftl (u32 duty) 4))
         (Z.lor (conf0_val r) 0x00000014)
         (Z.lor (conf1_val r) 0x80000000).

Definition ledc_set_left_duty_fast (duty : Z) : M unit := fun s =>
  (tt, with_left s (ledc_set_duty_fast duty (ledc_left s)), [EvLeftDuty duty]).

Definition ledc_set_right_duty_fast (duty : Z) : M unit := fun s =>
  (tt, with_right s (ledc_set_duty_fast duty (ledc_right s)), [EvRightDuty duty]).

(** Lines 307-320: the left channel. *)
Definition isr_left : M unit :=
  let* h := gets handle in
  if negb (Z.land (channel_mask h) CHANNEL_LEFT_MASK =? 0) then
    if duty_resolution h >? 8 then
      read_wave_l >>
      let* r := read_wave_h in
      if esp_err_eqb ESP_OK r then
        combine_value >>
        let* v := gets value in
        ledc_set_left_duty_fast v
      else ret tt
    else
      let* r := read_wave_h in
      if esp_err_eqb ESP_OK r then
        let* v := gets wave_h in
        ledc_set_left_duty_fast v
      else ret tt
  else ret tt.

(** Lines 326-362: the right channel. *)
Definition isr_right : M unit :=
  let* h := gets handle in
  if negb (Z.land (channel_mask h) CHANNEL_RIGHT_MASK =? 0) then
    if channel_set_num h =? 1 then
      if duty_resolution h >? 8 then
        let* v := gets value in
        ledc_set_right_duty_fast v
      else
        let* v := gets wave_h in
        ledc_set_right_duty_fast v
    else
      if duty_resolution h >? 8 then
        read_wave_l >>
        let* r := read_wave_h in
        if esp_err_eqb ESP_OK r then
          combine_value >>
          let* v := gets value in
          ledc_set_right_duty_fast v
        else ret tt
      else
        let* r := read_wave_h in
        if esp_err_eqb ESP_OK r then
          let* v := gets wave_h in
          ledc_set_right_duty_fast v
        else ret tt
  else
    if channel_set_num h =? 2 then
      (if duty_resolution h >? 8 then
         read_wave_h >> read_wave_h >> ret tt
       else
         read_wave_h >> ret tt) >>
      read_wave_l >> ret tt
    else ret tt.

Definition set_guard : M unit := fun s =>
  (tt, with_rb s (set_is_give (rb_of s) 1), [EvGuard]).

(** [xSemaphoreGiveFromISR] on a binary semaphore: a give is pending
    afterwards (a second give on a pending one changes nothing). *)
Definition xSemaphoreGiveFromISR : M unit := fun s =>
  (tt, with_rb s (set_semaphore (rb_of s) true), [EvGive]).

(** Lines 367-376: wake the producer. *)
Definition isr_signal : M unit :=
  let* rb := gets rb_of in
  if (0 =? is_give rb) && (rb_get_free rb >? BUFFER_MIN_SIZE) then
    set_guard >> xSemaphoreGiveFromISR
  else ret tt.

(** The handler body once [g_pwm_audio_handle] is known to be set.
    Acknowledging the interrupt and re-enabling the alarm are register
    writes of the timer peripheral and leave this state alone. *)
Definition isr_body : M unit :=
  isr_left >> isr_right >> isr_signal.

(** [timer_group_isr]: nothing happens without a session. *)
Definition timer_group_isr (g : option session) : option session * list event :=
  match g with
  | None => (None, [])
  | Some s => (Some (final (isr_body s)), events (isr_body s))
  end.

(** ** The producer *)

Definition arm : M unit := fun s =>
  (tt, with_rb s (set_is_give (rb_of s) 0), [EvArm]).

(** [xSemaphoreTake(sem, ticks_to_wait)].  The caller blocks; meanwhile the
    timer interrupt fires.  [n] is the number of interrupts that fit into
    [ticks_to_wait]: the take returns as soon as a give is pending, and
    times out when [n] interrupts have passed without one. *)
Fixpoint xSemaphoreTake (n : nat) (s : session) : bool * session * list event :=
  if semaphore_rb (rb_of s) then
    (true, with_rb s (set_semaphore (rb_of s) false), [EvTake true])
  else
    match n with
    | O => (false, s, [EvTake false])
    | S n' => (isr_body >> xSemaphoreTake n') s
    end.

Definition rb_wait_semaphore (ticks : nat) : M esp_err_t :=
  arm >>
  let* woken := xSemaphoreTake ticks in
  if woken then ret ESP_OK else ret ESP_FAIL.

Definition rb_write (v : Z) : M unit := fun s =>
  let '(r, rb) := rb_write_byte (rb_of s) v in
  (tt, with_rb s rb, [EvWrite r]).

(** [for (size_t i = 0; i < len; i++) body]. *)
Fixpoint for_loop (n : nat) (i : Z) (body : Z -> M unit) : M unit :=
  match n with
  | O => ret tt
  | S n' => body i >> for_loop n' (i + 1) body
  end.

(** [inbuf[i]], and the same storage seen through [uint16_t *] and
    [uint32_t *] on a little-endian core. *)
Definition byte_at (inbuf : list Z) (i : Z) : Z :=
  u8 (default 0 (inbuf !! Z.to_nat i)).
Definition load16 (inbuf : list Z) (i : Z) : Z :=
  byte_at inbuf (2 * i) + 2^8 * byte_at inbuf (2 * i + 1).
Definition load32 (inbuf : list Z) (i : Z) : Z :=
  byte_at inbuf (4 * i) + 2^8 * byte_at inbuf (4 * i + 1)
  + 2^16 * byte_at inbuf (4 * i + 2) + 2^24 * byte_at inbuf (4 * i + 3).

(** The loop bodies of the [switch] (lines 563-648). *)
Definition body8_expand (inbuf : list Z) (shift : Z) (i : Z) : M unit :=
  let temp := u8 (byte_at inbuf i + 0x7f) in
  let value := u16 (Z.shiftl temp shift) in
  rb_write value >> rb_write (Z.shiftr value 8).

Definition body8 (inbuf : list Z) (i : Z) : M unit :=
  let value := u8 (byte_at inbuf i + 0x7f) in
  rb_write value.

Definition conv16 (inbuf : list Z) (shift : Z) (i : Z) : Z :=
  let temp := s16 (load16 inbuf i) in
  let value := u16 (temp + 0x7fff) in
  u16 (Z.shiftr value shift).

Definition body16_wide (inbuf : list Z) (shift : Z) (i : Z) : M unit :=
  let value := conv16 inbuf shift i in
  rb_write value >> rb_write (Z.shiftr value 8).

Definition body16 (inbuf : list Z) (shift : Z) (i : Z) : M unit :=
  let value := conv16 inbuf shift i in
  rb_write value.

(** The sum [temp + 0x7fffffff] overflows [int] for positive samples; it
    wraps on this target. *)
Definition conv32 (inbuf : list Z) (shift : Z) (i : Z) : Z :=
  let temp := s32 (load32 inbuf i) in
  let value := u32 (temp + 0x7fffffff) in
  u32 (Z.shiftr value shift).

Definition body32_wide (inbuf : list Z) (shift : Z) (i : Z) : M unit :=
  let value := conv32 inbuf shift i in
  rb_write value >> rb_write (Z.shiftr value 8).

Definition body32 (inbuf : list Z) (shift : Z) (i : Z) : M unit :=
  let value := conv32 inbuf shift i in
  rb_write value.

(** Lines 559-648: convert [bytes_can_write] input bytes.  The result is
    [bytes_can_write] as the code leaves it (halved on the expanding 8-bit
    path). *)
Definition convert (inbuf : list Z) (bytes_can_write : Z) : M Z :=
  let* h := gets handle in
  let shift := s8 (bits_per_sample h - duty_resolution h) in
  let len := bytes_can_write in
  if bits_per_sample h =? 8 then
    if shift <? 0 then
      let shift := s8 (- shift) in
      let len := Z.shiftr len 1 in
      let bytes_can_write := Z.shiftr bytes_can_write 1 in
      for_loop (Z.to_nat len) 0 (body8_expand inbuf shift) >>
      ret bytes_can_write
    else
      for_loop (Z.to_nat len) 0 (body8 inbuf) >>
      ret bytes_can_write
  else if bits_per_sample h =? 16 then
    let len := Z.shiftr len 1 in
    if duty_resolution h >? 8 then
      for_loop (Z.to_nat len) 0 (body16_wide inbuf shift) >>
      ret bytes_can_write
    else
      for_loop (Z.to_nat len) 0 (body16 inbuf shift) >>
      ret bytes_can_write
  else if bits_per_sample h =? 32 then
    let len := Z.shiftr len 2 in
    if duty_resolution h >? 8 then
      for_loop (Z.to_nat len) 0 (body32_wide inbuf shift) >>
      ret bytes_can_write
    else
      for_loop (Z.to_nat len) 0 (body32 inbuf shift) >>
      ret bytes_can_write
  else ret bytes_can_write.

(** Lines 545-557: how much of the input one round takes. *)
Definition round_size (inbuf_len free : Z) : Z :=
  let bytes_can_write := inbuf_len in
  let bytes_can_write := if inbuf_len >? free then free else bytes_can_write in
  Z.land bytes_can_write 0xfffffffc.

(** One round after a successful wait (lines 545-652): [None] when the
    round ends the call through the discard branch, otherwise the number
    of input bytes it consumed. *)
Definition write_round (inbuf : list Z) (inbuf_len : Z) : M (option Z) :=
  let* free := gets (fun s => rb_get_free (rb_of s)) in
  let bytes_can_write := round_size inbuf_len free in
  if 0 =? bytes_can_write then ret None
  else
    let* consumed := convert inbuf bytes_can_write in
    ret (Some consumed).

(** The [while (inbuf_len)] loop.  [sched] lists, for each wait the loop
    enters, how many timer interrupts fit into [ticks_to_wait].  The result
    is [Some (res, *bytes_written)] when the call returns and [None] when
    it is still inside the loop after the waits of [sched]. *)
Fixpoint write_loop (sched : list nat) (inbuf : list Z) (inbuf_len : Z)
    (bytes_written : Z) (res : esp_err_t) : M (option (esp_err_t * Z)) :=
  if inbuf_len =? 0 then ret (Some (res, bytes_written))
  else
    match sched with
    | [] => ret None
    | ticks :: sched =>
      let* w := rb_wait_semaphore ticks in
      if esp_err_eqb ESP_OK w then
        let* r := write_round inbuf inbuf_len in
        match r with
        | None => ret (Some (ESP_OK, u32 (bytes_written + inbuf_len)))
        | Some consumed =>
          write_loop sched (drop (Z.to_nat consumed) inbuf)
                     (u32 (inbuf_len - consumed))
                     (u32 (bytes_written + consumed)) res
        end
      else write_loop sched inbuf inbuf_len bytes_written ESP_FAIL
    end.

(** [pwm_audio_write(inbuf, inbuf_len, bytes_written, ticks_to_wait)].
    [inbuf = None] is the null pointer; [bytes_written] is [None] for a
    null pointer and otherwise holds what the caller's variable contains.
    The second component of a returned pair is that variable on return. *)
Definition pwm_audio_write (inbuf : option (list Z)) (inbuf_len : Z)
    (bytes_written : option Z) (sched : list nat)
    : M (option (esp_err_t * option Z)) :=
  match inbuf, bytes_written with
  | Some data, Some _ =>
    if negb (inbuf_len =? 0) then
      let* r := write_loop sched data inbuf_len 0 ESP_OK in
      match r with
      | Some (res, n) => ret (Some (res, Some n))
      | None => ret None
      end
    else ret (Some (ESP_ERR_INVALID_ARG, bytes_written))
  | _, _ => ret (Some (ESP_ERR_INVALID_ARG, bytes_written))
  end.

(** ** Session control *)

(** [pwm_audio_set_param(rate, bits, ch)].  After the checks the function
    programs the hardware timer and ignores what the driver returns. *)
Definition pwm_audio_set_param (rate bits ch : Z) (h : pwm_audio_handle)
    : esp_err_t * pwm_audio_handle :=
  if negb (negb (status_eqb (status h) PWM_AUDIO_STATUS_BUSY)) then
    (ESP_ERR_INVALID_ARG, h)
  else if negb ((rate <=? SAMPLE_RATE_MAX) && (rate >=? SAMPLE_RATE_MIN)) then
    (ESP_ERR_INVALID_ARG, h)
  else if negb ((bits =? 32) || (bits =? 16) || (bits =? 8)) then
    (ESP_ERR_INVALID_ARG, h)
  else if negb ((ch <=? 2) && (ch >=? 1)) then
    (ESP_ERR_INVALID_ARG, h)
  else
    (ESP_OK,
     mkHandle (duty_resolution h) (ringbuf h) (channel_mask h) ch rate bits (status h)).

(** [pwm_audio_set_sample_rate(rate)]; [timer_res] is what
    [timer_set_alarm_value] returns. *)
Definition pwm_audio_set_sample_rate (timer_res : esp_err_t) (rate : Z)
    (h : pwm_audio_handle) : esp_err_t * pwm_audio_handle :=
  if negb (negb (status_eqb (status h) PWM_AUDIO_STATUS_BUSY)) then
    (ESP_ERR_INVALID_ARG, h)
  else if negb ((rate <=? SAMPLE_RATE_MAX) && (rate >=? SAMPLE_RATE_MIN)) then
    (ESP_ERR_INVALID_ARG, h)
  else (timer_res, set_framerate h rate).

(** [pwm_audio_start()]; [timer_res] is what [timer_start] returns. *)
Definition pwm_audio_start (timer_res : esp_err_t) (h : pwm_audio_handle)
    : esp_err_t * pwm_audio_handle :=
  if negb (status_eqb (status h) PWM_AUDIO_STATUS_IDLE) then
    (ESP_ERR_INVALID_STATE, h)
  else (timer_res, set_status h PWM_AUDIO_STATUS_BUSY).

Definition pwm_audio_stop (h : pwm_audio_handle) : esp_err_t * pwm_audio_handle :=
  let h := set_ringbuf h (snd (rb_flush (ringbuf h))) in
  (ESP_OK, set_status h PWM_AUDIO_STATUS_IDLE).

Definition pwm_audio_get_status (h : pwm_audio_handle) : esp_err_t * pwm_audio_status_t :=
  (ESP_OK, status h).

(** ** The two contexts together *)

(** Where the producer task stands: between waits, or inside
    [rb_wait_semaphore] after the guard has been cleared. *)
Inductive producer_pc :=
| Running
| Armed.

(** One atomic step of the system.  The interrupt handler runs to
    completion at any point; the producer clears the guard, then takes the
    semaphore or times out, and writes bytes between waits. *)
Inductive sys_step : session * producer_pc -> list event -> session * producer_pc -> Prop :=
| step_isr s pc :
    sys_step (s, pc) (events (isr_body s)) (final (isr_body s), pc)
| step_arm s :
    sys_step (s, Running) (events (arm s)) (final (arm s), Armed)
| step_take s :
    semaphore_rb (rb_of s) = true ->
    sys_step (s, Armed) (events (xSemaphoreTake 0 s)) (final (xSemaphoreTake 0 s), Running)
| step_timeout s :
    semaphore_rb (rb_of s) = false ->
    sys_step (s, Armed) (events (xSemaphoreTake 0 s)) (final (xSemaphoreTake 0 s), Running)
| step_write s b :
    sys_step (s, Running) (events (rb_write b s)) (final (rb_write b s), Running).

Inductive sys_exec : session * producer_pc -> list event -> session * producer_pc -> Prop :=
| exec_done c : sys_exec c [] c
| exec_step c1 e c2 tr c3 :
    sys_step c1 e c2 -> sys_exec c2 tr c3 -> sys_exec c1 (e ++ tr) c3.

(** A trace is well guarded when no two gives occur without the waiter
    clearing the guard in between.  [pending] says whether a give has been
    issued since the guard was last cleared. *)
Fixpoint wakes_guarded (pending : bool) (tr : list event) : bool :=
  match tr with
  | [] => true
  | EvGive :: tr => negb pending && wakes_guarded true tr
  | EvArm :: tr => wakes_guarded false tr
  | _ :: tr => wakes_guarded pending tr
  end.

(** Every wait result in the trace comes directly after the guard was
    cleared, with nothing of the producer in between. *)
Fixpoint waits_armed (armed : bool) (tr : list event) : bool :=
  match tr with
  | [] => true
  | EvArm :: tr => waits_armed true tr
  | EvTake _ :: tr => armed && waits_armed false tr
  | EvWrite _ :: tr => waits_armed false tr
  | _ :: tr => waits_armed armed tr
  end.

(** The ISR's reconstruction applied to a run of stored bytes, two per
    sample, low byte first (what successive [isr_left] reads at a duty
    resolution above 8 deliver). *)
Fixpoint reconstruct (bytes : list Z) : list Z :=
  match bytes with
  | lo :: hi :: rest => u16 (Z.lor (Z.shiftl hi 8) lo) :: reconstruct rest
  | _ => []
  end.

(** A signed 16-bit sample as it lies in the input buffer. *)
Definition le16 (x : Z) : list Z := [u8 x; u8 (Z.shiftr x 8)].

(** Ring buffer bytes one round stores for [a] input bytes, by sample
    format (the expanding 8-bit path aside). *)
Definition stored (h : pwm_audio_handle) (a : Z) : Z :=
  if bits_per_sample h =? 8 then a
  else if bits_per_sample h =? 16 then
    if duty_resolution h >? 8 then a else Z.shiftr a 1
  else if bits_per_sample h =? 32 then
    if duty_resolution h >? 8 then Z.shiftr a 1 else Z.shiftr a 2
  else 0.

(** ** Sample sessions used to exercise the model *)

Definition demo_rb : ringBuf :=
  mkRingBuf (replicate 1024 0) 0 0 1024 0 false.

(** A ring buffer of 1024 cells holding [data] from cell 0 on. *)
Definition demo_rb_with (data : list Z) : ringBuf :=
  mkRingBuf (data ++ replicate (1024 - length data) 0) (Z.of_nat (length data)) 0 1024 0 false.

Definition demo_session (rb : ringBuf) (duty mask ch bits : Z)
    (st : pwm_audio_status_t) : session :=
  mkSession (mkHandle duty rb mask ch 16000 bits st) 0 0 0
            (mkLedc 0 0 0) (mkLedc 0 0 0).

(** The same session with another channel configuration. *)
Definition with_channels (s : session) (duty mask ch : Z) : session :=
  mkSession (mkHandle duty (rb_of s) mask ch (framerate (handle s))
                      (bits_per_sample (handle s)) (status (handle s)))
            (wave_h s) (wave_l s) (value s) (ledc_left s) (ledc_right s).

Definition demo_exec_start : session * producer_pc :=
  (demo_session demo_rb 10 3 2 16 PWM_AUDIO_STATUS_BUSY, Running).

(** ** Vocabulary of the proofs *)

(** A run with [e] logged in front of it. *)
Definition prepend {A} (e : list event) (r : A * session * list event)
    : A * session * list event :=
  (result r, final r, e ++ events r).

(** The oldest byte of a non-empty buffer, and the buffer without it. *)
Definition rb_front (rb : ringBuf) : Z :=
  u8 (default 0 (buf rb !! Z.to_nat (tail rb))).
Definition rb_pop (rb : ringBuf) : ringBuf :=
  set_tail rb (if u32 (tail rb + 1) =? size rb then 0 else u32 (tail rb + 1)).

(** Events of the consumer side only. *)
Definition is_consumer (e : event) : bool :=
  match e with EvRead _ | EvLeftDuty _ | EvRightDuty _ => true | _ => false end.

(** [s'] differs from [s] by consumer activity only: bytes were taken
    from the buffer, statics and duty registers were written. *)
Record consumed (s s' : session) : Prop := mk_consumed {
  cons_duty : duty_resolution (handle s') = duty_resolution (handle s);
  cons_mask : channel_mask (handle s') = channel_mask (handle s);
  cons_num : channel_set_num (handle s') = channel_set_num (handle s);
  cons_rate : framerate (handle s') = framerate (handle s);
  cons_bits : bits_per_sample (handle s') = bits_per_sample (handle s);
  cons_status : status (handle s') = status (handle s);
  cons_buf : buf (rb_of s') = buf (rb_of s);
  cons_head : head (rb_of s') = head (rb_of s);
  cons_size : size (rb_of s') = size (rb_of s);
  cons_give : is_give (rb_of s') = is_give (rb_of s);
  cons_sem : semaphore_rb (rb_of s') = semaphore_rb (rb_of s);
  cons_idx : rb_idx (rb_of s) ->
             rb_idx (rb_of s') /\ rb_get_free (rb_of s) <= rb_get_free (rb_of s')
}.

(** A computation that only acts as the consumer does. *)
Definition consumer_run {A} (m : M A) : Prop :=
  forall s, consumed s (final (m s)) /\ forallb is_consumer (events (m s)) = true.

Definition pc_armed (pc : producer_pc) : bool :=
  match pc with Armed => true | Running => false end.

(** [rb'] is [rb] after the producer appended the bytes [bs]. *)
Record pushed (rb : ringBuf) (bs : list Z) (rb' : ringBuf) : Prop := mk_pushed {
  push_ok : rb_ok rb';
  push_tail : tail rb' = tail rb;
  push_size : size rb' = size rb;
  push_give : is_give rb' = is_give rb;
  push_sem : semaphore_rb rb' = semaphore_rb rb;
  push_free : rb_get_free rb' = rb_get_free rb - Z.of_nat (length bs);
  push_contents : rb_contents rb' = rb_contents rb ++ bs
}.

(** A computation that stores exactly the bytes [bs], every
    [rb_write_byte] succeeding, whenever that many bytes are free. *)
Definition writes (m : M unit) (bs : list Z) : Prop :=
  forall s,
    rb_ok (rb_of s) ->
    Z.of_nat (length bs) <= rb_get_free (rb_of s) ->
    exists rb',
      m s = (tt, with_rb s rb', map (fun _ => EvWrite ESP_OK) bs) /\
      pushed (rb_of s) bs rb'.

(** The bytes [for_loop n i body] stores when [body j] stores [f j]. *)
Fixpoint loop_out (n : nat) (i : Z) (f : Z -> list Z) : list Z :=
  match n with
  | O => []
  | S n' => f i ++ loop_out n' (i + 1) f
  end.

(** What [convert] stores and returns, as functions of the handle. *)
Definition convert_out (h : pwm_audio_handle) (inbuf : list Z)
    (bytes_can_write : Z) : list Z :=
  let shift := s8 (bits_per_sample h - duty_resolution h) in
  if bits_per_sample h =? 8 then
    if shift <? 0 then
      loop_out (Z.to_nat (Z.shiftr bytes_can_write 1)) 0
        (fun i =>
           let value := u16 (Z.shiftl (u8 (byte_at inbuf i + 0x7f)) (s8 (- shift))) in
           [u8 value] ++ [u8 (Z.shiftr value 8)])
    else
      loop_out (Z.to_nat bytes_can_write) 0
        (fun i => [u8 (u8 (byte_at inbuf i + 0x7f))])
  else if bits_per_sample h =? 16 then
    if duty_resolution h >? 8 then
      loop_out (Z.to_nat (Z.shiftr bytes_can_write 1)) 0
        (fun i => [u8 (conv16 inbuf shift i)] ++ [u8 (Z.shiftr (conv16 inbuf shift i) 8)])
    else
      loop_out (Z.to_nat (Z.shiftr bytes_can_write 1)) 0
        (fun i => [u8 (conv16 inbuf shift i)])
  else if bits_per_sample h =? 32 then
    if duty_resolution h >? 8 then
      loop_out (Z.to_nat (Z.shiftr bytes_can_write 2)) 0
        (fun i => [u8 (conv32 inbuf shift i)] ++ [u8 (Z.shiftr (conv32 inbuf shift i) 8)])
    else
      loop_out (Z.to_nat (Z.shiftr bytes_can_write 2)) 0
        (fun i => [u8 (conv32 inbuf shift i)])
  else [].

Definition expanding (h : pwm_audio_handle) : bool :=
  (bits_per_sample h =? 8) && (s8 (bits_per_sample h - duty_resolution h) <? 0).

Definition convert_result (h : pwm_audio_handle) (bytes_can_write : Z) : Z :=
  if expanding h then Z.shiftr bytes_can_write 1 else bytes_can_write.

(** [s'] is [s] after a wait of the producer: the interrupt handler may
    have run, the guard and the semaphore may have changed, the producer's
    side of the buffer and the configuration have not. *)
Record kept (s s' : session) : Prop := mk_kept {
  kept_duty : duty_resolution (handle s') = duty_resolution (handle s);
  kept_num : channel_set_num (handle s') = channel_set_num (handle s);
  kept_bits : bits_per_sample (handle s') = bits_per_sample (handle s);
  kept_status : status (handle s') = status (handle s);
  kept_head : head (rb_of s') = head (rb_of s);
  kept_size : size (rb_of s') = size (rb_of s);
  kept_ok : rb_ok (rb_of s) ->
            rb_ok (rb_of s') /\ rb_get_free (rb_of s) <= rb_get_free (rb_of s')
}.

(** The results of the [rb_write_byte] calls in a trace. *)
Fixpoint write_results (tr : list event) : list esp_err_t :=
  match tr with
  | [] => []
  | EvWrite r :: tr => r :: write_results tr
  | _ :: tr => write_results tr
  end.

(** Formats in which a sample takes as many bytes in the ring buffer as
    in the input. *)
Definition stores_as_supplied (h : pwm_audio_handle) : bool :=
  (bits_per_sample h =? 8) || ((bits_per_sample h =? 16) && (duty_resolution h >? 8)).

(** ** A bounded queue, the ring buffer's reference *)

(** What the three operations do to a queue of at most [capacity]
    bytes. *)
Definition queue_apply (capacity : Z) (q : list Z) (op : rb_op) : list Z :=
  match op with
  | OpWrite b => if Z.of_nat (length q) <? capacity then q ++ [u8 b] else q
  | OpRead => drop 1 q
  | OpFlush => []
  end.

Definition queue_run (capacity : Z) (ops : list rb_op) (q : list Z) : list Z :=
  fold_left (queue_apply capacity) ops q.

(** [n] successive [rb_read_byte] calls, stopping at the first failure:
    the bytes read and the buffer left. *)
Fixpoint rb_read_n (n : nat) (rb : ringBuf) : list Z * ringBuf :=
  match n with
  | O => ([], rb)
  | S n' =>
    let '(r, o, rb1) := rb_read_byte rb 0 in
    if esp_err_eqb ESP_OK r then
      let '(l, rb2) := rb_read_n n' rb1 in (o :: l, rb2)
    else ([], rb1)
  end.

(** Successful reads in a trace. *)
Fixpoint reads_ok (tr : list event) : nat :=
  match tr with
  | [] => 0%nat
  | EvRead ESP_OK :: tr => S (reads_ok tr)
  | _ :: tr => reads_ok tr
  end.

(** A consumer computation accounts for the space it frees: one byte per
    successful read, and at most [k] reads. *)
Definition metered {A} (k : nat) (m : M A) : Prop :=
  forall s,
    (reads (events (m s)) <= k)%nat /\
    (rb_idx (rb_of s) ->
     rb_idx (rb_of (final (m s))) /\
     rb_get_free (rb_of (final (m s)))
     = rb_get_free (rb_of s) + Z.of_nat (reads_ok (events (m s)))).


(** ** Initialisation *)

(** The fields of [pwm_audio_config_t] that [pwm_audio_init] inspects,
    each as the integer it holds. *)
Record pwm_audio_config_t := mkConfig {
  tg_num : Z;
  timer_num : Z;
  cfg_duty_resolution : Z;
  ringbuf_len : Z;
  gpio_num_left : Z;
  gpio_num_right : Z
}.

(** What [pwm_audio_init] gets from outside this file: the two limits of
    the timer driver, the status a zeroed handle holds, whether [malloc]
    and the allocations of [rb_create] succeed, and what the LEDC driver
    returns for the two channels and for the timer. *)
Record init_env := mkInitEnv {
  TIMER_GROUP_MAX : Z;
  TIMER_MAX : Z;
  zero_status : pwm_audio_status_t;
  handle_heap : bool;
  ringbuf_heap : bool;
  ledc_channel_left_res : esp_err_t;
  ledc_channel_right_res : esp_err_t;
  ledc_timer_res : esp_err_t
}.

Definition set_channel_mask (h : pwm_audio_handle) (m : Z) : pwm_audio_handle :=
  mkHandle (duty_resolution h) (ringbuf h) m (channel_set_num h)
           (framerate h) (bits_per_sample h) (status h).

(** Lines 417-428 and 430-441: one output.  A pin number below 0 leaves
    the output off; otherwise the LEDC channel is configured and, when the
    driver accepts it, the output's bit is set in [channel_mask].  [None]
    is the driver's refusal. *)
Definition ledc_channel_setup (gpio_num : Z) (res : esp_err_t) (mask : Z)
    (h : pwm_audio_handle) : option pwm_audio_handle :=
  if gpio_num >=? 0 then
    if negb (esp_err_eqb ESP_OK res) then None
    else Some (set_channel_mask h (Z.lor (channel_mask h) mask))
  else Some h.

(** [pwm_audio_init(cfg)].  [cfg = None] is the null pointer and [g] is
    [g_pwm_audio_handle] before the call; the result is the return value
    and [g_pwm_audio_handle] after it. *)
Definition pwm_audio_init (cfg : option pwm_audio_config_t) (env : init_env)
    (g : option pwm_audio_handle) : esp_err_t * option pwm_audio_handle :=
  match cfg with
  | None => (ESP_ERR_INVALID_ARG, g)
  | Some cfg =>
    if negb (tg_num cfg <? TIMER_GROUP_MAX env) then (ESP_ERR_INVALID_ARG, g)
    else if negb (timer_num cfg <? TIMER_MAX env) then (ESP_ERR_INVALID_ARG, g)
    else if negb ((cfg_duty_resolution cfg <=? 10) && (cfg_duty_resolution cfg >=? 8))
    then (ESP_ERR_INVALID_ARG, g)
    else if negb (handle_heap env) then (ESP_ERR_NO_MEM, g)
    else
      match rb_create (ringbuf_len cfg) (ringbuf_heap env) with
      | None => (ESP_ERR_NO_MEM, g)
      | Some rb =>
        let h := mkHandle (cfg_duty_resolution cfg) rb 0 0 0 0 (zero_status env) in
        let h := set_channel_mask h 0 in
        match ledc_channel_setup (gpio_num_left cfg) (ledc_channel_left_res env)
                                 CHANNEL_LEFT_MASK h with
        | None => (ESP_ERR_INVALID_ARG, Some h)
        | Some h =>
          match ledc_channel_setup (gpio_num_right cfg) (ledc_channel_right_res env)
                                   CHANNEL_RIGHT_MASK h with
          | None => (ESP_ERR_INVALID_ARG, Some h)
          | Some h =>
            if negb (negb (0 =? channel_mask h)) then (ESP_ERR_INVALID_ARG, Some h)
            else if negb (esp_err_eqb (ledc_timer_res env) ESP_OK)
            then (ESP_ERR_INVALID_ARG, Some h)
            else
              let '(res, h) := pwm_audio_set_param 16000 8 2 h in
              if negb (esp_err_eqb ESP_OK res) then (ESP_ERR_INVALID_ARG, Some h)
              else (res, Some (set_status h PWM_AUDIO_STATUS_IDLE))
          end
        end
      end
  end.

(** The channel mask a configuration asks for. *)
Definition config_mask (cfg : pwm_audio_config_t) : Z :=
  Z.lor (if gpio_num_left cfg >=? 0 then CHANNEL_LEFT_MASK else 0)
        (if gpio_num_right cfg >=? 0 then CHANNEL_RIGHT_MASK else 0).

(** A configuration and an environment with which [pwm_audio_init]
    succeeds. *)
Definition demo_config : pwm_audio_config_t := mkConfig 0 0 10 8192 25 26.
Definition demo_env : init_env :=
  mkInitEnv 2 2 PWM_AUDIO_STATUS_UN_INIT true true ESP_OK ESP_OK ESP_OK.

(** ** A session's life *)

(** What can happen to an initialised session: a call of the API, or the
    timer interrupt.  A write carries the interrupt schedule of its
    waits. *)
Inductive call :=
| SetParam (rate bits ch : Z)
| SetSampleRate (timer_res : esp_err_t) (rate : Z)
| Start (timer_res : esp_err_t)
| Stop
| WriteCall (inbuf : list Z) (inbuf_len : Z) (sched : list nat)
| Interrupt.

Definition with_handle (s : session) (h : pwm_audio_handle) : session :=
  mkSession h (wave_h s) (wave_l s) (value s) (ledc_left s) (ledc_right s).

(** The session after a call and what the call logs.  [inbuf_len] reaches
    [pwm_audio_write] as a [size_t]. *)
Definition run_call (s : session) (c : call) : session * list event :=
  match c with
  | SetParam rate bits ch =>
    (with_handle s (snd (pwm_audio_set_param rate bits ch (handle s))), [])
  | SetSampleRate timer_res rate =>
    (with_handle s (snd (pwm_audio_set_sample_rate timer_res rate (handle s))), [])
  | Start timer_res => (with_handle s (snd (pwm_audio_start timer_res (handle s))), [])
  | Stop => (with_handle s (snd (pwm_audio_stop (handle s))), [])
  | WriteCall inbuf inbuf_len sched =>
    let r := pwm_audio_write (Some inbuf) (u32 inbuf_len) (Some 0) sched s in
    (final r, events r)
  | Interrupt => (final (isr_body s), events (isr_body s))
  end.

Fixpoint run_calls (s : session) (cs : list call) : session * list event :=
  match cs with
  | [] => (s, [])
  | c :: cs =>
    let '(s1, e1) := run_call s c in
    let '(s2, e2) := run_calls s1 cs in
    (s2, e1 ++ e2)
  end.

(** What holds of a session from a successful [pwm_audio_init] on. *)
Record session_ok (s : session) : Prop := mk_session_ok {
  sok_rb : rb_ok (rb_of s);
  sok_size : 1024 <= size (rb_of s);
  sok_duty : 8 <= duty_resolution (handle s) <= 10;
  sok_mask : 1 <= channel_mask (handle s) <= 3;
  sok_status : status (handle s) <> PWM_AUDIO_STATUS_UN_INIT;
  sok_rate : SAMPLE_RATE_MIN <= framerate (handle s) <= SAMPLE_RATE_MAX;
  sok_bits : bits_per_sample (handle s) = 8 \/ bits_per_sample (handle s) = 16 \/
             bits_per_sample (handle s) = 32;
  sok_ch : channel_set_num (handle s) = 1 \/ channel_set_num (handle s) = 2
}.

(** [s'] has the configuration of [s]: only the ring buffer's indices,
    cells and flags, the statics and the duty registers may differ. *)
Record same_config (s s' : session) : Prop := mk_same_config {
  same_duty : duty_resolution (handle s') = duty_resolution (handle s);
  same_mask : channel_mask (handle s') = channel_mask (handle s);
  same_num : channel_set_num (handle s') = channel_set_num (handle s);
  same_rate : framerate (handle s') = framerate (handle s);
  same_bits : bits_per_sample (handle s') = bits_per_sample (handle s);
  same_status : status (handle s') = status (handle s);
  same_size : size (rb_of s') = size (rb_of s)
}.

(** ** The converted samples *)

(** The value the conversion loop computes for sample [i] of the input
    (the [value] of lines 563-648), the number of samples one round
    converts out of [bytes_can_write], and the bytes [rb_write_byte]
    receives for a value. *)
Definition sample_value (h : pwm_audio_handle) (inbuf : list Z) (i : Z) : Z :=
  let shift := s8 (bits_per_sample h - duty_resolution h) in
  if bits_per_sample h =? 8 then
    if shift <? 0 then u16 (Z.shiftl (u8 (byte_at inbuf i + 0x7f)) (s8 (- shift)))
    else u8 (byte_at inbuf i + 0x7f)
  else if bits_per_sample h =? 16 then conv16 inbuf shift i
  else if bits_per_sample h =? 32 then conv32 inbuf shift i
  else 0.

Definition sample_count (h : pwm_audio_handle) (bytes_can_write : Z) : Z :=
  if bits_per_sample h =? 8 then
    if expanding h then Z.shiftr bytes_can_write 1 else bytes_can_write
  else if bits_per_sample h =? 16 then Z.shiftr bytes_can_write 1
  else if bits_per_sample h =? 32 then Z.shiftr bytes_can_write 2
  else 0.

Definition sample_bytes (h : pwm_audio_handle) (v : Z) : list Z :=
  if duty_resolution h >? 8 then [u8 v; u8 (Z.shiftr v 8)] else [u8 v].

(** [n] timer interrupts in a row, each with the session set. *)
Fixpoint isr_runs (n : nat) : M unit :=
  match n with
  | O => ret tt
  | S n' => isr_body >> isr_runs n'
  end.
Lemma rb_ok_idx rb : rb_ok rb -> rb_idx rb.
Proof. intros [? ? ? ?]. red. auto. Qed.

Ltac u32_small :=
  unfold u32;
  repeat match goal with
  | |- context [?x mod 2^32] => rewrite (Z.mod_small x (2^32)) by lia
  end.

Lemma rb_get_count_spec rb :
  rb_idx rb ->
  rb_get_count rb =
    if head rb >=? tail rb then head rb - tail rb
    else size rb - (tail rb - head rb).
Proof.
  intros (Hh & Ht & Hs). unfold rb_get_count. cbn zeta.
  destruct (Z.geb_spec (head rb) (tail rb)); u32_small; reflexivity.
Qed.

Lemma rb_get_count_range rb :
  rb_idx rb -> 0 <= rb_get_count rb <= size rb - 1.
Proof.
  intros H. rewrite rb_get_count_spec by assumption.
  destruct H as (Hh & Ht & Hs).
  destruct (Z.geb_spec (head rb) (tail rb)); lia.
Qed.

Lemma rb_get_free_spec rb :
  rb_idx rb -> rb_get_free rb = size rb - 1 - rb_get_count rb.
Proof.
  intros H. pose proof (rb_get_count_range rb H) as Hc.
  destruct H as (Hh & Ht & Hs).
  unfold rb_get_free. u32_small. lia.
Qed.

Lemma rb_write_byte_idx rb b : rb_idx rb -> rb_idx (snd (rb_write_byte rb b)).
Proof.
  intros (Hh & Ht & Hs). unfold rb_write_byte. cbn zeta.
  unfold u32. rewrite (Z.mod_small (head rb + 1)) by lia.
  destruct (Z.eqb_spec (head rb + 1) (size rb));
    [destruct (Z.eqb_spec 0 (tail rb)) | destruct (Z.eqb_spec (head rb + 1) (tail rb))];
    cbn; unfold rb_idx; cbn; lia.
Qed.

Lemma rb_read_byte_idx rb o : rb_idx rb -> rb_idx (snd (rb_read_byte rb o)).
Proof.
  intros (Hh & Ht & Hs). unfold rb_read_byte. cbn zeta.
  destruct (Z.eqb_spec (tail rb) (head rb)); [cbn; red; lia|].
  unfold u32. rewrite (Z.mod_small (tail rb + 1)) by lia.
  destruct (Z.eqb_spec (tail rb + 1) (size rb)); cbn; unfold rb_idx; cbn; lia.
Qed.

Lemma rb_flush_idx rb : rb_idx rb -> rb_idx (snd (rb_flush rb)).
Proof. intros (Hh & Ht & Hs). cbn. unfold rb_idx. cbn. lia. Qed.

Lemma rb_apply_idx rb op : rb_idx rb -> rb_idx (rb_apply rb op).
Proof.
  destruct op; cbn [rb_apply];
    auto using rb_write_byte_idx, rb_read_byte_idx, rb_flush_idx.
Qed.

Lemma rb_apply_size rb op : size (rb_apply rb op) = size rb.
Proof.
  destruct op; cbn [rb_apply]; [unfold rb_write_byte|unfold rb_read_byte|reflexivity];
    cbn zeta; repeat case_match; reflexivity.
Qed.

Lemma rb_apply_length rb op : length (buf (rb_apply rb op)) = length (buf rb).
Proof.
  destruct op; cbn [rb_apply]; [unfold rb_write_byte|unfold rb_read_byte|reflexivity];
    cbn zeta; repeat case_match; cbn; rewrite ?length_insert; reflexivity.
Qed.

Lemma rb_run_idx ops : forall rb, rb_idx rb -> rb_idx (rb_run ops rb).
Proof.
  induction ops as [|op ops IH]; intros rb H; cbn; [assumption|].
  apply IH, rb_apply_idx, H.
Qed.

Lemma rb_run_size ops : forall rb, size (rb_run ops rb) = size rb.
Proof.
  induction ops as [|op ops IH]; intros rb; cbn; [reflexivity|].
  rewrite IH. apply rb_apply_size.
Qed.

Lemma rb_run_length ops : forall rb, length (buf (rb_run ops rb)) = length (buf rb).
Proof.
  induction ops as [|op ops IH]; intros rb; cbn; [reflexivity|].
  rewrite IH. apply rb_apply_length.
Qed.

(** [rb_write_byte] refuses exactly the full buffer. *)
Lemma rb_write_byte_fail_iff rb b :
  rb_idx rb ->
  fst (rb_write_byte rb b) = ESP_FAIL <-> rb_get_count rb = size rb - 1.
Proof.
  intros H. rewrite rb_get_count_spec by assumption.
  destruct H as (Hh & Ht & Hs). unfold rb_write_byte. cbn zeta.
  unfold u32. rewrite (Z.mod_small (head rb + 1)) by lia.
  destruct (Z.geb_spec (head rb) (tail rb));
    destruct (Z.eqb_spec (head rb + 1) (size rb));
    [destruct (Z.eqb_spec 0 (tail rb)) | destruct (Z.eqb_spec (head rb + 1) (tail rb))
    |destruct (Z.eqb_spec 0 (tail rb)) | destruct (Z.eqb_spec (head rb + 1) (tail rb))];
    cbn; split; intros; try lia; try congruence.
Qed.

Lemma rb_write_byte_fail_same rb b :
  fst (rb_write_byte rb b) = ESP_FAIL -> snd (rb_write_byte rb b) = rb.
Proof.
  unfold rb_write_byte. cbn zeta. case_match; cbn; [reflexivity|discriminate].
Qed.


Lemma rb_run_ok ops rb : rb_ok rb -> rb_ok (rb_run ops rb).
Proof.
  intros H. pose proof (rb_run_idx ops rb (rb_ok_idx rb H)) as (Hh & Ht & Hs).
  split; try assumption.
  rewrite rb_run_length, rb_run_size. apply H.
Qed.

Lemma rb_create_ok size0 heap rb :
  rb_create size0 heap = Some rb ->
  rb_ok rb /\ head rb = 0 /\ tail rb = 0 /\ 1024 <= size rb /\
  is_give rb = 0 /\ semaphore_rb rb = false.
Proof.
  unfold rb_create. change (Z.shiftl BUFFER_MIN_SIZE 2) with 1024.
  destruct (Z.ltb_spec (u32 size0) 1024) as [|Hge]; [discriminate|].
  destruct heap; [|discriminate]. intros [= <-]. cbn.
  assert (u32 size0 < 2^32) by (apply Z.mod_pos_bound; lia).
  repeat split; cbn; try lia.
  rewrite length_replicate. lia.
Qed.

(** The full buffer is the one whose next head position is the tail. *)
Lemma rb_full_next_head rb :
  rb_idx rb ->
  rb_get_count rb = size rb - 1 <-> (head rb + 1) mod size rb = tail rb.
Proof.
  intros H. rewrite rb_get_count_spec by assumption.
  destruct H as (Hh & Ht & Hs).
  destruct (Z.eq_dec (head rb + 1) (size rb)) as [E|E].
  - rewrite E, Z.mod_same by lia.
    destruct (Z.geb_spec (head rb) (tail rb)); lia.
  - rewrite Z.mod_small by lia.
    destruct (Z.geb_spec (head rb) (tail rb)); lia.
Qed.

(** C1. From an empty buffer ([head = tail = 0]) of a fixed size above 1,
    after any sequence of [rb_write_byte], [rb_read_byte] (and [rb_flush])
    calls, [rb_get_free + rb_get_count = size - 1]; and [rb_write_byte]
    fails exactly when [rb_get_count = size - 1], which is when the next
    head position equals the tail; a failed write leaves the buffer, and so
    its storage and [head], as they were. *)
Theorem rb_capacity_invariant (rb0 : ringBuf) (ops : list rb_op) :
  head rb0 = 0 -> tail rb0 = 0 -> 1 < size rb0 < 2^32 ->
  let rb := rb_run ops rb0 in
  size rb = size rb0 /\
  rb_get_free rb + rb_get_count rb = size rb0 - 1 /\
  forall b,
    (fst (rb_write_byte rb b) = ESP_FAIL <-> rb_get_count rb = size rb0 - 1) /\
    (fst (rb_write_byte rb b) = ESP_FAIL <-> (head rb + 1) mod size rb = tail rb) /\
    (fst (rb_write_byte rb b) = ESP_FAIL -> snd (rb_write_byte rb b) = rb) /\
    (fst (rb_write_byte rb b) = ESP_FAIL \/ fst (rb_write_byte rb b) = ESP_OK).
Proof.
  intros Hh Ht Hs rb.
  assert (Hidx : rb_idx rb).
  { apply rb_run_idx. red. lia. }
  assert (Hsz : size rb = size rb0) by apply rb_run_size.
  split; [assumption|]. split.
  - rewrite rb_get_free_spec by assumption. lia.
  - intros b. rewrite <- Hsz. repeat split.
    + apply rb_write_byte_fail_iff; assumption.
    + apply rb_write_byte_fail_iff; assumption.
    + intros H. apply rb_full_next_head; [assumption|].
      apply rb_write_byte_fail_iff in H; assumption.
    + intros H. apply (rb_write_byte_fail_iff rb b Hidx).
      apply rb_full_next_head; assumption.
    + apply rb_write_byte_fail_same.
    + unfold rb_write_byte. cbn zeta. case_match; cbn; auto.
Qed.

Lemma rb_capacity_invariant_witness :
  let rb0 := mkRingBuf [0; 0; 0; 0] 0 0 4 0 false in
  let ops := [OpWrite 17; OpWrite 18; OpRead; OpWrite 19; OpWrite 20; OpWrite 21] in
  (head rb0 = 0 /\ tail rb0 = 0 /\ 1 < size rb0 < 2^32) /\
  rb_get_free (rb_run ops rb0) + rb_get_count (rb_run ops rb0) = 3 /\
  fst (rb_write_byte (rb_run ops rb0) 22) = ESP_FAIL.
Proof.
  intros rb0 ops.
  assert (H1 : head rb0 = 0) by reflexivity.
  assert (H2 : tail rb0 = 0) by reflexivity.
  assert (H3 : 1 < size rb0 < 2^32) by (cbn; lia).
  split; [auto|].
  destruct (rb_capacity_invariant rb0 ops H1 H2 H3) as (_ & Hsum & Hw).
  split; [exact Hsum|].
  apply (Hw 22). reflexivity.
Defined.

(** C10. A buffer made by [rb_create] starts with [head = tail = 0] and
    [size >= 1024], and after any sequence of [rb_write_byte],
    [rb_read_byte] and [rb_flush] calls both indices are below [size], the
    storage still has [size] cells, and so [buf[head]] and [buf[tail]] are
    cells of the storage. *)
Theorem rb_indices_in_bounds (size0 : Z) (heap : bool) (rb0 : ringBuf)
    (ops : list rb_op) :
  rb_create size0 heap = Some rb0 ->
  (head rb0 = 0 /\ tail rb0 = 0 /\ 1024 <= size rb0) /\
  let rb := rb_run ops rb0 in
  size rb = size rb0 /\
  0 <= head rb < size rb /\ 0 <= tail rb < size rb /\
  Z.of_nat (length (buf rb)) = size rb /\
  is_Some (buf rb !! Z.to_nat (head rb)) /\
  is_Some (buf rb !! Z.to_nat (tail rb)).
Proof.
  intros Hc. destruct (rb_create_ok _ _ _ Hc) as (Hok & Hh & Ht & Hs & _).
  split; [auto|]. intros rb.
  pose proof (rb_run_ok ops rb0 Hok) as [Hh' Ht' Hs' Hb'].
  fold rb in Hh', Ht', Hs', Hb'.
  repeat split; try lia.
  - apply rb_run_size.
  - apply lookup_lt_is_Some. lia.
  - apply lookup_lt_is_Some. lia.
Qed.

Lemma rb_indices_in_bounds_witness :
  exists rb0,
    rb_create 1024 true = Some rb0 /\
    let rb := rb_run [OpWrite 1; OpWrite 2; OpRead; OpFlush; OpWrite 3] rb0 in
    0 <= head rb < size rb /\ 0 <= tail rb < size rb.
Proof.
  eexists. split; [reflexivity|].
  pose proof (rb_indices_in_bounds 1024 true _
                [OpWrite 1; OpWrite 2; OpRead; OpFlush; OpWrite 3] eq_refl) as (_ & H).
  cbv zeta in H. destruct H as (_ & Hh & Ht & _). split; [exact Hh | exact Ht].
Defined.

(** ** Session control *)

(** C7 as stated fails: a parameter change while busy is answered with
    [ESP_ERR_INVALID_ARG], not with [ESP_ERR_INVALID_STATE]. *)
Lemma set_param_busy_is_invalid_arg :
  let h := handle (demo_session demo_rb 10 3 2 16 PWM_AUDIO_STATUS_BUSY) in
  status h = PWM_AUDIO_STATUS_BUSY /\
  fst (pwm_audio_set_param 44100 16 2 h) = ESP_ERR_INVALID_ARG /\
  fst (pwm_audio_set_param 44100 16 2 h) <> ESP_ERR_INVALID_STATE.
Proof. cbn. repeat split. discriminate. Qed.

(** C7, amended. While the session is busy [pwm_audio_set_param] returns
    [ESP_ERR_INVALID_ARG] and leaves the whole handle, so also [framerate],
    [bits_per_sample] and [channel_set_num], unchanged, and
    [pwm_audio_start] returns [ESP_ERR_INVALID_STATE]; starting an idle
    session makes it busy, so a second start right after it returns
    [ESP_ERR_INVALID_STATE] and changes nothing. *)
Theorem state_gating (h : pwm_audio_handle) (rate bits ch : Z)
    (r1 r2 : esp_err_t) :
  (status h = PWM_AUDIO_STATUS_BUSY ->
     pwm_audio_set_param rate bits ch h = (ESP_ERR_INVALID_ARG, h) /\
     pwm_audio_start r1 h = (ESP_ERR_INVALID_STATE, h)) /\
  (status h = PWM_AUDIO_STATUS_IDLE ->
     let h1 := snd (pwm_audio_start r1 h) in
     fst (pwm_audio_start r1 h) = r1 /\
     status h1 = PWM_AUDIO_STATUS_BUSY /\
     pwm_audio_start r2 h1 = (ESP_ERR_INVALID_STATE, h1)).
Proof.
  split; intros Hst.
  - unfold pwm_audio_set_param, pwm_audio_start. rewrite Hst. cbn. auto.
  - unfold pwm_audio_start. rewrite Hst. cbn. auto.
Qed.

Lemma state_gating_witness :
  let busy := handle (demo_session demo_rb 10 3 2 16 PWM_AUDIO_STATUS_BUSY) in
  let idle := handle (demo_session demo_rb 10 3 2 16 PWM_AUDIO_STATUS_IDLE) in
  (status busy = PWM_AUDIO_STATUS_BUSY /\
   pwm_audio_set_param 44100 16 2 busy = (ESP_ERR_INVALID_ARG, busy)) /\
  (status idle = PWM_AUDIO_STATUS_IDLE /\
   pwm_audio_start ESP_OK (snd (pwm_audio_start ESP_OK idle))
   = (ESP_ERR_INVALID_STATE, snd (pwm_audio_start ESP_OK idle))).
Proof.
  intros busy idle. split; (split; [reflexivity|]).
  - apply (proj1 (state_gating busy 44100 16 2 ESP_OK ESP_OK)). reflexivity.
  - apply (proj2 (state_gating idle 44100 16 2 ESP_OK ESP_OK)). reflexivity.
Defined.

(** ** The monad *)

Lemma bind_run {A B} (m : M A) (k : A -> M B) s :
  bind m k s =
  (result (k (result (m s)) (final (m s))),
   final (k (result (m s)) (final (m s))),
   events (m s) ++ events (k (result (m s)) (final (m s)))).
Proof.
  unfold bind, result, final, events.
  destruct (m s) as [[a s1] e1]. cbn.
  destruct (k a s1) as [[b s2] e2]. reflexivity.
Qed.

Lemma bind_events {A B} (m : M A) (k : A -> M B) s :
  events (bind m k s) = events (m s) ++ events (k (result (m s)) (final (m s))).
Proof. rewrite bind_run. reflexivity. Qed.

Lemma bind_final {A B} (m : M A) (k : A -> M B) s :
  final (bind m k s) = final (k (result (m s)) (final (m s))).
Proof. rewrite bind_run. reflexivity. Qed.

Lemma bind_result {A B} (m : M A) (k : A -> M B) s :
  result (bind m k s) = result (k (result (m s)) (final (m s))).
Proof. rewrite bind_run. reflexivity. Qed.

Lemma run_eta {A} (r : A * session * list event) :
  r = (result r, final r, events r).
Proof. destruct r as [[? ?] ?]. reflexivity. Qed.

Lemma bind_gets {A B} (f : session -> A) (k : A -> M B) s :
  bind (gets f) k s = k (f s) s.
Proof. unfold bind, gets. destruct (k (f s) s) as [[? ?] ?]. reflexivity. Qed.

Lemma bind_ret {A B} (a : A) (k : A -> M B) s : bind (ret a) k s = k a s.
Proof. unfold bind, ret. destruct (k a s) as [[? ?] ?]. reflexivity. Qed.

Lemma bind_assoc {A B C} (m : M A) (f : A -> M B) (g : B -> M C) s :
  bind (bind m f) g s = bind m (fun a => bind (f a) g) s.
Proof.
  unfold bind. destruct (m s) as [[a s1] e1].
  destruct (f a s1) as [[b s2] e2]. destruct (g b s2) as [[c s3] e3].
  rewrite app_assoc. reflexivity.
Qed.

Lemma bind_known {A B} (m : M A) (k : A -> M B) s a s1 e1 :
  m s = (a, s1, e1) -> bind m k s = prepend e1 (k a s1).
Proof.
  intros H. unfold bind, prepend, result, final, events. rewrite H.
  destruct (k a s1) as [[? ?] ?]. reflexivity.
Qed.

Lemma prepend_nil {A} (r : A * session * list event) : prepend [] r = r.
Proof. destruct r as [[? ?] ?]. reflexivity. Qed.

Lemma prepend_events {A} e (r : A * session * list event) :
  events (prepend e r) = e ++ events r.
Proof. reflexivity. Qed.

Lemma prepend_final {A} e (r : A * session * list event) :
  final (prepend e r) = final r.
Proof. reflexivity. Qed.

Lemma prepend_result {A} e (r : A * session * list event) :
  result (prepend e r) = result r.
Proof. reflexivity. Qed.

(** ** The interrupt handler *)

Lemma with_rb_same s : with_rb s (rb_of s) = s.
Proof. destruct s as [[] ? ? ? ? ?]. reflexivity. Qed.

Lemma read_wave_h_cases s :
  read_wave_h s =
  if tail (rb_of s) =? head (rb_of s) then (ESP_FAIL, s, [EvRead ESP_FAIL])
  else (ESP_OK, with_wave_h (with_rb s (rb_pop (rb_of s))) (rb_front (rb_of s)),
        [EvRead ESP_OK]).
Proof.
  unfold read_wave_h, rb_read_byte. cbn zeta.
  destruct (_ =? _); [|reflexivity].
  destruct s as [[] ? ? ? ? ?]. reflexivity.
Qed.

Lemma read_wave_l_cases s :
  read_wave_l s =
  if tail (rb_of s) =? head (rb_of s) then (ESP_FAIL, s, [EvRead ESP_FAIL])
  else (ESP_OK, with_wave_l (with_rb s (rb_pop (rb_of s))) (rb_front (rb_of s)),
        [EvRead ESP_OK]).
Proof.
  unfold read_wave_l, rb_read_byte. cbn zeta.
  destruct (_ =? _); [|reflexivity].
  destruct s as [[] ? ? ? ? ?]. reflexivity.
Qed.

Lemma bind_read_wave_h {B} (k : esp_err_t -> M B) s :
  bind read_wave_h k s =
  if tail (rb_of s) =? head (rb_of s) then prepend [EvRead ESP_FAIL] (k ESP_FAIL s)
  else prepend [EvRead ESP_OK]
         (k ESP_OK (with_wave_h (with_rb s (rb_pop (rb_of s))) (rb_front (rb_of s)))).
Proof.
  pose proof (read_wave_h_cases s) as H.
  destruct (_ =? _); apply bind_known; assumption.
Qed.

Lemma bind_read_wave_l {B} (k : esp_err_t -> M B) s :
  bind read_wave_l k s =
  if tail (rb_of s) =? head (rb_of s) then prepend [EvRead ESP_FAIL] (k ESP_FAIL s)
  else prepend [EvRead ESP_OK]
         (k ESP_OK (with_wave_l (with_rb s (rb_pop (rb_of s))) (rb_front (rb_of s)))).
Proof.
  pose proof (read_wave_l_cases s) as H.
  destruct (_ =? _); apply bind_known; assumption.
Qed.

Lemma bind_combine_value {B} (k : unit -> M B) s :
  bind combine_value k s =
  k tt (with_value s (u16 (Z.lor (Z.shiftl (wave_h s) 8) (wave_l s)))).
Proof. erewrite bind_known by reflexivity. apply prepend_nil. Qed.

Lemma bind_left_duty {B} v (k : unit -> M B) s :
  bind (ledc_set_left_duty_fast v) k s =
  prepend [EvLeftDuty v] (k tt (with_left s (ledc_set_duty_fast v (ledc_left s)))).
Proof. apply bind_known. reflexivity. Qed.

Lemma bind_right_duty {B} v (k : unit -> M B) s :
  bind (ledc_set_right_duty_fast v) k s =
  prepend [EvRightDuty v] (k tt (with_right s (ledc_set_duty_fast v (ledc_right s)))).
Proof. apply bind_known. reflexivity. Qed.

Lemma bind_if {A B} (c : bool) (m1 m2 : M A) (k : A -> M B) s :
  bind (if c then m1 else m2) k s = if c then bind m1 k s else bind m2 k s.
Proof. destruct c; reflexivity. Qed.

Lemma run_if {A} (c : bool) (m1 m2 : M A) s :
  (if c then m1 else m2) s = if c then m1 s else m2 s.
Proof. destruct c; reflexivity. Qed.

Lemma bind_unit_ret (m : M unit) s : bind m (fun _ => ret tt) s = m s.
Proof.
  unfold bind, ret. destruct (m s) as [[[] ?] ?]. rewrite app_nil_r. reflexivity.
Qed.

(** Symbolic execution of a handler run: push the state through the binds,
    splitting on every read. *)
Ltac msimpl :=
  cbn [handle channel_mask channel_set_num duty_resolution bits_per_sample
       framerate status ringbuf rb_of
       with_rb with_wave_h with_wave_l with_value with_left with_right
       with_channels set_ringbuf wave_h wave_l value ledc_left ledc_right
       esp_err_eqb negb andb].

Ltac msplit :=
  match goal with
  | |- context [if ?c then _ else _] =>
    first
      [ let v := eval hnf in c in
        match v with
        | true => change c with true
        | false => change c with false
        end
      | match goal with H : c = _ |- _ => rewrite H end
      | destruct c eqn:? ];
    cbv iota
  end.

Ltac mstep :=
  first
    [ rewrite bind_assoc
    | rewrite bind_gets
    | rewrite bind_ret
    | rewrite bind_combine_value
    | rewrite bind_left_duty
    | rewrite bind_right_duty
    | rewrite bind_read_wave_h
    | rewrite bind_read_wave_l ].

Ltac mrun := repeat (msimpl; first [msplit | mstep]).

Ltac mdone :=
  cbv [bind set_guard xSemaphoreGiveFromISR ret gets prepend events result final
       fst snd app].

Lemma reads_app a b : reads (a ++ b) = (reads a + reads b)%nat.
Proof.
  induction a as [|[] a IH]; cbn [reads app]; rewrite ?IH; reflexivity.
Qed.

(** *** Frame of the consumer *)

Lemma consumed_refl s : consumed s s.
Proof. split; try reflexivity. intros H. split; [assumption|lia]. Qed.

Lemma consumed_trans s1 s2 s3 : consumed s1 s2 -> consumed s2 s3 -> consumed s1 s3.
Proof.
  intros H12 H23. split;
    try (etransitivity; [apply H23|apply H12]).
  intros H. destruct (cons_idx _ _ H12 H) as [H2 Hf].
  destruct (cons_idx _ _ H23 H2) as [H3 Hf'].
  split; [assumption|lia].
Qed.

Lemma rb_pop_idx rb :
  rb_idx rb -> tail rb <> head rb ->
  rb_idx (rb_pop rb) /\ rb_get_free (rb_pop rb) = rb_get_free rb + 1.
Proof.
  intros H Hne.
  assert (H' : rb_idx (rb_pop rb)).
  { destruct H as (Hh & Ht & Hs). unfold rb_pop, rb_idx, u32. cbn.
    rewrite Z.mod_small by lia.
    destruct (Z.eqb_spec (tail rb + 1) (size rb)); lia. }
  split; [assumption|].
  rewrite !rb_get_free_spec, !rb_get_count_spec by assumption.
  destruct H as (Hh & Ht & Hs). unfold rb_pop, u32. cbn.
  rewrite Z.mod_small by lia.
  destruct (Z.eqb_spec (tail rb + 1) (size rb));
    destruct (Z.geb_spec (head rb) (tail rb));
    repeat match goal with |- context [?a >=? ?b] => destruct (Z.geb_spec a b) end;
    lia.
Qed.

Lemma consumed_pop s s' :
  tail (rb_of s) <> head (rb_of s) ->
  handle s' = set_ringbuf (handle s) (rb_pop (rb_of s)) ->
  consumed s s'.
Proof.
  intros Hne Hh. split; unfold rb_of in *; rewrite ?Hh; try reflexivity.
  cbn. intros H.
  destruct (rb_pop_idx _ H Hne) as [H1 H2]. split; [assumption|]. lia.
Qed.

Lemma consumed_same_handle s s' : handle s' = handle s -> consumed s s'.
Proof.
  intros Hh. split; unfold rb_of; rewrite ?Hh; try reflexivity.
  intros H. split; [assumption|lia].
Qed.

Lemma consumer_ret {A} (a : A) : consumer_run (ret a).
Proof. intros s. split; [apply consumed_refl|reflexivity]. Qed.

Lemma consumer_gets {A} (f : session -> A) : consumer_run (gets f).
Proof. intros s. split; [apply consumed_refl|reflexivity]. Qed.

Lemma consumer_bind {A B} (m : M A) (k : A -> M B) :
  consumer_run m -> (forall a, consumer_run (k a)) -> consumer_run (bind m k).
Proof.
  intros Hm Hk s. rewrite bind_final, bind_events.
  destruct (Hm s) as [H1 E1].
  destruct (Hk (result (m s)) (final (m s))) as [H2 E2].
  split; [eapply consumed_trans; eassumption|].
  rewrite forallb_app, E1, E2. reflexivity.
Qed.

Lemma consumer_if {A} (c : bool) (m1 m2 : M A) :
  consumer_run m1 -> consumer_run m2 -> consumer_run (if c then m1 else m2).
Proof. destruct c; auto. Qed.

Lemma consumer_read_wave_h : consumer_run read_wave_h.
Proof.
  intros s. rewrite read_wave_h_cases.
  destruct (Z.eqb_spec (tail (rb_of s)) (head (rb_of s))).
  - split; [apply consumed_refl|reflexivity].
  - split; [|reflexivity]. apply consumed_pop; [assumption|reflexivity].
Qed.

Lemma consumer_read_wave_l : consumer_run read_wave_l.
Proof.
  intros s. rewrite read_wave_l_cases.
  destruct (Z.eqb_spec (tail (rb_of s)) (head (rb_of s))).
  - split; [apply consumed_refl|reflexivity].
  - split; [|reflexivity]. apply consumed_pop; [assumption|reflexivity].
Qed.

Lemma consumer_combine_value : consumer_run combine_value.
Proof. intros s. split; [apply consumed_same_handle|]; reflexivity. Qed.

Lemma consumer_left_duty v : consumer_run (ledc_set_left_duty_fast v).
Proof. intros s. split; [apply consumed_same_handle|]; reflexivity. Qed.

Lemma consumer_right_duty v : consumer_run (ledc_set_right_duty_fast v).
Proof. intros s. split; [apply consumed_same_handle|]; reflexivity. Qed.

Create HintDb consumer.
#[export] Hint Resolve consumer_ret consumer_gets consumer_read_wave_h
  consumer_read_wave_l consumer_combine_value consumer_left_duty
  consumer_right_duty : consumer.

Ltac consumer_auto :=
  repeat first
    [ apply consumer_bind; [|intros ?]
    | apply consumer_if
    | solve [auto with consumer] ].

Lemma consumer_isr_left : consumer_run isr_left.
Proof. unfold isr_left. consumer_auto. Qed.

Lemma consumer_isr_right : consumer_run isr_right.
Proof. unfold isr_right. consumer_auto. Qed.

Lemma isr_signal_run s :
  isr_signal s =
  if (0 =? is_give (rb_of s)) && (rb_get_free (rb_of s) >? BUFFER_MIN_SIZE) then
    (tt, with_rb s (set_semaphore (set_is_give (rb_of s) 1) true), [EvGuard; EvGive])
  else (tt, s, []).
Proof.
  unfold isr_signal. rewrite bind_gets. destruct (_ && _); reflexivity.
Qed.

Lemma left_duties_app a b : left_duties (a ++ b) = left_duties a ++ left_duties b.
Proof.
  induction a as [|[] a IH]; cbn [left_duties app]; rewrite ?IH; reflexivity.
Qed.

Lemma right_duties_app a b : right_duties (a ++ b) = right_duties a ++ right_duties b.
Proof.
  induction a as [|[] a IH]; cbn [right_duties app]; rewrite ?IH; reflexivity.
Qed.

Lemma isr_body_events s :
  events (isr_body s) =
  events (isr_left s) ++ events (isr_right (final (isr_left s)))
  ++ events (isr_signal (final (isr_right (final (isr_left s))))).
Proof.
  unfold isr_body. rewrite bind_events, bind_events. reflexivity.
Qed.

Lemma isr_body_final s :
  final (isr_body s) = final (isr_signal (final (isr_right (final (isr_left s))))).
Proof. unfold isr_body. rewrite bind_final, bind_final. reflexivity. Qed.

Lemma isr_signal_events_quiet s :
  left_duties (events (isr_signal s)) = [] /\
  right_duties (events (isr_signal s)) = [] /\
  reads (events (isr_signal s)) = 0%nat.
Proof. rewrite isr_signal_run. destruct (_ && _); auto. Qed.

(** The left path delivers at most one value, the one it leaves in the
    static it read into; it never writes the right output. *)
Lemma isr_left_duty s :
  let r := isr_left s in
  (left_duties (events r) = [] \/
   left_duties (events r)
   = [if duty_resolution (handle s) >? 8 then value (final r) else wave_h (final r)]) /\
  right_duties (events r) = [].
Proof.
  cbv zeta. unfold isr_left. mrun; mdone; cbn [left_duties right_duties]; auto.
Qed.

Lemma isr_right_mono s :
  Z.land (channel_mask (handle s)) CHANNEL_RIGHT_MASK <> 0 ->
  channel_set_num (handle s) = 1 ->
  let v := if duty_resolution (handle s) >? 8 then value s else wave_h s in
  isr_right s = (tt, with_right s (ledc_set_duty_fast v (ledc_right s)), [EvRightDuty v]).
Proof.
  intros Hr Hn. apply Z.eqb_neq in Hr. apply Z.eqb_eq in Hn.
  cbv zeta. unfold isr_right. rewrite bind_gets, Hr, Hn. cbn [negb].
  destruct (_ >? _); rewrite bind_gets; reflexivity.
Qed.

(** *** Reads of one handler run *)

(** C2. With a stereo source and the right output disabled the handler
    reads one byte more than with the right output enabled: the drain
    branch issues 3 reads (2 when [duty_resolution <= 8]) where the enabled
    right channel issues 2 (1).  On a buffer holding eight bytes the tail
    ends at 5 instead of 4. *)
Theorem isr_drain_reads_one_more (s : session) (duty : Z) :
  reads (events (isr_right (with_channels s duty 1 2)))
    = (if duty >? 8 then 3 else 2)%nat /\
  reads (events (isr_right (with_channels s duty 3 2)))
    = (if duty >? 8 then 2 else 1)%nat /\
  right_duties (events (isr_right (with_channels s duty 1 2))) = [] /\
  (let full := demo_rb_with [1; 2; 3; 4; 5; 6; 7; 8] in
   let one := demo_session full 10 1 2 16 PWM_AUDIO_STATUS_BUSY in
   let both := demo_session full 10 3 2 16 PWM_AUDIO_STATUS_BUSY in
   tail (rb_of (final (isr_body one))) = 5 /\
   tail (rb_of (final (isr_body both))) = 4 /\
   reads (events (isr_body one)) = 5%nat /\
   reads (events (isr_body both)) = 4%nat).
Proof.
  split; [|split; [|split]].
  - unfold isr_right. mrun; mdone; reflexivity.
  - unfold isr_right. mrun; mdone; reflexivity.
  - unfold isr_right. mrun; mdone; reflexivity.
  - vm_compute. repeat split.
Qed.

(** *** Mono source on two outputs *)

(** C6 as stated fails on an empty buffer: the left output receives
    nothing in that invocation, the right output is still written (with
    the retained static). *)
Lemma mono_upmix_underrun :
  let s := demo_session demo_rb 10 3 1 16 PWM_AUDIO_STATUS_BUSY in
  left_duties (events (isr_body s)) = [] /\
  right_duties (events (isr_body s)) = [0] /\
  right_duties (events (isr_body s)) <> left_duties (events (isr_body s)).
Proof. vm_compute. repeat split. discriminate. Qed.

(** C6, amended. With a mono source and both outputs enabled: in every
    invocation in which the left output receives a duty value, the right
    output receives that same value; the right output is written once in
    any case, with the static the left path leaves behind ([value], or
    [wave_h] at resolutions up to 8); and the right-channel path reads
    nothing from the ring buffer, which it leaves as the left path left
    it. *)
Theorem mono_upmix_same_duty (s : session) :
  Z.land (channel_mask (handle s)) CHANNEL_LEFT_MASK <> 0 ->
  Z.land (channel_mask (handle s)) CHANNEL_RIGHT_MASK <> 0 ->
  channel_set_num (handle s) = 1 ->
  let s1 := final (isr_left s) in
  let tr := events (isr_body s) in
  (forall v, In v (left_duties tr) -> right_duties tr = [v]) /\
  (left_duties tr = [] \/ exists v, left_duties tr = [v]) /\
  right_duties tr = [if duty_resolution (handle s) >? 8 then value s1 else wave_h s1] /\
  reads (events (isr_right s1)) = 0%nat /\
  rb_of (final (isr_right s1)) = rb_of s1 /\
  reads tr = reads (events (isr_left s)).
Proof.
  intros Hl Hr Hn s1 tr.
  destruct (consumer_isr_left s) as [Hc _]. fold s1 in Hc.
  assert (Hr1 : Z.land (channel_mask (handle s1)) CHANNEL_RIGHT_MASK <> 0)
    by (rewrite (cons_mask _ _ Hc); assumption).
  assert (Hn1 : channel_set_num (handle s1) = 1)
    by (rewrite (cons_num _ _ Hc); assumption).
  pose proof (isr_right_mono s1 Hr1 Hn1) as Hright. cbv zeta in Hright.
  rewrite (cons_duty _ _ Hc) in Hright.
  destruct (isr_left_duty s) as [Hleft Hlr]. fold s1 in Hleft.
  destruct (isr_signal_events_quiet (final (isr_right s1))) as (Hs1 & Hs2 & Hs3).
  assert (Htr_l : left_duties tr = left_duties (events (isr_left s))).
  { unfold tr. rewrite isr_body_events. fold s1.
    rewrite !left_duties_app, Hs1, Hright. cbn. rewrite app_nil_r. reflexivity. }
  assert (Htr_r : right_duties tr
                  = [if duty_resolution (handle s) >? 8 then value s1 else wave_h s1]).
  { unfold tr. rewrite isr_body_events. fold s1.
    rewrite !right_duties_app, Hs2, Hlr, Hright. reflexivity. }
  split; [|split; [|split; [|split; [|split]]]].
  - intros v Hv. rewrite Htr_r. rewrite Htr_l in Hv.
    destruct Hleft as [E|E]; rewrite E in Hv; [destruct Hv|].
    destruct Hv as [<-|[]]. reflexivity.
  - rewrite Htr_l. destruct Hleft as [E|E]; rewrite E; eauto.
  - exact Htr_r.
  - rewrite Hright. reflexivity.
  - rewrite Hright. reflexivity.
  - unfold tr. rewrite isr_body_events. fold s1.
    rewrite !reads_app, Hs3, Hright. cbn. lia.
Qed.

Lemma mono_upmix_same_duty_witness :
  let s := demo_session (demo_rb_with [0x34; 0x02; 7; 7]) 10 3 1 16 PWM_AUDIO_STATUS_BUSY in
  (Z.land (channel_mask (handle s)) CHANNEL_LEFT_MASK <> 0 /\
   Z.land (channel_mask (handle s)) CHANNEL_RIGHT_MASK <> 0 /\
   channel_set_num (handle s) = 1) /\
  In 0x234 (left_duties (events (isr_body s))) /\
  right_duties (events (isr_body s)) = [0x234].
Proof.
  intros s.
  assert (H1 : Z.land (channel_mask (handle s)) CHANNEL_LEFT_MASK <> 0) by (vm_compute; discriminate).
  assert (H2 : Z.land (channel_mask (handle s)) CHANNEL_RIGHT_MASK <> 0) by (vm_compute; discriminate).
  assert (H3 : channel_set_num (handle s) = 1) by reflexivity.
  assert (H4 : In 0x234 (left_duties (events (isr_body s)))) by (vm_compute; auto).
  split; [auto|]. split; [exact H4|].
  exact (proj1 (mono_upmix_same_duty s H1 H2 H3) 0x234 H4).
Defined.

(** ** Backpressure signalling *)

Lemma consumer_channels : consumer_run (isr_left >> isr_right).
Proof.
  apply consumer_bind; [apply consumer_isr_left|intros _; apply consumer_isr_right].
Qed.

Lemma isr_body_split s :
  isr_body s = prepend (events ((isr_left >> isr_right) s))
                       (isr_signal (final ((isr_left >> isr_right) s))).
Proof.
  unfold isr_body.
  rewrite <- (bind_assoc isr_left (fun _ => isr_right) (fun _ => isr_signal)).
  exact (bind_known _ (fun _ => isr_signal) _ _ _ _ (run_eta _)).
Qed.

Lemma wakes_guarded_consumer p pre tr :
  forallb is_consumer pre = true ->
  wakes_guarded p (pre ++ tr) = wakes_guarded p tr.
Proof.
  induction pre as [|e pre IH]; cbn [forallb app]; [reflexivity|].
  intros H. apply andb_true_iff in H as [He Hp].
  destruct e; try discriminate; cbn [wakes_guarded]; auto.
Qed.

Lemma waits_armed_consumer a pre tr :
  forallb is_consumer pre = true ->
  waits_armed a (pre ++ tr) = waits_armed a tr.
Proof.
  induction pre as [|e pre IH]; cbn [forallb app]; [reflexivity|].
  intros H. apply andb_true_iff in H as [He Hp].
  destruct e; try discriminate; cbn [waits_armed]; auto.
Qed.

(** One handler run, seen from the guard. *)
Lemma isr_body_wake s :
  let s2 := final ((isr_left >> isr_right) s) in
  let wake := (0 =? is_give (rb_of s2)) && (rb_get_free (rb_of s2) >? BUFFER_MIN_SIZE) in
  is_give (rb_of s2) = is_give (rb_of s) /\
  forallb is_consumer (events ((isr_left >> isr_right) s)) = true /\
  events (isr_body s)
  = events ((isr_left >> isr_right) s) ++ (if wake then [EvGuard; EvGive] else []) /\
  is_give (rb_of (final (isr_body s))) = (if wake then 1 else is_give (rb_of s)) /\
  semaphore_rb (rb_of (final (isr_body s)))
  = (if wake then true else semaphore_rb (rb_of s)).
Proof.
  intros s2 wake. destruct (consumer_channels s) as [Hc He]. fold s2 in Hc.
  rewrite isr_body_split. fold s2. rewrite prepend_events, prepend_final.
  rewrite isr_signal_run. fold wake.
  split; [apply Hc|]. split; [exact He|].
  destruct wake; cbn; repeat split; auto; apply Hc.
Qed.

Lemma take0_run s :
  is_give (rb_of (final (xSemaphoreTake 0 s))) = is_give (rb_of s) /\
  events (xSemaphoreTake 0 s) = [EvTake (semaphore_rb (rb_of s))].
Proof.
  cbn [xSemaphoreTake]. destruct (semaphore_rb (rb_of s)); split; reflexivity.
Qed.

Lemma rb_write_guard b s :
  is_give (rb_of (final (rb_write b s))) = is_give (rb_of s) /\
  exists r, events (rb_write b s) = [EvWrite r].
Proof.
  unfold rb_write, rb_write_byte. cbn zeta.
  destruct (_ =? tail _); cbn; eauto.
Qed.

Lemma sys_exec_guarded c tr c' :
  sys_exec c tr c' ->
  forall p, (p = true -> is_give (rb_of (fst c)) <> 0) ->
  wakes_guarded p tr = true.
Proof.
  induction 1 as [c|c1 e c2 tr c3 Hstep Hexec IH]; intros p Hp; [reflexivity|].
  destruct Hstep as [s pc|s|s Hsem|s Hsem|s b]; cbn [fst] in *.
  - destruct (isr_body_wake s) as (Hg & Hcons & Hev & Hgive & _).
    cbv zeta in *. rewrite Hev, <- app_assoc.
    rewrite wakes_guarded_consumer by assumption.
    destruct (_ && _) eqn:Hw.
    + apply andb_true_iff in Hw as [Hw _]. apply Z.eqb_eq in Hw.
      destruct p; [exfalso; apply Hp; [reflexivity|congruence]|].
      cbn. apply IH. intros _. rewrite Hgive. discriminate.
    + cbn. apply IH. rewrite Hgive. exact Hp.
  - cbn. apply IH. discriminate.
  - destruct (take0_run s) as [Hg ->]. cbn. apply IH. rewrite Hg. exact Hp.
  - destruct (take0_run s) as [Hg ->]. cbn. apply IH. rewrite Hg. exact Hp.
  - destruct (rb_write_guard b s) as [Hg [r ->]]. cbn. apply IH. rewrite Hg. exact Hp.
Qed.

Lemma sys_exec_armed c tr c' :
  sys_exec c tr c' -> waits_armed (pc_armed (snd c)) tr = true.
Proof.
  induction 1 as [c|c1 e c2 tr c3 Hstep Hexec IH]; [reflexivity|].
  destruct Hstep as [s pc|s|s Hsem|s Hsem|s b]; cbn [snd pc_armed] in *.
  - destruct (isr_body_wake s) as (_ & Hcons & Hev & _).
    cbv zeta in *. rewrite Hev, <- app_assoc.
    rewrite waits_armed_consumer by assumption.
    destruct (_ && _); cbn; assumption.
  - cbn. assumption.
  - destruct (take0_run s) as [_ ->]. cbn. assumption.
  - destruct (take0_run s) as [_ ->]. cbn. assumption.
  - destruct (rb_write_guard b s) as [_ [r ->]]. cbn. assumption.
Qed.

Lemma rb_wait_semaphore_run ticks s :
  rb_wait_semaphore ticks s =
  prepend [EvArm]
    (let r := xSemaphoreTake ticks (with_rb s (set_is_give (rb_of s) 0)) in
     (if result r then ESP_OK else ESP_FAIL, final r, events r)).
Proof.
  unfold rb_wait_semaphore. erewrite bind_known by reflexivity. f_equal.
  cbv zeta. unfold bind.
  destruct (xSemaphoreTake ticks _) as [[[] ?] ?]; cbn; rewrite app_nil_r; reflexivity.
Qed.

(** C8. The handler wakes the producer only when [is_give] is 0 and more
    than [BUFFER_MIN_SIZE] bytes are free, and sets [is_give] to 1 right
    before the give; the waiter clears [is_give] as the first thing of every
    wait; and in every execution of the system no give follows another
    without the waiter having cleared the guard in between, and every wait
    result is preceded by such a clearing. *)
Theorem single_wake_per_guard_cycle :
  (forall s,
     let s2 := final ((isr_left >> isr_right) s) in
     let wake := (0 =? is_give (rb_of s2)) && (rb_get_free (rb_of s2) >? BUFFER_MIN_SIZE) in
     is_give (rb_of s2) = is_give (rb_of s) /\
     forallb is_consumer (events ((isr_left >> isr_right) s)) = true /\
     events (isr_body s)
     = events ((isr_left >> isr_right) s) ++ (if wake then [EvGuard; EvGive] else []) /\
     is_give (rb_of (final (isr_body s))) = (if wake then 1 else is_give (rb_of s)) /\
     semaphore_rb (rb_of (final (isr_body s)))
     = (if wake then true else semaphore_rb (rb_of s))) /\
  (forall ticks s,
     let armed := with_rb s (set_is_give (rb_of s) 0) in
     is_give (rb_of armed) = 0 /\
     events (rb_wait_semaphore ticks s) = EvArm :: events (xSemaphoreTake ticks armed) /\
     final (rb_wait_semaphore ticks s) = final (xSemaphoreTake ticks armed)) /\
  (forall c tr c',
     sys_exec c tr c' ->
     wakes_guarded (negb (is_give (rb_of (fst c)) =? 0)) tr = true /\
     waits_armed (pc_armed (snd c)) tr = true).
Proof.
  split; [exact isr_body_wake|]. split.
  - intros ticks s armed. rewrite rb_wait_semaphore_run. fold armed.
    repeat split.
  - intros c tr c' H. split.
    + apply (sys_exec_guarded _ _ _ H).
      intros Hp. apply negb_true_iff, Z.eqb_neq in Hp. assumption.
    + apply (sys_exec_armed _ _ _ H).
Qed.

Lemma single_wake_per_guard_cycle_witness :
  exists tr c',
    sys_exec demo_exec_start tr c' /\
    tr = [EvArm; EvRead ESP_FAIL; EvRead ESP_FAIL; EvRead ESP_FAIL; EvRead ESP_FAIL;
          EvGuard; EvGive; EvTake true; EvWrite ESP_OK;
          EvRead ESP_OK; EvRead ESP_FAIL; EvRead ESP_FAIL; EvRead ESP_FAIL] /\
    wakes_guarded false tr = true.
Proof.
  set (s0 := fst demo_exec_start).
  set (s1 := final (arm s0)).
  set (s2 := final (isr_body s1)).
  set (s3 := final (xSemaphoreTake 0 s2)).
  set (s4 := final (rb_write 5 s3)).
  set (s5 := final (isr_body s4)).
  assert (H : sys_exec demo_exec_start
                (events (arm s0) ++ events (isr_body s1) ++ events (xSemaphoreTake 0 s2)
                 ++ events (rb_write 5 s3) ++ events (isr_body s4) ++ [])
                (s5, Running)).
  { apply (exec_step _ _ (s1, Armed)); [apply step_arm|].
    apply (exec_step _ _ (s2, Armed)); [apply step_isr|].
    apply (exec_step _ _ (s3, Running)); [apply step_take; reflexivity|].
    apply (exec_step _ _ (s4, Running)); [apply step_write|].
    apply (exec_step _ _ (s5, Running)); [apply step_isr|].
    apply exec_done. }
  eexists _, _. split; [exact H|]. split; [vm_compute; reflexivity|].
  exact (proj1 (proj2 (proj2 single_wake_per_guard_cycle) _ _ _ H)).
Defined.

(** ** The ring buffer as a queue *)

Lemma mod_wrap a n :
  0 <= a < 2 * n -> a mod n = if a <? n then a else a - n.
Proof.
  intros H. destruct (Z.ltb_spec a n).
  - apply Z.mod_small. lia.
  - symmetry. apply (Z.mod_unique a n 1 (a - n)); lia.
Qed.

Lemma rb_head_position rb :
  rb_idx rb -> (tail rb + rb_get_count rb) mod size rb = head rb.
Proof.
  intros H. rewrite rb_get_count_spec by assumption.
  destruct H as (Hh & Ht & Hs). rewrite mod_wrap.
  - destruct (Z.geb_spec (head rb) (tail rb));
      repeat match goal with |- context [?a <? ?b] => destruct (Z.ltb_spec a b) end; lia.
  - destruct (Z.geb_spec (head rb) (tail rb)); lia.
Qed.

Lemma rb_cell_before_head rb (i : nat) :
  rb_idx rb -> Z.of_nat i < rb_get_count rb ->
  (tail rb + Z.of_nat i) mod size rb <> head rb.
Proof.
  intros H Hi. rewrite rb_get_count_spec in Hi by assumption.
  destruct H as (Hh & Ht & Hs).
  destruct (Z.geb_spec (head rb) (tail rb)).
  - rewrite Z.mod_small by lia. lia.
  - rewrite mod_wrap by lia.
    destruct (Z.ltb_spec (tail rb + Z.of_nat i) (size rb)); lia.
Qed.

Lemma rb_write_byte_pushed rb b :
  rb_ok rb -> 1 <= rb_get_free rb ->
  fst (rb_write_byte rb b) = ESP_OK /\
  pushed rb [u8 b] (snd (rb_write_byte rb b)).
Proof.
  intros Hok Hfree. pose proof (rb_ok_idx _ Hok) as Hidx.
  pose proof (rb_get_count_range _ Hidx) as Hcr.
  pose proof (rb_get_free_spec _ Hidx) as Hfs.
  pose proof (rb_write_byte_idx rb b Hidx) as Hidx'.
  pose proof (rb_head_position _ Hidx) as Hpos.
  assert (Hnf : fst (rb_write_byte rb b) <> ESP_FAIL).
  { rewrite rb_write_byte_fail_iff by assumption. lia. }
  destruct Hok as [Hh Ht Hs Hb].
  unfold rb_write_byte in *. cbn zeta in *.
  set (nh := if u32 (head rb + 1) =? size rb then 0 else u32 (head rb + 1)) in *.
  assert (Hnh : nh = (head rb + 1) mod size rb).
  { unfold nh, u32. rewrite (Z.mod_small (head rb + 1) (2^32)) by lia.
    destruct (Z.eqb_spec (head rb + 1) (size rb)) as [E|E].
    - rewrite E, Z.mod_same by lia. reflexivity.
    - rewrite Z.mod_small by lia. reflexivity. }
  destruct (nh =? tail rb) eqn:E; [exfalso; apply Hnf; reflexivity|].
  split; [reflexivity|]. cbn [snd fst] in *.
  set (rb' := set_head rb _ nh) in *.
  assert (Hc' : rb_get_count rb' = rb_get_count rb + 1).
  { rewrite !rb_get_count_spec by assumption. cbn [rb' set_head head tail size].
    apply Z.eqb_neq in E. rewrite Hnh in *.
    destruct (Z.eq_dec (head rb + 1) (size rb)) as [E1|E1].
    - rewrite E1, Z.mod_same in * by lia.
      repeat match goal with |- context [?a >=? ?b] => destruct (Z.geb_spec a b) end; lia.
    - rewrite Z.mod_small in * by lia.
      repeat match goal with |- context [?a >=? ?b] => destruct (Z.geb_spec a b) end; lia. }
  split; try reflexivity.
  - split; cbn [rb' set_head head tail size buf]; try tauto.
    + apply Hidx'.
    + rewrite length_insert. assumption.
  - rewrite !rb_get_free_spec by assumption. rewrite Hc'. cbn. lia.
  - unfold rb_contents. rewrite Hc'.
    replace (Z.to_nat (rb_get_count rb + 1)) with (Z.to_nat (rb_get_count rb) + 1)%nat by lia.
    rewrite seq_app, map_app. cbn [seq map]. f_equal.
    + apply map_ext_in. intros i Hi. apply in_seq in Hi.
      unfold rb_cell. cbn [rb' set_head tail size buf].
      rewrite list_lookup_insert_ne; [reflexivity|].
      pose proof (rb_cell_before_head rb i Hidx ltac:(lia)).
      pose proof (Z.mod_pos_bound (tail rb + Z.of_nat i) (size rb) ltac:(lia)). lia.
    + unfold rb_cell. cbn [rb' set_head tail size buf].
      rewrite Nat.add_0_l, Z2Nat.id by lia. rewrite Hpos.
      rewrite list_lookup_insert_eq by lia. cbn.
      unfold u8. rewrite Z.mod_mod by lia. reflexivity.
Qed.

Lemma rb_pop_contents rb :
  rb_ok rb -> tail rb <> head rb ->
  rb_ok (rb_pop rb) /\ rb_contents rb = rb_front rb :: rb_contents (rb_pop rb).
Proof.
  intros Hok Hne. pose proof (rb_ok_idx _ Hok) as Hidx.
  destruct (rb_pop_idx rb Hidx Hne) as [Hidx' Hfree].
  pose proof (rb_get_count_range _ Hidx) as Hcr.
  pose proof (rb_get_count_range _ Hidx') as Hcr'.
  assert (Hc : rb_get_count rb = rb_get_count (rb_pop rb) + 1).
  { rewrite !rb_get_free_spec in Hfree by assumption.
    change (size (rb_pop rb)) with (size rb) in Hfree. lia. }
  destruct Hok as [Hh Ht Hs Hb].
  split.
  - split; try apply Hidx'. exact Hb.
  - unfold rb_contents at 1. rewrite Hc.
    replace (Z.to_nat (rb_get_count (rb_pop rb) + 1))
      with (S (Z.to_nat (rb_get_count (rb_pop rb)))) by lia.
    cbn [seq map]. f_equal.
    + unfold rb_cell, rb_front. rewrite Z.add_0_r, Z.mod_small by lia. reflexivity.
    + unfold rb_contents. rewrite <- seq_shift, map_map.
      apply map_ext. intros i. unfold rb_cell.
      change (size (rb_pop rb)) with (size rb). change (buf (rb_pop rb)) with (buf rb).
      do 3 f_equal.
      assert (Ht' : tail (rb_pop rb) = (tail rb + 1) mod size rb).
      { unfold rb_pop, u32. cbn. rewrite (Z.mod_small (tail rb + 1) (2^32)) by lia.
        destruct (Z.eqb_spec (tail rb + 1) (size rb)) as [E|E].
        - rewrite E, Z.mod_same by lia. reflexivity.
        - rewrite Z.mod_small by lia. reflexivity. }
      rewrite Ht', Zplus_mod_idemp_l.
      apply (f_equal (fun x => Z.to_nat (x mod size rb))). lia.
Qed.

(** ** The producer's conversion loop *)

Lemma pushed_nil rb : rb_ok rb -> pushed rb [] rb.
Proof.
  intros H. split; try reflexivity; try assumption.
  - cbn. lia.
  - rewrite app_nil_r. reflexivity.
Qed.

Lemma pushed_app rb a rb1 b rb2 :
  pushed rb a rb1 -> pushed rb1 b rb2 -> pushed rb (a ++ b) rb2.
Proof.
  intros H1 H2. split.
  - apply H2.
  - rewrite (push_tail _ _ _ H2). apply H1.
  - rewrite (push_size _ _ _ H2). apply H1.
  - rewrite (push_give _ _ _ H2). apply H1.
  - rewrite (push_sem _ _ _ H2). apply H1.
  - rewrite (push_free _ _ _ H2), (push_free _ _ _ H1), length_app. lia.
  - rewrite (push_contents _ _ _ H2), (push_contents _ _ _ H1), app_assoc. reflexivity.
Qed.

Lemma writes_ret : writes (ret tt) [].
Proof.
  intros s Hok _. exists (rb_of s). rewrite with_rb_same.
  split; [reflexivity|apply pushed_nil; assumption].
Qed.

Lemma writes_rb_write v : writes (rb_write v) [u8 v].
Proof.
  intros s Hok Hfree. cbn in Hfree.
  destruct (rb_write_byte_pushed (rb_of s) v Hok ltac:(lia)) as [Hr Hp].
  exists (snd (rb_write_byte (rb_of s) v)). split; [|assumption].
  unfold rb_write. destruct (rb_write_byte (rb_of s) v) as [r rb'].
  cbn in Hr. subst r. reflexivity.
Qed.

Lemma writes_seq m1 m2 b1 b2 :
  writes m1 b1 -> writes m2 b2 -> writes (m1 >> m2) (b1 ++ b2).
Proof.
  intros H1 H2 s Hok Hfree. rewrite length_app in Hfree.
  destruct (H1 s Hok ltac:(lia)) as (rb1 & E1 & P1).
  destruct (H2 (with_rb s rb1) (push_ok _ _ _ P1)) as (rb2 & E2 & P2).
  { change (rb_of (with_rb s rb1)) with rb1. rewrite (push_free _ _ _ P1). lia. }
  exists rb2. split.
  - rewrite (bind_known _ _ _ _ _ _ E1), E2, map_app. reflexivity.
  - eapply pushed_app; eassumption.
Qed.

Lemma writes_for_loop body f :
  (forall i, writes (body i) (f i)) ->
  forall n i, writes (for_loop n i body) (loop_out n i f).
Proof.
  intros Hb. induction n as [|n IH]; intros i; cbn [for_loop loop_out].
  - apply writes_ret.
  - apply writes_seq; [apply Hb|apply IH].
Qed.

Lemma loop_out_length f k :
  (forall i, length (f i) = k) ->
  forall n i, length (loop_out n i f) = (n * k)%nat.
Proof.
  intros Hf. induction n as [|n IH]; intros i; cbn [loop_out]; [reflexivity|].
  rewrite length_app, Hf, IH. lia.
Qed.

Lemma map_const_replicate {A B} (b : B) (l : list A) :
  map (fun _ => b) l = replicate (length l) b.
Proof. induction l as [|a l IH]; cbn; [|rewrite IH]; reflexivity. Qed.

Lemma writes_then_ret m bs (v : Z) s :
  writes m bs -> rb_ok (rb_of s) -> Z.of_nat (length bs) <= rb_get_free (rb_of s) ->
  exists rb',
    (m >> ret v) s = (v, with_rb s rb', map (fun _ => EvWrite ESP_OK) bs) /\
    pushed (rb_of s) bs rb'.
Proof.
  intros Hw Hok Hfree. destruct (Hw s Hok Hfree) as (rb' & E & P).
  exists rb'. split; [|assumption].
  rewrite (bind_known _ _ _ _ _ _ E). unfold prepend, ret, result, final, events.
  cbn [fst snd]. rewrite app_nil_r. reflexivity.
Qed.

Lemma convert_run s inbuf bytes_can_write :
  rb_ok (rb_of s) ->
  Z.of_nat (length (convert_out (handle s) inbuf bytes_can_write))
    <= rb_get_free (rb_of s) ->
  exists rb',
    convert inbuf bytes_can_write s =
      (convert_result (handle s) bytes_can_write, with_rb s rb',
       map (fun _ => EvWrite ESP_OK) (convert_out (handle s) inbuf bytes_can_write)) /\
    pushed (rb_of s) (convert_out (handle s) inbuf bytes_can_write) rb'.
Proof.
  intros Hok. unfold convert, convert_out, convert_result, expanding.
  rewrite bind_gets. cbv zeta.
  destruct (bits_per_sample (handle s) =? 8); cbn [andb].
  { destruct (_ <? 0); intros Hfree;
      (apply writes_then_ret; [|assumption|assumption]);
      apply writes_for_loop; intros i.
    - unfold body8_expand. cbv zeta. apply writes_seq; apply writes_rb_write.
    - unfold body8. apply writes_rb_write. }
  destruct (bits_per_sample (handle s) =? 16).
  { destruct (_ >? 8); intros Hfree;
      (apply writes_then_ret; [|assumption|assumption]);
      apply writes_for_loop; intros i.
    - unfold body16_wide. cbv zeta. apply writes_seq; apply writes_rb_write.
    - unfold body16. apply writes_rb_write. }
  destruct (bits_per_sample (handle s) =? 32).
  { destruct (_ >? 8); intros Hfree;
      (apply writes_then_ret; [|assumption|assumption]);
      apply writes_for_loop; intros i.
    - unfold body32_wide. cbv zeta. apply writes_seq; apply writes_rb_write.
    - unfold body32. apply writes_rb_write. }
  intros _. exists (rb_of s). rewrite with_rb_same.
  split; [reflexivity|apply pushed_nil; assumption].
Qed.

Lemma land_align x : 0 <= x < 2^32 -> Z.land x 0xfffffffc = 4 * (x / 4).
Proof.
  intros Hx.
  replace (4 * (x / 4)) with (Z.shiftl (Z.shiftr x 2) 2)
    by (rewrite Z.shiftl_mul_pow2, Z.shiftr_div_pow2 by lia; change (2^2) with 4; lia).
  change 0xfffffffc with (Z.shiftl (Z.ones 30) 2).
  apply Z.bits_inj'. intros n Hn.
  rewrite Z.land_spec, !Z.shiftl_spec by lia.
  destruct (Z.ltb_spec n 2) as [H2|H2].
  - rewrite (Z.testbit_neg_r _ (n - 2)) by lia. rewrite andb_false_r.
    rewrite Z.testbit_neg_r by lia. reflexivity.
  - rewrite Z.shiftr_spec by lia. replace (n - 2 + 2) with n by lia.
    destruct (Z.ltb_spec n 32) as [H32|H32].
    + rewrite Z.ones_spec_low by lia. apply andb_true_r.
    + rewrite Z.ones_spec_high by lia. rewrite andb_false_r.
      symmetry.
      destruct (Z.eq_dec x 0) as [->|Hne]; [apply Z.testbit_0_l|].
      apply Z.bits_above_log2; [lia|].
      assert (Z.log2 x < 32) by (apply Z.log2_lt_pow2; lia). lia.
Qed.

Lemma round_size_spec n free :
  0 <= n < 2^32 -> 0 <= free < 2^32 ->
  round_size n free = 4 * (Z.min n free / 4).
Proof.
  intros Hn Hf. unfold round_size. cbv zeta.
  destruct (Z.gtb_spec n free).
  - rewrite land_align by lia. rewrite Z.min_r by lia. reflexivity.
  - rewrite land_align by lia. rewrite Z.min_l by lia. reflexivity.
Qed.

Lemma shiftr1_4 q : Z.shiftr (4 * q) 1 = 2 * q.
Proof.
  rewrite Z.shiftr_div_pow2 by lia. change (2^1) with 2.
  replace (4 * q) with (2 * q * 2) by lia. apply Z.div_mul. lia.
Qed.

Lemma shiftr2_4 q : Z.shiftr (4 * q) 2 = q.
Proof.
  rewrite Z.shiftr_div_pow2 by lia. change (2^2) with 4.
  replace (4 * q) with (q * 4) by lia. apply Z.div_mul. lia.
Qed.

Lemma convert_out_length h inbuf q :
  0 <= q ->
  Z.of_nat (length (convert_out h inbuf (4 * q)))
  = if expanding h then 4 * q else stored h (4 * q).
Proof.
  intros Hq. unfold convert_out, expanding, stored. cbv zeta.
  rewrite !shiftr1_4, !shiftr2_4.
  destruct (bits_per_sample h =? 8); cbn [andb].
  { destruct (_ <? 0).
    - rewrite (loop_out_length _ 2) by reflexivity. lia.
    - rewrite (loop_out_length _ 1) by reflexivity. lia. }
  destruct (bits_per_sample h =? 16).
  { destruct (_ >? 8).
    - rewrite (loop_out_length _ 2) by reflexivity. lia.
    - rewrite (loop_out_length _ 1) by reflexivity. lia. }
  destruct (bits_per_sample h =? 32).
  { destruct (_ >? 8).
    - rewrite (loop_out_length _ 2) by reflexivity. lia.
    - rewrite (loop_out_length _ 1) by reflexivity. lia. }
  reflexivity.
Qed.

Lemma stored_le h q : 0 <= q -> 0 <= stored h (4 * q) <= 4 * q.
Proof.
  intros Hq. unfold stored. rewrite !shiftr1_4, !shiftr2_4.
  repeat case_match; lia.
Qed.

Lemma convert_out_le h inbuf q :
  0 <= q -> Z.of_nat (length (convert_out h inbuf (4 * q))) <= 4 * q.
Proof.
  intros Hq. rewrite convert_out_length by assumption.
  pose proof (stored_le h q Hq). destruct (expanding h); lia.
Qed.

Lemma rb_free_range rb : rb_idx rb -> 0 <= rb_get_free rb < 2^32.
Proof.
  intros H. rewrite rb_get_free_spec by assumption.
  pose proof (rb_get_count_range rb H). destruct H as (? & ? & ?). lia.
Qed.

(** One round, run: nothing happens when no aligned group fits;
    otherwise the converted bytes are appended, every write succeeding. *)
Lemma write_round_run s inbuf n :
  rb_ok (rb_of s) -> 0 <= n < 2^32 ->
  let b := round_size n (rb_get_free (rb_of s)) in
  (0 <= b <= n /\ b <= rb_get_free (rb_of s) /\ b = 4 * (Z.min n (rb_get_free (rb_of s)) / 4)) /\
  if 0 =? b then write_round inbuf n s = (None, s, [])
  else
    exists rb',
      write_round inbuf n s =
        (Some (convert_result (handle s) b), with_rb s rb',
         map (fun _ => EvWrite ESP_OK) (convert_out (handle s) inbuf b)) /\
      pushed (rb_of s) (convert_out (handle s) inbuf b) rb'.
Proof.
  intros Hok Hn b.
  pose proof (rb_free_range _ (rb_ok_idx _ Hok)) as Hf.
  assert (Hb : b = 4 * (Z.min n (rb_get_free (rb_of s)) / 4))
    by (apply round_size_spec; assumption).
  set (q := Z.min n (rb_get_free (rb_of s)) / 4) in *.
  assert (Hq : 0 <= q) by (apply Z.div_pos; lia).
  assert (Hq4 : 4 * q <= Z.min n (rb_get_free (rb_of s)))
    by (apply Z.mul_div_le; lia).
  split; [lia|].
  unfold write_round. rewrite bind_gets. fold b.
  destruct (0 =? b) eqn:E; [reflexivity|].
  pose proof (convert_out_le (handle s) inbuf q Hq) as Hle. rewrite <- Hb in Hle.
  destruct (convert_run s inbuf b Hok ltac:(lia)) as (rb' & Ec & P).
  exists rb'. split; [|assumption].
  rewrite (bind_known _ _ _ _ _ _ Ec). unfold prepend, ret, result, final, events.
  cbn [fst snd]. rewrite app_nil_r. reflexivity.
Qed.

(** C9. In one round of [pwm_audio_write] after a successful wait, with
    no interrupt in between, the conversion loop logs successful writes
    only: their number is at most [bytes_can_write], which is at most
    [rb_get_free] at the start of the round, whatever [bits_per_sample] and
    [duty_resolution] are; the free space shrinks by exactly that number. *)
Theorem conversion_never_overfills (s : session) (inbuf : list Z) (inbuf_len : Z) :
  rb_ok (rb_of s) -> 0 < inbuf_len < 2^32 ->
  let free := rb_get_free (rb_of s) in
  let bytes_can_write := round_size inbuf_len free in
  let r := write_round inbuf inbuf_len s in
  exists k : nat,
    events r = replicate k (EvWrite ESP_OK) /\
    Z.of_nat k <= bytes_can_write <= free /\
    rb_ok (rb_of (final r)) /\
    rb_get_free (rb_of (final r)) = free - Z.of_nat k.
Proof.
  intros Hok Hn free b r.
  destruct (write_round_run s inbuf inbuf_len Hok ltac:(lia)) as [(Hb0 & Hbf & Hb) Hrun].
  fold free b in Hb0, Hbf, Hb, Hrun. fold r in Hrun.
  destruct (0 =? b) eqn:E.
  - exists 0%nat. rewrite Hrun. unfold events, final. cbn [fst snd replicate].
    split; [reflexivity|]. split; [lia|]. split; [exact Hok|lia].
  - destruct Hrun as (rb' & Hr & P).
    exists (length (convert_out (handle s) inbuf b)).
    rewrite Hr. unfold events, final. cbn [fst snd].
    change (rb_of (with_rb s rb')) with rb'.
    rewrite map_const_replicate.
    split; [reflexivity|]. split; [|split; apply P].
    split; [|lia].
    rewrite Hb. apply convert_out_le. apply Z.div_pos; [|lia].
    pose proof (rb_free_range _ (rb_ok_idx _ Hok)) as Hfr. fold free in Hfr. lia.
Qed.

Lemma conversion_never_overfills_witness :
  let s := demo_session demo_rb 10 3 2 16 PWM_AUDIO_STATUS_BUSY in
  let inbuf := [1; 2; 3; 4; 5; 6; 7; 8; 9; 10] in
  (rb_ok (rb_of s) /\ 0 < 10 < 2^32) /\
  exists k : nat,
    events (write_round inbuf 10 s) = replicate k (EvWrite ESP_OK) /\
    Z.of_nat k <= round_size 10 (rb_get_free (rb_of s)).
Proof.
  intros s inbuf.
  assert (Hok : rb_ok (rb_of s)) by (split; cbn; lia).
  assert (Hn : 0 < 10 < 2^32) by lia.
  split; [auto|].
  destruct (conversion_never_overfills s inbuf 10 Hok Hn) as (k & He & Hk & _).
  exists k. split; [exact He|]. apply Hk.
Defined.

(** ** Waiting for free space *)

Lemma kept_refl s : kept s s.
Proof. split; try reflexivity. intros H. split; [assumption|lia]. Qed.

Lemma kept_trans s1 s2 s3 : kept s1 s2 -> kept s2 s3 -> kept s1 s3.
Proof.
  intros H12 H23. split; try (etransitivity; [apply H23|apply H12]).
  intros H. destruct (kept_ok _ _ H12 H) as [H2 Hf].
  destruct (kept_ok _ _ H23 H2) as [H3 Hf'].
  split; [assumption|lia].
Qed.

Lemma consumed_kept s s' : consumed s s' -> kept s s'.
Proof.
  intros H. split; try apply H.
  intros Hok. destruct (cons_idx _ _ H (rb_ok_idx _ Hok)) as [(Hh & Ht & Hs) Hf].
  split; [|assumption]. split; try assumption.
  rewrite (cons_buf _ _ H), (cons_size _ _ H). apply Hok.
Qed.

(** Changing the guard or the semaphore keeps the rest. *)
Lemma kept_flags s g b :
  kept s (with_rb s (set_semaphore (set_is_give (rb_of s) g) b)).
Proof.
  split; try reflexivity.
  intros [Hh Ht Hs Hb]. split; [split; assumption|].
  unfold rb_get_free, rb_get_count. cbn. lia.
Qed.

Lemma kept_give s g : kept s (with_rb s (set_is_give (rb_of s) g)).
Proof.
  split; try reflexivity.
  intros [Hh Ht Hs Hb]. split; [split; assumption|].
  unfold rb_get_free, rb_get_count. cbn. lia.
Qed.

Lemma kept_sem s b : kept s (with_rb s (set_semaphore (rb_of s) b)).
Proof.
  split; try reflexivity.
  intros [Hh Ht Hs Hb]. split; [split; assumption|].
  unfold rb_get_free, rb_get_count. cbn. lia.
Qed.

Lemma write_results_app a b :
  write_results (a ++ b) = write_results a ++ write_results b.
Proof.
  induction a as [|[] a IH]; cbn [write_results app]; rewrite ?IH; reflexivity.
Qed.

Lemma write_results_consumer l :
  forallb is_consumer l = true -> write_results l = [].
Proof.
  induction l as [|e l IH]; cbn [forallb]; [reflexivity|].
  intros H. apply andb_true_iff in H as [He Hl].
  destruct e; try discriminate; cbn [write_results]; auto.
Qed.

Lemma write_results_ok (bs : list Z) :
  write_results (map (fun _ => EvWrite ESP_OK) bs) = replicate (length bs) ESP_OK.
Proof. induction bs as [|b bs IH]; cbn; [|rewrite IH]; reflexivity. Qed.

Lemma isr_body_kept s :
  kept s (final (isr_body s)) /\ write_results (events (isr_body s)) = [].
Proof.
  destruct (consumer_channels s) as [Hc He].
  rewrite isr_body_split, prepend_final, prepend_events, write_results_app.
  rewrite (write_results_consumer _ He), isr_signal_run.
  destruct (_ && _); unfold final, events; cbn [fst snd].
  - split; [|reflexivity].
    eapply kept_trans; [apply consumed_kept, Hc|apply kept_flags].
  - split; [|reflexivity]. apply consumed_kept, Hc.
Qed.

Lemma xSemaphoreTake_kept ticks :
  forall s,
    kept s (final (xSemaphoreTake ticks s)) /\
    write_results (events (xSemaphoreTake ticks s)) = [].
Proof.
  induction ticks as [|ticks IH]; intros s; cbn [xSemaphoreTake].
  - destruct (semaphore_rb (rb_of s)); unfold final, events; cbn [fst snd];
      (split; [|reflexivity]); [apply kept_sem|apply kept_refl].
  - destruct (semaphore_rb (rb_of s)).
    + unfold final, events; cbn [fst snd]. split; [apply kept_sem|reflexivity].
    + rewrite bind_final, bind_events, write_results_app.
      destruct (isr_body_kept s) as [H1 E1].
      destruct (IH (final (isr_body s))) as [H2 E2].
      split; [eapply kept_trans; eassumption|].
      rewrite E1, E2. reflexivity.
Qed.

Lemma rb_wait_semaphore_kept ticks s :
  kept s (final (rb_wait_semaphore ticks s)) /\
  write_results (events (rb_wait_semaphore ticks s)) = [].
Proof.
  rewrite rb_wait_semaphore_run. cbv zeta.
  rewrite prepend_final, prepend_events. unfold final at 1, events at 1. cbn [fst snd].
  destruct (xSemaphoreTake_kept ticks (with_rb s (set_is_give (rb_of s) 0))) as [H E].
  split.
  - eapply kept_trans; [apply kept_give|exact H].
  - cbn [app write_results]. exact E.
Qed.

(** A wait with no interrupt and no pending give times out. *)
Lemma rb_wait_semaphore_timeout s :
  semaphore_rb (rb_of s) = false ->
  rb_wait_semaphore 0 s =
  (ESP_FAIL, with_rb s (set_is_give (rb_of s) 0), [EvArm; EvTake false]).
Proof.
  intros H. rewrite rb_wait_semaphore_run. cbv zeta. cbn [xSemaphoreTake].
  change (semaphore_rb (rb_of (with_rb s (set_is_give (rb_of s) 0))))
    with (semaphore_rb (rb_of s)).
  rewrite H. reflexivity.
Qed.

Lemma write_loop_step t sched inbuf n bw res s :
  n <> 0 ->
  write_loop (t :: sched) inbuf n bw res s =
  prepend (events (rb_wait_semaphore t s))
    (if esp_err_eqb ESP_OK (result (rb_wait_semaphore t s)) then
       (let* r := write_round inbuf n in
        match r with
        | None => ret (Some (ESP_OK, u32 (bw + n)))
        | Some consumed =>
          write_loop sched (drop (Z.to_nat consumed) inbuf)
                     (u32 (n - consumed)) (u32 (bw + consumed)) res
        end) (final (rb_wait_semaphore t s))
     else write_loop sched inbuf n bw ESP_FAIL (final (rb_wait_semaphore t s))).
Proof.
  intros Hn. apply Z.eqb_neq in Hn. cbn [write_loop]. rewrite Hn.
  rewrite (bind_known _ _ _ _ _ _ (run_eta _)).
  destruct (esp_err_eqb _ _); reflexivity.
Qed.

(** While every wait times out the call stays in its loop. *)
Lemma write_loop_timeouts k :
  forall s inbuf n bw res,
    n <> 0 -> semaphore_rb (rb_of s) = false ->
    result (write_loop (replicate k 0%nat) inbuf n bw res s) = None.
Proof.
  induction k as [|k IH]; intros s inbuf n bw res Hn Hsem.
  - cbn [replicate write_loop]. apply Z.eqb_neq in Hn. rewrite Hn. reflexivity.
  - cbn [replicate]. rewrite write_loop_step by assumption.
    rewrite rb_wait_semaphore_timeout by assumption.
    unfold result at 2, final at 2. cbn [fst snd esp_err_eqb].
    rewrite prepend_result. apply IH; [assumption|exact Hsem].
Qed.

(** C3. A wait that times out does not end the call: the loop records
    [ESP_FAIL] and waits again.  With four bytes to write and no give ever
    arriving the call has not returned after any number of timeouts; when
    the second wait succeeds it returns [ESP_FAIL] with the full length in
    [bytes_written], not a short count. *)
Theorem write_timeout_keeps_waiting :
  let s := demo_session demo_rb 10 3 2 16 PWM_AUDIO_STATUS_BUSY in
  (forall k, result (pwm_audio_write (Some [1; 2; 3; 4]) 4 (Some 0)
                                     (replicate k 0%nat) s) = None) /\
  result (pwm_audio_write (Some [1; 2; 3; 4]) 4 (Some 0) [0%nat; 1%nat] s)
  = Some (ESP_FAIL, Some 4).
Proof.
  intros s. split.
  - intros k. unfold pwm_audio_write. cbn [negb Z.eqb].
    rewrite bind_result.
    rewrite (write_loop_timeouts k s [1; 2; 3; 4] 4 0 ESP_OK); [reflexivity|lia|reflexivity].
  - vm_compute. reflexivity.
Qed.

(** ** The lossy tail *)

Lemma pwm_audio_write_run inbuf n bw0 sched s :
  n <> 0 ->
  let w := write_loop sched inbuf n 0 ESP_OK s in
  result (pwm_audio_write (Some inbuf) n (Some bw0) sched s)
  = match result w with
    | Some (res, k) => Some (res, Some k)
    | None => None
    end /\
  final (pwm_audio_write (Some inbuf) n (Some bw0) sched s) = final w /\
  events (pwm_audio_write (Some inbuf) n (Some bw0) sched s) = events w.
Proof.
  intros Hn w. apply Z.eqb_neq in Hn. unfold pwm_audio_write. rewrite Hn. cbn [negb].
  rewrite (bind_known _ _ _ _ _ _ (run_eta _)). fold w.
  destruct (result w) as [[res k]|]; unfold prepend, ret, result, final, events;
    cbn [fst snd]; rewrite app_nil_r; auto.
Qed.

Lemma kept_format s s' inbuf b :
  kept s s' ->
  expanding (handle s') = expanding (handle s) /\
  stored (handle s') b = stored (handle s) b /\
  convert_out (handle s') inbuf b = convert_out (handle s) inbuf b /\
  convert_result (handle s') b = convert_result (handle s) b.
Proof.
  intros H. unfold convert_result, expanding, stored, convert_out.
  rewrite (kept_bits _ _ H), (kept_duty _ _ H). auto.
Qed.

Lemma aligned_prefix n free :
  0 <= n -> n - n mod 4 <= free ->
  4 * (Z.min n free / 4) = n - n mod 4.
Proof.
  intros Hn Hf.
  destruct (Z.min_spec n free) as [[? ->]|[? ->]]; Z.div_mod_to_equations; lia.
Qed.

Lemma stored_as_supplied h a :
  stores_as_supplied h = true -> stored h a = a.
Proof.
  unfold stores_as_supplied, stored.
  destruct (bits_per_sample h =? 8); [reflexivity|].
  destruct (bits_per_sample h =? 16); [|discriminate].
  destruct (duty_resolution h >? 8); [reflexivity|discriminate].
Qed.

Lemma convert_out_zero h inbuf : convert_out h inbuf 0 = [].
Proof. unfold convert_out. cbv zeta. repeat case_match; reflexivity. Qed.

Lemma stored_zero h : stored h 0 = 0.
Proof. unfold stored. repeat case_match; reflexivity. Qed.

Lemma u32_id x : 0 <= x < 2^32 -> u32 x = x.
Proof. intros H. unfold u32. apply Z.mod_small. assumption. Qed.

(** C5, amended. A call with an input length [N] that is not a multiple
    of 4, on a format other than 8-bit samples at a duty resolution above
    8, whose waits succeed and which finds room for the aligned prefix
    [N - N mod 4], returns [ESP_OK] with [bytes_written = N].  Exactly the
    aligned prefix is converted and appended to the ring buffer, every
    write succeeding; the trailing [N mod 4] input bytes are dropped.  The
    number of bytes stored is [stored]: it equals [N - N mod 4] for 8-bit
    samples and for 16-bit samples at a resolution above 8, and is a half
    or a quarter of it for the other formats. *)
Theorem lossy_tail (s : session) (inbuf : list Z) (N bw0 : Z) (t1 t2 : nat)
    (sched : list nat) :
  let s1 := final (rb_wait_semaphore t1 s) in
  let a := N - N mod 4 in
  let s2 := final (write_round inbuf N s1) in
  let r := pwm_audio_write (Some inbuf) N (Some bw0) (t1 :: t2 :: sched) s in
  rb_ok (rb_of s) -> 0 < N < 2^32 -> N mod 4 <> 0 ->
  expanding (handle s) = false ->
  result (rb_wait_semaphore t1 s) = ESP_OK ->
  a <= rb_get_free (rb_of s1) ->
  (a <> 0 -> result (rb_wait_semaphore t2 s2) = ESP_OK) ->
  result r = Some (ESP_OK, Some N) /\
  write_results (events r) = replicate (Z.to_nat (stored (handle s) a)) ESP_OK /\
  rb_contents (rb_of s2) = rb_contents (rb_of s1) ++ convert_out (handle s) inbuf a /\
  Z.of_nat (length (convert_out (handle s) inbuf a)) = stored (handle s) a /\
  (stores_as_supplied (handle s) = true -> stored (handle s) a = a).
Proof.
  intros s1 a s2 r Hok HN Hmod Hexp Hw1 Hfree Hw2.
  assert (Ha : a = 4 * (N / 4)) by (unfold a; Z.div_mod_to_equations; lia).
  assert (Hq : 0 <= N / 4) by (apply Z.div_pos; lia).
  assert (Hrem : 0 < N mod 4 < 4) by (pose proof (Z.mod_pos_bound N 4); lia).
  destruct (pwm_audio_write_run inbuf N bw0 (t1 :: t2 :: sched) s ltac:(lia))
    as (Hres & _ & Hev).
  fold r in Hres, Hev. rewrite Hres, Hev. clear Hres Hev.
  rewrite write_loop_step by lia. rewrite Hw1. cbn [esp_err_eqb]. fold s1.
  rewrite prepend_result, prepend_events, write_results_app.
  destruct (rb_wait_semaphore_kept t1 s) as [K1 E1]. fold s1 in K1. rewrite E1.
  cbn [app].
  destruct (kept_ok _ _ K1 Hok) as [Hok1 _].
  destruct (kept_format s s1 inbuf a K1) as (Hx1 & Hst1 & Hco1 & Hcr1).
  pose proof (write_round_run s1 inbuf N Hok1 ltac:(lia)) as Hround.
  cbv zeta in Hround. destruct Hround as [(_ & _ & Hb) Hrun].
  rewrite aligned_prefix in Hb by lia. fold a in Hb. rewrite Hb in Hrun.
  pose proof (convert_out_length (handle s) inbuf (N / 4) Hq) as Hlen.
  rewrite Hexp, <- Ha in Hlen.
  split; [|split; [|split; [|split]]]; try exact Hlen;
    try (intros Hs; apply stored_as_supplied; exact Hs).
  all: destruct (0 =? a) eqn:Ea.
  - rewrite (bind_known _ _ _ _ _ _ Hrun). rewrite prepend_result.
    unfold ret, result. cbn [fst]. rewrite Z.add_0_l, u32_id by lia. reflexivity.
  - destruct Hrun as (rb' & Hr & P).
    rewrite (bind_known _ _ _ _ _ _ Hr). rewrite prepend_result.
    unfold convert_result. rewrite Hx1, Hexp.
    assert (Hs2 : s2 = with_rb s1 rb') by (unfold s2; rewrite Hr; reflexivity).
    rewrite <- Hs2.
    assert (Hn2 : u32 (N - a) = N mod 4) by (rewrite u32_id; unfold a; lia).
    rewrite Hn2, Z.add_0_l.
    rewrite write_loop_step by lia.
    apply Z.eqb_neq in Ea. rewrite Hw2 by lia. cbn [esp_err_eqb].
    rewrite prepend_result.
    set (s3 := final (rb_wait_semaphore t2 s2)).
    destruct (rb_wait_semaphore_kept t2 s2) as [K2 _]. fold s3 in K2.
    assert (Hok2 : rb_ok (rb_of s2)) by (rewrite Hs2; apply P).
    destruct (kept_ok _ _ K2 Hok2) as [Hok3 _].
    pose proof (write_round_run s3 (drop (Z.to_nat a) inbuf) (N mod 4) Hok3 ltac:(lia))
      as Hround3.
    cbv zeta in Hround3. destruct Hround3 as [(Hb0 & _ & _) Hrun3].
    assert (Hz : round_size (N mod 4) (rb_get_free (rb_of s3)) = 0).
    { pose proof (round_size_spec (N mod 4) (rb_get_free (rb_of s3)) ltac:(lia)
                    (rb_free_range _ (rb_ok_idx _ Hok3))) as E.
      rewrite E in *. Z.div_mod_to_equations. lia. }
    rewrite Hz in Hrun3. cbn [Z.eqb] in Hrun3.
    rewrite (bind_known _ _ _ _ _ _ Hrun3), prepend_result.
    unfold ret, result. cbn [fst].
    rewrite (u32_id a) by (unfold a; lia).
    rewrite u32_id by (unfold a; lia).
    unfold a. repeat f_equal. lia.
  - rewrite (bind_known _ _ _ _ _ _ Hrun). rewrite prepend_events.
    apply Z.eqb_eq in Ea. rewrite <- Ea, stored_zero. reflexivity.
  - destruct Hrun as (rb' & Hr & P).
    rewrite (bind_known _ _ _ _ _ _ Hr). rewrite prepend_events, write_results_app.
    rewrite write_results_ok, Hco1, <- Hlen, Nat2Z.id.
    unfold convert_result. rewrite Hx1, Hexp.
    assert (Hs2 : s2 = with_rb s1 rb') by (unfold s2; rewrite Hr; reflexivity).
    rewrite <- Hs2.
    assert (Hn2 : u32 (N - a) = N mod 4) by (rewrite u32_id; unfold a; lia).
    rewrite Hn2, Z.add_0_l.
    rewrite write_loop_step by lia.
    apply Z.eqb_neq in Ea. rewrite Hw2 by lia. cbn [esp_err_eqb].
    rewrite prepend_events, write_results_app.
    set (s3 := final (rb_wait_semaphore t2 s2)).
    destruct (rb_wait_semaphore_kept t2 s2) as [K2 E2]. fold s3 in K2. rewrite E2.
    assert (Hok2 : rb_ok (rb_of s2)) by (rewrite Hs2; apply P).
    destruct (kept_ok _ _ K2 Hok2) as [Hok3 _].
    pose proof (write_round_run s3 (drop (Z.to_nat a) inbuf) (N mod 4) Hok3 ltac:(lia))
      as Hround3.
    cbv zeta in Hround3. destruct Hround3 as [(Hb0 & _ & _) Hrun3].
    assert (Hz : round_size (N mod 4) (rb_get_free (rb_of s3)) = 0).
    { pose proof (round_size_spec (N mod 4) (rb_get_free (rb_of s3)) ltac:(lia)
                    (rb_free_range _ (rb_ok_idx _ Hok3))) as E.
      rewrite E in *. Z.div_mod_to_equations. lia. }
    rewrite Hz in Hrun3. cbn [Z.eqb] in Hrun3.
    rewrite (bind_known _ _ _ _ _ _ Hrun3), prepend_events.
    unfold ret, events. cbn [snd app write_results]. rewrite app_nil_r. reflexivity.
  - unfold s2. rewrite Hrun. unfold final. cbn [fst snd].
    apply Z.eqb_eq in Ea. rewrite <- Ea, convert_out_zero, app_nil_r. reflexivity.
  - destruct Hrun as (rb' & Hr & P).
    unfold s2. rewrite Hr. unfold final. cbn [fst snd].
    change (rb_of (with_rb s1 rb')) with rb'.
    rewrite (push_contents _ _ _ P), Hco1. reflexivity.
Qed.

(** C5 as stated fails for 16-bit samples at duty resolution 8: of six
    input bytes the aligned prefix has four, and two bytes are stored.  It
    also fails for 8-bit samples at duty resolution 10, where every round
    takes half of what it sized: of nine input bytes six are converted into
    twelve stored bytes and three are dropped. *)
Lemma lossy_tail_stores_fewer :
  let s := demo_session demo_rb 8 3 2 16 PWM_AUDIO_STATUS_BUSY in
  let r := pwm_audio_write (Some [1; 2; 3; 4; 5; 6]) 6 (Some 0) [1%nat; 1%nat] s in
  let s' := demo_session demo_rb 10 3 2 8 PWM_AUDIO_STATUS_BUSY in
  let r' := pwm_audio_write (Some [1; 2; 3; 4; 5; 6; 7; 8; 9]) 9 (Some 0)
                            [1%nat; 1%nat; 1%nat] s' in
  (result r = Some (ESP_OK, Some 6) /\
   write_results (events r) = [ESP_OK; ESP_OK] /\
   Z.of_nat (length (write_results (events r))) <> 6 - 6 mod 4) /\
  (result r' = Some (ESP_OK, Some 9) /\
   write_results (events r') = replicate 12 ESP_OK /\
   Z.of_nat (length (write_results (events r'))) <> 9 - 9 mod 4).
Proof. vm_compute. repeat split; discriminate. Qed.

Lemma lossy_tail_witness :
  let s := demo_session demo_rb 10 3 2 16 PWM_AUDIO_STATUS_BUSY in
  let inbuf := [1; 2; 3; 4; 5; 6] in
  let s1 := final (rb_wait_semaphore 1 s) in
  let s2 := final (write_round inbuf 6 s1) in
  let r := pwm_audio_write (Some inbuf) 6 (Some 0) [1%nat; 1%nat] s in
  (rb_ok (rb_of s) /\ 0 < 6 < 2^32 /\ 6 mod 4 <> 0 /\
   expanding (handle s) = false /\
   result (rb_wait_semaphore 1 s) = ESP_OK /\
   6 - 6 mod 4 <= rb_get_free (rb_of s1) /\
   result (rb_wait_semaphore 1 s2) = ESP_OK) /\
  result r = Some (ESP_OK, Some 6) /\
  write_results (events r) = replicate (Z.to_nat (stored (handle s) (6 - 6 mod 4))) ESP_OK.
Proof.
  intros s inbuf s1 s2 r.
  assert (H1 : rb_ok (rb_of s)) by (split; cbn; lia).
  assert (H2 : 0 < 6 < 2^32) by lia.
  assert (H3 : 6 mod 4 <> 0) by (vm_compute; discriminate).
  assert (H4 : expanding (handle s) = false) by reflexivity.
  assert (H5 : result (rb_wait_semaphore 1 s) = ESP_OK) by (vm_compute; reflexivity).
  assert (H6 : 6 - 6 mod 4 <= rb_get_free (rb_of s1)) by (vm_compute; discriminate).
  assert (H7 : result (rb_wait_semaphore 1 s2) = ESP_OK) by (vm_compute; reflexivity).
  split; [auto 10|].
  destruct (lossy_tail s inbuf 6 0 1 1 [] H1 H2 H3 H4 H5 H6 (fun _ => H7))
    as (Hr & Hw & _).
  split; [exact Hr|exact Hw].
Defined.

(** ** No write of a call ever fails *)

Lemma u32_range x : 0 <= u32 x < 2^32.
Proof. unfold u32. apply Z.mod_pos_bound. lia. Qed.

(** Whatever the schedule of waits, every [rb_write_byte] issued by the
    loop of [pwm_audio_write] succeeds: interrupts only free space. *)
Lemma write_loop_never_fails sched :
  forall inbuf n bw res s,
    rb_ok (rb_of s) -> 0 <= n < 2^32 ->
    Forall (fun r => r = ESP_OK)
           (write_results (events (write_loop sched inbuf n bw res s))) /\
    rb_ok (rb_of (final (write_loop sched inbuf n bw res s))).
Proof.
  induction sched as [|t sched IH]; intros inbuf n bw res s Hok Hn.
  - cbn [write_loop]. destruct (n =? 0); (split; [apply Forall_nil; trivial|exact Hok]).
  - destruct (Z.eq_dec n 0) as [->|Hne].
    { cbn [write_loop Z.eqb]. split; [apply Forall_nil; trivial|exact Hok]. }
    rewrite write_loop_step by assumption.
    rewrite prepend_events, prepend_final, write_results_app.
    destruct (rb_wait_semaphore_kept t s) as [K ->]. cbn [app].
    set (s1 := final (rb_wait_semaphore t s)) in *.
    destruct (kept_ok _ _ K Hok) as [Hok1 _].
    destruct (esp_err_eqb _ _); [|apply IH; assumption].
    pose proof (write_round_run s1 inbuf n Hok1 Hn) as Hround.
    cbv zeta in Hround. destruct Hround as [(Hb0 & _ & _) Hrun].
    destruct (0 =? round_size n (rb_get_free (rb_of s1))).
    + rewrite (bind_known _ _ _ _ _ _ Hrun).
      rewrite prepend_events, prepend_final. split; [apply Forall_nil; trivial|exact Hok1].
    + destruct Hrun as (rb' & Hr & P).
      rewrite (bind_known _ _ _ _ _ _ Hr).
      rewrite prepend_events, prepend_final, write_results_app, write_results_ok.
      destruct (IH (drop (Z.to_nat (convert_result (handle s1)
                                      (round_size n (rb_get_free (rb_of s1))))) inbuf)
                   (u32 (n - convert_result (handle s1)
                                 (round_size n (rb_get_free (rb_of s1)))))
                   (u32 (bw + convert_result (handle s1)
                                 (round_size n (rb_get_free (rb_of s1)))))
                   res (with_rb s1 rb') (push_ok _ _ _ P) (u32_range _))
        as [Hall Hokf].
      split; [|exact Hokf].
      apply Forall_app. split; [|exact Hall].
      apply Forall_forall. intros r Hin. apply elem_of_replicate in Hin. apply Hin.
Qed.

(** ** 16-bit samples at duty resolution 10 *)

(** The handler's reconstruction undoes the split into two bytes. *)
Lemma rebuild_duty v :
  0 <= v < 2^16 ->
  u16 (Z.lor (Z.shiftl (u8 (Z.shiftr v 8)) 8) (u8 v)) = v.
Proof.
  intros Hv. unfold u8, u16.
  assert (Hhi : 0 <= Z.shiftr v 8 < 2^8).
  { rewrite Z.shiftr_div_pow2 by lia. split; [apply Z.div_pos; lia|].
    apply Z.div_lt_upper_bound; lia. }
  rewrite (Z.mod_small (Z.shiftr v 8)) by lia.
  rewrite <- Z.ldiff_ones_r by lia.
  change (2^8) with (2^8)%Z. rewrite <- (Z.land_ones v 8) by lia.
  rewrite Z.lor_ldiff_and. apply Z.mod_small. lia.
Qed.

(** A sample read back from its two input bytes. *)
Lemma load16_le16 (samples : list Z) :
  forall (i : nat) x,
    samples !! i = Some x ->
    load16 (flat_map le16 samples) (Z.of_nat i) = u16 x.
Proof.
  induction samples as [|a samples IH]; intros i x Hi; [discriminate|].
  destruct i as [|i].
  - injection Hi as ->. unfold load16, byte_at.
    change (flat_map le16 (x :: samples))
      with (u8 x :: u8 (Z.shiftr x 8) :: flat_map le16 samples).
    change (Z.to_nat (2 * Z.of_nat 0)) with 0%nat.
    change (Z.to_nat (2 * Z.of_nat 0 + 1)) with 1%nat.
    cbn [lookup list_lookup default]. unfold id.
    unfold u8, u16. rewrite !Z.mod_mod by lia.
    rewrite Z.shiftr_div_pow2 by lia.
    change (2^8) with 256. change (2^16) with 65536.
    Z.div_mod_to_equations. lia.
  - cbn in Hi. rewrite <- (IH i x Hi). unfold load16, byte_at.
    replace (Z.to_nat (2 * Z.of_nat (S i))) with (S (S (Z.to_nat (2 * Z.of_nat i)))) by lia.
    replace (Z.to_nat (2 * Z.of_nat (S i) + 1))
      with (S (S (Z.to_nat (2 * Z.of_nat i + 1)))) by lia.
    reflexivity.
Qed.

Lemma conv16_sample (samples : list Z) (i : nat) x :
  samples !! i = Some x -> -32767 <= x <= 32767 ->
  conv16 (flat_map le16 samples) 6 (Z.of_nat i) = Z.shiftr (x + 32767) 6 /\
  0 <= Z.shiftr (x + 32767) 6 < 2^16.
Proof.
  intros Hi Hx. unfold conv16. cbv zeta. rewrite (load16_le16 _ _ _ Hi).
  assert (Hs : s16 (u16 x) = x).
  { unfold s16, u16. rewrite Zplus_mod_idemp_l. rewrite Z.mod_small by lia. lia. }
  rewrite Hs. change 0x7fff with 32767.
  assert (Hr : 0 <= Z.shiftr (x + 32767) 6 < 2^16).
  { rewrite Z.shiftr_div_pow2 by lia. split; [apply Z.div_pos; lia|].
    apply Z.div_lt_upper_bound; lia. }
  split; [|exact Hr].
  unfold u16 at 2. rewrite (Z.mod_small (x + 32767)) by lia.
  unfold u16. apply Z.mod_small. exact Hr.
Qed.

Lemma loop_out_flat_map (l : list Z) (g : Z -> list Z) f :
  forall i,
    (forall (j : nat) x, l !! j = Some x -> f (i + Z.of_nat j) = g x) ->
    loop_out (length l) i f = flat_map g l.
Proof.
  induction l as [|a l IH]; intros i Hf; [reflexivity|].
  cbn [length loop_out flat_map]. f_equal.
  - rewrite <- (Hf 0%nat a eq_refl). f_equal. lia.
  - apply IH. intros j x Hj. rewrite <- (Hf (S j) x Hj). f_equal. lia.
Qed.

Lemma reconstruct_pairs (l : list Z) (d : Z -> Z) :
  Forall (fun x => 0 <= d x < 2^16) l ->
  reconstruct (flat_map (fun x => [u8 (d x)] ++ [u8 (Z.shiftr (d x) 8)]) l) = map d l.
Proof.
  induction 1 as [|a l Ha Hl IH]; [reflexivity|].
  change (u16 (Z.lor (Z.shiftl (u8 (Z.shiftr (d a) 8)) 8) (u8 (d a)))
          :: reconstruct (flat_map (fun x => [u8 (d x)] ++ [u8 (Z.shiftr (d x) 8)]) l)
          = d a :: map d l).
  rewrite IH, rebuild_duty by assumption. reflexivity.
Qed.

Lemma length_flat_map_le16 (samples : list Z) :
  length (flat_map le16 samples) = (2 * length samples)%nat.
Proof. induction samples as [|a l IH]; cbn; [reflexivity|]. cbn in IH. lia. Qed.

Lemma rb_contents_nonempty rb b rest :
  rb_contents rb = b :: rest -> tail rb <> head rb.
Proof.
  intros H E. unfold rb_contents, rb_get_count in H. cbv zeta in H.
  rewrite E in H. rewrite Z.geb_leb, Z.leb_refl, Z.sub_diag in H. discriminate.
Qed.

(** The left path at a resolution above 8 takes the two oldest bytes and
    delivers their reconstruction. *)
Lemma isr_left_reconstructs c lo hi rest :
  Z.land (channel_mask (handle c)) CHANNEL_LEFT_MASK <> 0 ->
  duty_resolution (handle c) > 8 ->
  rb_ok (rb_of c) ->
  rb_contents (rb_of c) = lo :: hi :: rest ->
  left_duties (events (isr_left c)) = reconstruct [lo; hi] /\
  rb_contents (rb_of (final (isr_left c))) = rest.
Proof.
  intros Hm Hd Hok Hc.
  apply Z.eqb_neq in Hm. apply Z.gtb_gt in Hd.
  pose proof (rb_contents_nonempty _ _ _ Hc) as Hne.
  destruct (rb_pop_contents _ Hok Hne) as [Hok1 Hc1].
  rewrite Hc in Hc1. injection Hc1 as Hlo Hrest. symmetry in Hrest.
  pose proof (rb_contents_nonempty _ _ _ Hrest) as Hne1.
  destruct (rb_pop_contents _ Hok1 Hne1) as [Hok2 Hc2].
  rewrite Hrest in Hc2. injection Hc2 as Hhi Hrest2.
  apply Z.eqb_neq in Hne, Hne1.
  unfold isr_left. rewrite bind_gets, Hm, Hd. cbn [negb].
  rewrite bind_read_wave_l, Hne.
  rewrite bind_read_wave_h.
  change (rb_of (with_wave_l (with_rb c (rb_pop (rb_of c))) (rb_front (rb_of c))))
    with (rb_pop (rb_of c)).
  rewrite Hne1. cbn [esp_err_eqb].
  rewrite bind_combine_value, bind_gets.
  unfold ledc_set_left_duty_fast, prepend, events, final, result. cbn [fst snd app].
  cbn [left_duties reconstruct with_value value wave_h wave_l with_wave_h with_wave_l].
  split.
  - rewrite <- Hlo, <- Hhi. reflexivity.
  - symmetry. exact Hrest2.
Qed.

(** One round on 16-bit samples at resolution 10. *)
Lemma pcm16_round (s : session) (samples : list Z) :
  let inbuf := flat_map le16 samples in
  let n := Z.of_nat (length inbuf) in
  let r := write_round inbuf n s in
  bits_per_sample (handle s) = 16 -> duty_resolution (handle s) = 10 ->
  rb_ok (rb_of s) ->
  Forall (fun x => -32767 <= x <= 32767) samples ->
  0 < n -> n mod 4 = 0 -> n <= rb_get_free (rb_of s) ->
  result r = Some n /\
  (exists new,
     rb_contents (rb_of (final r)) = rb_contents (rb_of s) ++ new /\
     write_results (events r) = replicate (length new) ESP_OK /\
     reconstruct new = map (fun x => Z.shiftr (x + 32767) 6) samples).
Proof.
  intros inbuf n r Hbits Hduty Hok Hrange Hn Hmod Hfree.
  pose proof (rb_free_range _ (rb_ok_idx _ Hok)) as Hfr.
  pose proof (write_round_run s inbuf n Hok ltac:(lia)) as Hround.
  cbv zeta in Hround. destruct Hround as [(_ & _ & Hb) Hrun]. fold r in Hrun.
  assert (Hbn : round_size n (rb_get_free (rb_of s)) = n).
  { rewrite Hb, Z.min_l by lia. Z.div_mod_to_equations. lia. }
  rewrite Hbn in Hrun.
  destruct (0 =? n) eqn:E; [apply Z.eqb_eq in E; lia|].
  destruct Hrun as (rb' & Hr & P).
  assert (Hlen : n = 2 * Z.of_nat (length samples)).
  { unfold n, inbuf. rewrite length_flat_map_le16. lia. }
  assert (Hout : convert_out (handle s) inbuf n
                 = flat_map (fun x => [u8 (Z.shiftr (x + 32767) 6)]
                                        ++ [u8 (Z.shiftr (Z.shiftr (x + 32767) 6) 8)])
                            samples).
  { unfold convert_out. cbv zeta. rewrite Hbits, Hduty. cbn [Z.eqb Z.gtb Z.compare Pos.compare Pos.compare_cont Pos.eqb].
    change (s8 (16 - 10)) with 6.
    replace (Z.to_nat (Z.shiftr n 1)) with (length samples).
    2:{ rewrite Hlen, Z.shiftr_div_pow2 by lia. change (2^1) with 2.
        rewrite Z.mul_comm, Z.div_mul by lia. lia. }
    apply loop_out_flat_map. intros j x Hj. rewrite Z.add_0_l.
    assert (Hx : -32767 <= x <= 32767).
    { rewrite Forall_forall in Hrange. apply Hrange.
      apply list_elem_of_lookup. eauto. }
    unfold inbuf.
    destruct (conv16_sample samples j x Hj Hx) as [-> _]. reflexivity. }
  split.
  - rewrite Hr. unfold result, convert_result, expanding. cbn [fst].
    rewrite Hbits. reflexivity.
  - exists (convert_out (handle s) inbuf n).
    rewrite Hr. unfold final, events. cbn [fst snd].
    change (rb_of (with_rb s rb')) with rb'.
    split; [apply P|]. split; [apply write_results_ok|].
    rewrite Hout. apply reconstruct_pairs.
    rewrite Forall_forall in *. intros x Hx. specialize (Hrange x Hx). cbv beta in *.
    rewrite Z.shiftr_div_pow2 by lia. split; [apply Z.div_pos; lia|].
    apply Z.div_lt_upper_bound; lia.
Qed.


(** C4. The most negative sample.  With [bits_per_sample = 16] and
    [duty_resolution = 10], [pwm_audio_write] on the ramp
    [-32768, -32767, -32766, -1, 0, 1, 32766, 32767] stores all 16 bytes and
    returns [ESP_OK], and the eight following interrupts deliver
    [1023, 0, 0, 511, 511, 512, 1023, 1023] to the left output, the
    values reconstructed from the stored byte pairs.  [(s + 32767) >> 6]
    is [-1, 0, 0, 511, 511, 512, 1023, 1023]: the two agree on every
    sample but [-32768], where the 16-bit sum [temp + 0x7fff] wraps to
    65535 and the handler plays full scale, the value of [32767], next to
    0 for [-32767]. *)
Theorem pcm16_most_negative_wraps :
  let s := demo_session demo_rb 10 1 1 16 PWM_AUDIO_STATUS_BUSY in
  let ramp := [-32768; -32767; -32766; -1; 0; 1; 32766; 32767] in
  let r := pwm_audio_write (Some (flat_map le16 ramp)) 16 (Some 0) [1%nat] s in
  result r = Some (ESP_OK, Some 16) /\
  write_results (events r) = replicate 16 ESP_OK /\
  reconstruct (rb_contents (rb_of (final r))) = [1023; 0; 0; 511; 511; 512; 1023; 1023] /\
  left_duties (events (isr_runs 8 (final r))) = [1023; 0; 0; 511; 511; 512; 1023; 1023] /\
  map (fun x => Z.shiftr (x + 32767) 6) ramp = [-1; 0; 0; 511; 511; 512; 1023; 1023] /\
  conv16 (flat_map le16 ramp) 6 0 = 1023 /\
  left_duties (events (isr_runs 8 (final r)))
  <> map (fun x => Z.shiftr (x + 32767) 6) ramp.
Proof. vm_compute. repeat split. discriminate. Qed.

(** X21. Away from the most negative sample the conversion is the
    offset binary value.  With [bits_per_sample = 16] and [duty_resolution = 10],
    for samples between [-32767] and [32767], a call of [pwm_audio_write]
    whose input length is a multiple of 4, whose wait succeeds and which
    finds room for the whole input appends two bytes per sample, every
    write succeeding, and returns [ESP_OK] with the full length; the duty
    values reconstructed from the appended bytes, low byte first as the
    handler combines them, are exactly [(s + 32767) >> 6].  The handler's
    left path delivers that reconstruction of the two oldest bytes. *)
Theorem pcm16_round_trip (s : session) (samples : list Z) (bw0 : Z)
    (t : nat) (sched : list nat) :
  let inbuf := flat_map le16 samples in
  let n := Z.of_nat (length inbuf) in
  let s1 := final (rb_wait_semaphore t s) in
  let r := pwm_audio_write (Some inbuf) n (Some bw0) (t :: sched) s in
  bits_per_sample (handle s) = 16 -> duty_resolution (handle s) = 10 ->
  rb_ok (rb_of s) ->
  Forall (fun x => -32767 <= x <= 32767) samples ->
  0 < n -> n mod 4 = 0 ->
  result (rb_wait_semaphore t s) = ESP_OK ->
  n <= rb_get_free (rb_of s1) ->
  result r = Some (ESP_OK, Some n) /\
  (exists new,
     rb_contents (rb_of (final r)) = rb_contents (rb_of s1) ++ new /\
     write_results (events r) = replicate (length new) ESP_OK /\
     reconstruct new = map (fun x => Z.shiftr (x + 32767) 6) samples) /\
  (forall c lo hi rest,
     Z.land (channel_mask (handle c)) CHANNEL_LEFT_MASK <> 0 ->
     duty_resolution (handle c) = 10 ->
     rb_ok (rb_of c) ->
     rb_contents (rb_of c) = lo :: hi :: rest ->
     left_duties (events (isr_left c)) = reconstruct [lo; hi] /\
     rb_contents (rb_of (final (isr_left c))) = rest).
Proof.
  intros inbuf n s1 r Hbits Hduty Hok Hrange Hn Hmod Hw Hfree.
  destruct (rb_wait_semaphore_kept t s) as [K E1]. fold s1 in K.
  destruct (kept_ok _ _ K Hok) as [Hok1 _].
  pose proof (rb_free_range _ (rb_ok_idx _ Hok1)) as Hfr.
  assert (Hbits1 : bits_per_sample (handle s1) = 16)
    by (rewrite (kept_bits _ _ K); assumption).
  assert (Hduty1 : duty_resolution (handle s1) = 10)
    by (rewrite (kept_duty _ _ K); assumption).
  destruct (pcm16_round s1 samples Hbits1 Hduty1 Hok1 Hrange Hn Hmod Hfree)
    as (Hres & new & Hc & Hwr & Hrec).
  fold inbuf n in Hres, Hc, Hwr.
  destruct (pwm_audio_write_run inbuf n bw0 (t :: sched) s ltac:(lia))
    as (Hr & Hf & Hev).
  fold r in Hr, Hf, Hev.
  assert (Hloop :
    write_loop (t :: sched) inbuf n 0 ESP_OK s =
    prepend (events (rb_wait_semaphore t s))
      (prepend (events (write_round inbuf n s1))
         (Some (ESP_OK, n), final (write_round inbuf n s1), []))).
  { rewrite write_loop_step by lia. rewrite Hw. cbn [esp_err_eqb]. fold s1.
    f_equal. rewrite (bind_known _ _ _ _ _ _ (run_eta _)). rewrite Hres.
    f_equal. rewrite Z.sub_diag, Z.add_0_l.
    change (u32 0) with 0. unfold u32. rewrite Z.mod_small by lia.
    destruct sched; reflexivity. }
  rewrite Hloop in Hr, Hf, Hev.
  split; [exact Hr|]. split.
  - exists new. rewrite Hf, Hev.
    rewrite !prepend_final, !prepend_events. unfold final at 1, events at 3.
    cbn [fst snd]. rewrite app_nil_r, write_results_app, E1.
    split; [exact Hc|]. split; [exact Hwr|exact Hrec].
  - intros c lo hi rest Hm Hd. apply isr_left_reconstructs; [assumption|lia].
Qed.

Lemma pcm16_round_trip_witness :
  let s := demo_session demo_rb 10 1 1 16 PWM_AUDIO_STATUS_BUSY in
  let samples := [-32767; 32767] in
  let inbuf := flat_map le16 samples in
  let n := Z.of_nat (length inbuf) in
  let s1 := final (rb_wait_semaphore 1 s) in
  let r := pwm_audio_write (Some inbuf) n (Some 0) [1%nat] s in
  (bits_per_sample (handle s) = 16 /\ duty_resolution (handle s) = 10 /\
   rb_ok (rb_of s) /\ Forall (fun x => -32767 <= x <= 32767) samples /\
   0 < n /\ n mod 4 = 0 /\
   result (rb_wait_semaphore 1 s) = ESP_OK /\ n <= rb_get_free (rb_of s1)) /\
  result r = Some (ESP_OK, Some 4) /\
  exists new,
    rb_contents (rb_of (final r)) = rb_contents (rb_of s1) ++ new /\
    reconstruct new = [0; 1023].
Proof.
  intros s samples inbuf n s1 r.
  assert (H1 : bits_per_sample (handle s) = 16) by reflexivity.
  assert (H2 : duty_resolution (handle s) = 10) by reflexivity.
  assert (H3 : rb_ok (rb_of s)) by (split; cbn; lia).
  assert (H4 : Forall (fun x => -32767 <= x <= 32767) samples)
    by (repeat constructor; lia).
  assert (H5 : 0 < n) by reflexivity.
  assert (H6 : n mod 4 = 0) by reflexivity.
  assert (H7 : result (rb_wait_semaphore 1 s) = ESP_OK) by (vm_compute; reflexivity).
  assert (H8 : n <= rb_get_free (rb_of s1)) by (vm_compute; discriminate).
  split; [auto 10|].
  destruct (pcm16_round_trip s samples 0 1 [] H1 H2 H3 H4 H5 H6 H7 H8)
    as (Hr & (new & Hc & _ & Hrec) & _).
  split; [exact Hr|]. exists new. split; [exact Hc|exact Hrec].
Defined.
(** * Further properties of the code *)

(** ** The ring buffer is a bounded queue *)

Lemma rb_contents_length rb :
  Z.of_nat (length (rb_contents rb)) = Z.max 0 (rb_get_count rb).
Proof. unfold rb_contents. rewrite length_map, length_seq. lia. Qed.

Lemma rb_empty_iff rb :
  rb_idx rb -> (tail rb = head rb <-> rb_get_count rb = 0).
Proof.
  intros H. rewrite rb_get_count_spec by assumption. destruct H as (Hh & Ht & Hs).
  destruct (Z.geb_spec (head rb) (tail rb)); lia.
Qed.

Lemma rb_read_byte_pop rb o :
  tail rb <> head rb -> rb_read_byte rb o = (ESP_OK, rb_front rb, rb_pop rb).
Proof.
  intros H. apply Z.eqb_neq in H. unfold rb_read_byte. cbn zeta. rewrite H.
  reflexivity.
Qed.

Lemma rb_read_byte_empty rb o :
  tail rb = head rb -> rb_read_byte rb o = (ESP_FAIL, o, rb).
Proof.
  intros H. apply Z.eqb_eq in H. unfold rb_read_byte. cbn zeta. rewrite H.
  reflexivity.
Qed.

Lemma rb_read_byte_nonempty rb o x rest :
  rb_ok rb -> rb_contents rb = x :: rest ->
  rb_read_byte rb o = (ESP_OK, x, rb_pop rb) /\
  rb_ok (rb_pop rb) /\ rb_contents (rb_pop rb) = rest.
Proof.
  intros Hok Hc. pose proof (rb_contents_nonempty _ _ _ Hc) as Hne.
  destruct (rb_pop_contents rb Hok Hne) as [Hok' Hc']. rewrite Hc in Hc'.
  injection Hc' as Hx Hrest.
  rewrite (rb_read_byte_pop rb o Hne), <- Hx. auto.
Qed.

Lemma rb_contents_empty rb :
  rb_ok rb -> rb_contents rb = [] -> tail rb = head rb.
Proof.
  intros Hok Hc. pose proof (rb_ok_idx _ Hok) as Hidx.
  apply rb_empty_iff; [assumption|].
  pose proof (rb_contents_length rb) as Hl. rewrite Hc in Hl.
  pose proof (rb_get_count_range _ Hidx). cbn in Hl. lia.
Qed.

(** X2. Reading from a buffer that satisfies the index invariant: when
    nothing is queued the call fails and leaves the buffer and [*outdata]
    as they were; otherwise it succeeds, hands out the oldest byte and
    leaves the rest of the queue, touching neither [head] nor the storage
    and freeing exactly one byte. *)
Theorem rb_read_byte_front (rb : ringBuf) (o : Z) :
  rb_ok rb ->
  match rb_contents rb with
  | [] => rb_read_byte rb o = (ESP_FAIL, o, rb)
  | x :: rest =>
    exists rb',
      rb_read_byte rb o = (ESP_OK, x, rb') /\
      rb_ok rb' /\ rb_contents rb' = rest /\
      head rb' = head rb /\ buf rb' = buf rb /\ size rb' = size rb /\
      rb_get_free rb' = rb_get_free rb + 1
  end.
Proof.
  intros Hok. pose proof (rb_ok_idx _ Hok) as Hidx.
  destruct (Z.eq_dec (tail rb) (head rb)) as [E|E].
  - pose proof (proj1 (rb_empty_iff rb Hidx) E) as Hc.
    unfold rb_contents. rewrite Hc. cbn. apply rb_read_byte_empty. exact E.
  - destruct (rb_pop_contents rb Hok E) as [Hok' Hc]. rewrite Hc.
    exists (rb_pop rb). split; [apply rb_read_byte_pop; exact E|].
    destruct (rb_pop_idx rb Hidx E) as [_ Hf]. repeat split; try apply Hok'.
    exact Hf.
Qed.

Lemma rb_read_byte_front_witness :
  let rb := demo_rb_with [7; 8; 9] in
  rb_ok rb /\
  exists rb', rb_read_byte rb 0 = (ESP_OK, 7, rb') /\ rb_contents rb' = [8; 9].
Proof.
  intros rb.
  assert (Hok : rb_ok rb) by (split; cbn; lia).
  split; [exact Hok|].
  pose proof (rb_read_byte_front rb 0 Hok) as H.
  change (rb_contents rb) with [7; 8; 9] in H.
  destruct H as (rb' & Hr & _ & Hc & _). exists rb'. split; [exact Hr|exact Hc].
Defined.

Lemma rb_apply_queue rb op :
  rb_ok rb ->
  rb_ok (rb_apply rb op) /\
  rb_contents (rb_apply rb op) = queue_apply (size rb - 1) (rb_contents rb) op.
Proof.
  intros Hok. pose proof (rb_ok_idx _ Hok) as Hidx.
  pose proof (rb_get_count_range _ Hidx) as Hcr.
  pose proof (rb_get_free_spec _ Hidx) as Hfs.
  pose proof (rb_contents_length rb) as Hlen.
  destruct op as [b| |]; cbn [rb_apply queue_apply].
  - destruct (Z.ltb_spec (Z.of_nat (length (rb_contents rb))) (size rb - 1)) as [Hlt|Hge].
    + destruct (rb_write_byte_pushed rb b Hok ltac:(lia)) as [_ P].
      split; [apply P|apply P].
    + assert (Hfail : fst (rb_write_byte rb b) = ESP_FAIL)
        by (apply rb_write_byte_fail_iff; [assumption|lia]).
      rewrite (rb_write_byte_fail_same rb b Hfail). split; [assumption|reflexivity].
  - destruct (rb_contents rb) as [|x rest] eqn:Hq.
    + rewrite (rb_read_byte_empty rb 0 (rb_contents_empty rb Hok Hq)).
      split; [assumption|exact Hq].
    + destruct (rb_read_byte_nonempty rb 0 x rest Hok Hq) as (-> & Hok' & Hc).
      split; [assumption|exact Hc].
  - destruct Hok as [Hh Ht Hs Hb]. split.
    + split; cbn; lia.
    + reflexivity.
Qed.

(** X1. The ring buffer implements a first-in first-out queue of
    [size - 1] bytes: after any sequence of writes, reads and flushes the
    queued bytes are what the same operations leave in a bounded queue (a
    write appends the byte modulo 256 unless [size - 1] bytes are queued, a
    read drops the oldest byte, a flush empties). *)
Theorem rb_refines_queue (rb0 : ringBuf) (ops : list rb_op) :
  rb_ok rb0 ->
  rb_contents (rb_run ops rb0) = queue_run (size rb0 - 1) ops (rb_contents rb0).
Proof.
  revert rb0. induction ops as [|op ops IH]; intros rb0 Hok; [reflexivity|].
  cbn [rb_run queue_run fold_left].
  destruct (rb_apply_queue rb0 op Hok) as [Hok' Hc].
  fold (rb_run ops (rb_apply rb0 op)). rewrite (IH _ Hok'), Hc, rb_apply_size.
  reflexivity.
Qed.

Lemma rb_refines_queue_witness :
  let ops := [OpWrite 1; OpWrite 258; OpRead; OpWrite 3; OpFlush; OpWrite 4; OpWrite 5] in
  rb_ok demo_rb /\ rb_contents (rb_run ops demo_rb) = [4; 5].
Proof.
  intros ops.
  assert (Hok : rb_ok demo_rb) by (split; cbn; lia).
  split; [exact Hok|].
  exact (rb_refines_queue demo_rb ops Hok).
Defined.

Lemma rb_read_n_all rb :
  forall q, rb_ok rb -> rb_contents rb = q ->
  fst (rb_read_n (length q) rb) = q /\
  rb_contents (snd (rb_read_n (length q) rb)) = [] /\
  rb_ok (snd (rb_read_n (length q) rb)).
Proof.
  intros q. revert rb. induction q as [|x q IH]; intros rb Hok Hc.
  - cbn. auto.
  - destruct (rb_read_byte_nonempty rb 0 x q Hok Hc) as (Hr & Hok' & Hc').
    cbn [length rb_read_n]. rewrite Hr. cbn [esp_err_eqb].
    destruct (IH (rb_pop rb) Hok' Hc') as (H1 & H2 & H3).
    destruct (rb_read_n (length q) (rb_pop rb)) as [l rb2]. cbn [fst snd] in *.
    subst l. auto.
Qed.

Lemma rb_run_writes (bs : list Z) :
  forall rb,
    rb_ok rb ->
    Z.of_nat (length (rb_contents rb) + length bs) <= size rb - 1 ->
    rb_contents (rb_run (map OpWrite bs) rb) = rb_contents rb ++ map u8 bs.
Proof.
  induction bs as [|b bs IH]; intros rb Hok Hlen; cbn [map rb_run fold_left].
  - rewrite app_nil_r. reflexivity.
  - destruct (rb_apply_queue rb (OpWrite b) Hok) as [Hok' Hc].
    cbn [queue_apply] in Hc. cbn [length] in Hlen.
    destruct (Z.ltb_spec (Z.of_nat (length (rb_contents rb))) (size rb - 1)); [|lia].
    fold (rb_run (map OpWrite bs) (rb_apply rb (OpWrite b))).
    rewrite IH; [|exact Hok'|].
    + rewrite Hc, <- app_assoc. reflexivity.
    + rewrite Hc, length_app, rb_apply_size. cbn [length]. lia.
Qed.

(** X3. Round trip: bytes written into an empty buffer that has room for
    them come back from as many reads, in the order written and reduced
    modulo 256, and the buffer is empty again. *)
Theorem rb_write_read_round_trip (rb : ringBuf) (bs : list Z) :
  rb_ok rb -> tail rb = head rb ->
  Z.of_nat (length bs) <= size rb - 1 ->
  let rb1 := rb_run (map OpWrite bs) rb in
  fst (rb_read_n (length bs) rb1) = map u8 bs /\
  rb_contents (snd (rb_read_n (length bs) rb1)) = [] /\
  rb_get_count rb1 = Z.of_nat (length bs).
Proof.
  intros Hok He Hlen rb1.
  pose proof (rb_ok_idx _ Hok) as Hidx.
  assert (Hq : rb_contents rb = []).
  { unfold rb_contents. rewrite (proj1 (rb_empty_iff rb Hidx) He). reflexivity. }
  assert (Hc1 : rb_contents rb1 = map u8 bs).
  { unfold rb1. rewrite rb_run_writes by (rewrite ?Hq; cbn [length]; assumption || lia).
    rewrite Hq. reflexivity. }
  assert (Hok1 : rb_ok rb1) by (apply rb_run_ok; assumption).
  destruct (rb_read_n_all rb1 (map u8 bs) Hok1 Hc1) as (H1 & H2 & _).
  rewrite length_map in H1, H2. split; [exact H1|]. split; [exact H2|].
  pose proof (rb_contents_length rb1) as Hl. rewrite Hc1, length_map in Hl.
  pose proof (rb_get_count_range _ (rb_ok_idx _ Hok1)). lia.
Qed.

Lemma rb_write_read_round_trip_witness :
  let bs := [10; 20; 300; -1] in
  (rb_ok demo_rb /\ tail demo_rb = head demo_rb /\
   Z.of_nat (length bs) <= size demo_rb - 1) /\
  fst (rb_read_n (length bs) (rb_run (map OpWrite bs) demo_rb)) = [10; 20; 44; 255].
Proof.
  intros bs.
  assert (H1 : rb_ok demo_rb) by (split; cbn; lia).
  assert (H2 : tail demo_rb = head demo_rb) by reflexivity.
  assert (H3 : Z.of_nat (length bs) <= size demo_rb - 1) by (cbn; lia).
  split; [auto|].
  exact (proj1 (rb_write_read_round_trip demo_rb bs H1 H2 H3)).
Defined.

(** ** Creation and flushing *)

(** X4. [rb_create] refuses exactly the sizes that are below 1024 once
    converted to unsigned, and a failed allocation; a negative [int] size
    therefore passes the minimum check.  A created buffer is empty: nothing
    queued, [size - 1] bytes free, guard clear and semaphore empty. *)
Theorem rb_create_accepts (size0 : Z) (heap : bool) :
  (rb_create size0 heap = None <-> u32 size0 < 1024 \/ heap = false) /\
  (- 2^31 <= size0 < 0 -> rb_create size0 true <> None) /\
  (forall rb,
     rb_create size0 heap = Some rb ->
     size rb = u32 size0 /\ rb_get_count rb = 0 /\
     rb_get_free rb = size rb - 1 /\ rb_contents rb = [] /\
     is_give rb = 0 /\ semaphore_rb rb = false).
Proof.
  split; [|split].
  - unfold rb_create. change (Z.shiftl BUFFER_MIN_SIZE 2) with 1024.
    destruct (Z.ltb_spec (u32 size0) 1024); [tauto|].
    destruct heap; split; try discriminate; try tauto.
    intros [?|?]; [lia|discriminate].
  - intros Hneg. unfold rb_create. change (Z.shiftl BUFFER_MIN_SIZE 2) with 1024.
    assert (Hu : u32 size0 = size0 + 2^32).
    { unfold u32. symmetry. apply (Z.mod_unique size0 (2^32) (-1)); lia. }
    destruct (Z.ltb_spec (u32 size0) 1024); [lia|discriminate].
  - intros rb Hc. destruct (rb_create_ok _ _ _ Hc) as (Hok & Hh & Ht & Hs & Hg & Hsem).
    pose proof (rb_ok_idx _ Hok) as Hidx.
    assert (Hcnt : rb_get_count rb = 0) by (apply rb_empty_iff; [assumption|congruence]).
    repeat split; try assumption.
    + unfold rb_create in Hc. destruct (_ <? _); [discriminate|].
      destruct heap; [|discriminate]. injection Hc as <-. reflexivity.
    + rewrite rb_get_free_spec by assumption. lia.
    + unfold rb_contents. rewrite Hcnt. reflexivity.
Qed.

Lemma rb_create_accepts_witness :
  rb_create (-1) true <> None /\
  exists rb, rb_create 2048 true = Some rb /\ rb_get_free rb = 2047.
Proof.
  split.
  - apply (proj1 (proj2 (rb_create_accepts (-1) true))). lia.
  - eexists. split; [reflexivity|].
    destruct (proj2 (proj2 (rb_create_accepts 2048 true)) _ eq_refl)
      as (_ & _ & Hf & _).
    exact Hf.
Defined.

(** X5. [pwm_audio_stop] succeeds in every state: the session is idle
    afterwards and its ring buffer is empty whatever was queued, with the
    configuration untouched.  Stopping again changes nothing, and a start
    right after a stop is accepted. *)
Theorem stop_flushes (h : pwm_audio_handle) :
  0 < size (ringbuf h) < 2^32 ->
  let h' := snd (pwm_audio_stop h) in
  fst (pwm_audio_stop h) = ESP_OK /\
  status h' = PWM_AUDIO_STATUS_IDLE /\
  rb_get_count (ringbuf h') = 0 /\
  rb_contents (ringbuf h') = [] /\
  rb_get_free (ringbuf h') = size (ringbuf h) - 1 /\
  (duty_resolution h' = duty_resolution h /\ channel_mask h' = channel_mask h /\
   channel_set_num h' = channel_set_num h /\ framerate h' = framerate h /\
   bits_per_sample h' = bits_per_sample h /\ size (ringbuf h') = size (ringbuf h)) /\
  pwm_audio_stop h' = (ESP_OK, h') /\
  (forall r, fst (pwm_audio_start r h') = r /\
             status (snd (pwm_audio_start r h')) = PWM_AUDIO_STATUS_BUSY).
Proof.
  intros Hs h'. unfold h', pwm_audio_stop. cbn.
  unfold rb_contents, rb_get_free, rb_get_count. cbn.
  change (u32 (0 - 0)) with 0. rewrite Z.sub_0_r.
  assert (Hu : u32 (u32 (size (ringbuf h)) - 1) = size (ringbuf h) - 1)
    by (u32_small; reflexivity).
  rewrite Hu. repeat split.
Qed.

Lemma stop_flushes_witness :
  let h := handle (demo_session (demo_rb_with [1; 2; 3; 4; 5]) 10 3 2 16
                                PWM_AUDIO_STATUS_BUSY) in
  0 < size (ringbuf h) < 2^32 /\
  rb_get_count (ringbuf h) = 5 /\
  rb_get_count (ringbuf (snd (pwm_audio_stop h))) = 0 /\
  status (snd (pwm_audio_stop h)) = PWM_AUDIO_STATUS_IDLE.
Proof.
  intros h.
  assert (Hs : 0 < size (ringbuf h) < 2^32) by (cbn; lia).
  split; [exact Hs|]. split; [reflexivity|].
  destruct (stop_flushes h Hs) as (_ & Hst & Hc & _).
  split; [exact Hc|exact Hst].
Defined.

(** ** Parameter setters *)

(** X6. [pwm_audio_set_param] accepts exactly: a session that is not
    busy, a rate from 8000 to 48000 inclusive, 8, 16 or 32 bits, and 1 or
    2 channels.  An accepted call stores the three values and nothing
    else; a refused call returns [ESP_ERR_INVALID_ARG] and leaves the
    handle as it was. *)
Theorem set_param_accepts (rate bits ch : Z) (h : pwm_audio_handle) :
  let r := pwm_audio_set_param rate bits ch h in
  (fst r = ESP_OK <->
   status h <> PWM_AUDIO_STATUS_BUSY /\ 8000 <= rate <= 48000 /\
   (bits = 8 \/ bits = 16 \/ bits = 32) /\ (ch = 1 \/ ch = 2)) /\
  (fst r = ESP_OK ->
   framerate (snd r) = rate /\ bits_per_sample (snd r) = bits /\
   channel_set_num (snd r) = ch /\
   duty_resolution (snd r) = duty_resolution h /\
   channel_mask (snd r) = channel_mask h /\
   ringbuf (snd r) = ringbuf h /\ status (snd r) = status h) /\
  (fst r <> ESP_OK -> r = (ESP_ERR_INVALID_ARG, h)).
Proof.
  cbv zeta. unfold pwm_audio_set_param, SAMPLE_RATE_MAX, SAMPLE_RATE_MIN.
  destruct (status_eqb (status h) PWM_AUDIO_STATUS_BUSY) eqn:Eb; cbn [negb].
  { assert (Hbusy : status h = PWM_AUDIO_STATUS_BUSY)
      by (destruct (status h); try discriminate; reflexivity).
    split; [split; [discriminate|intros (Hc & _); contradiction]|].
    split; [discriminate|reflexivity]. }
  assert (Hidle : status h <> PWM_AUDIO_STATUS_BUSY)
    by (intros E; rewrite E in Eb; discriminate).
  destruct ((rate <=? 48000) && (rate >=? 8000)) eqn:Er; cbn [negb].
  2:{ apply andb_false_iff in Er. rewrite Z.leb_gt, Z.geb_leb, Z.leb_gt in Er.
      split; [split; [discriminate|intros (_ & Hr & _); lia]|].
      split; [discriminate|reflexivity]. }
  apply andb_true_iff in Er. rewrite Z.leb_le, Z.geb_leb, Z.leb_le in Er.
  destruct ((bits =? 32) || (bits =? 16) || (bits =? 8)) eqn:Ebits; cbn [negb].
  2:{ rewrite !orb_false_iff, !Z.eqb_neq in Ebits.
      split; [split; [discriminate|intros (_ & _ & Hb & _); lia]|].
      split; [discriminate|reflexivity]. }
  rewrite !orb_true_iff, !Z.eqb_eq in Ebits.
  destruct ((ch <=? 2) && (ch >=? 1)) eqn:Ech; cbn [negb].
  2:{ apply andb_false_iff in Ech. rewrite Z.leb_gt, Z.geb_leb, Z.leb_gt in Ech.
      split; [split; [discriminate|intros (_ & _ & _ & Hc); lia]|].
      split; [discriminate|reflexivity]. }
  apply andb_true_iff in Ech. rewrite Z.leb_le, Z.geb_leb, Z.leb_le in Ech.
  split; [split; [intros _|reflexivity]|].
  - repeat split; try assumption; try lia.
  - split; [intros _; cbn; repeat split|intros Hne; exfalso; apply Hne; reflexivity].
Qed.

Lemma set_param_accepts_witness :
  let h := handle (demo_session demo_rb 10 3 2 16 PWM_AUDIO_STATUS_IDLE) in
  fst (pwm_audio_set_param 48000 32 1 h) = ESP_OK /\
  pwm_audio_set_param 48001 32 1 h = (ESP_ERR_INVALID_ARG, h) /\
  framerate (snd (pwm_audio_set_param 8000 8 2 h)) = 8000.
Proof.
  intros h. split; [reflexivity|]. split.
  - apply (proj2 (proj2 (set_param_accepts 48001 32 1 h))). discriminate.
  - apply (proj1 (proj2 (set_param_accepts 8000 8 2 h))). reflexivity.
Defined.

(** X7. [pwm_audio_set_sample_rate] refuses a busy session and a rate
    outside 8000..48000 with [ESP_ERR_INVALID_ARG], changing nothing.
    Otherwise it stores the rate before it programs the timer and returns
    what the timer driver returns: the new rate is kept even when the
    driver reports an error.  Nothing but [framerate] changes. *)
Theorem set_sample_rate_commits (timer_res : esp_err_t) (rate : Z)
    (h : pwm_audio_handle) :
  let r := pwm_audio_set_sample_rate timer_res rate h in
  (status h = PWM_AUDIO_STATUS_BUSY \/ rate < 8000 \/ 48000 < rate ->
   r = (ESP_ERR_INVALID_ARG, h)) /\
  (status h <> PWM_AUDIO_STATUS_BUSY -> 8000 <= rate <= 48000 ->
   fst r = timer_res /\ framerate (snd r) = rate /\
   bits_per_sample (snd r) = bits_per_sample h /\
   channel_set_num (snd r) = channel_set_num h /\
   duty_resolution (snd r) = duty_resolution h /\
   channel_mask (snd r) = channel_mask h /\
   ringbuf (snd r) = ringbuf h /\ status (snd r) = status h).
Proof.
  cbv zeta. unfold pwm_audio_set_sample_rate, SAMPLE_RATE_MAX, SAMPLE_RATE_MIN.
  destruct (status_eqb (status h) PWM_AUDIO_STATUS_BUSY) eqn:Eb; cbn [negb].
  { assert (Hbusy : status h = PWM_AUDIO_STATUS_BUSY)
      by (destruct (status h); try discriminate; reflexivity).
    split; [reflexivity|intros Hc; contradiction]. }
  assert (Hidle : status h <> PWM_AUDIO_STATUS_BUSY)
    by (intros E; rewrite E in Eb; discriminate).
  destruct ((rate <=? 48000) && (rate >=? 8000)) eqn:Er; cbn [negb].
  - apply andb_true_iff in Er. rewrite Z.leb_le, Z.geb_leb, Z.leb_le in Er.
    split; [intros [Hc|Hc]; [contradiction|lia]|].
    intros _ _. cbn. repeat split.
  - apply andb_false_iff in Er. rewrite Z.leb_gt, Z.geb_leb, Z.leb_gt in Er.
    split; [reflexivity|intros _ Hr; lia].
Qed.

Lemma set_sample_rate_commits_witness :
  let h := handle (demo_session demo_rb 10 3 2 16 PWM_AUDIO_STATUS_IDLE) in
  (status h <> PWM_AUDIO_STATUS_BUSY /\ 8000 <= 22050 <= 48000) /\
  fst (pwm_audio_set_sample_rate ESP_FAIL 22050 h) = ESP_FAIL /\
  framerate (snd (pwm_audio_set_sample_rate ESP_FAIL 22050 h)) = 22050.
Proof.
  intros h.
  assert (H1 : status h <> PWM_AUDIO_STATUS_BUSY) by discriminate.
  assert (H2 : 8000 <= 22050 <= 48000) by lia.
  split; [auto|].
  destruct (proj2 (set_sample_rate_commits ESP_FAIL 22050 h) H1 H2) as (Hr & Hf & _).
  split; [exact Hr|exact Hf].
Defined.

(** ** What one handler run does *)

Lemma reads_ok_app a b : reads_ok (a ++ b) = (reads_ok a + reads_ok b)%nat.
Proof.
  induction a as [|[[]| | | | | | |] a IH]; cbn [reads_ok app]; rewrite ?IH; reflexivity.
Qed.

Lemma metered_weaken {A} k k' (m : M A) : (k <= k')%nat -> metered k m -> metered k' m.
Proof. intros Hk H s. destruct (H s) as [H1 H2]. split; [lia|exact H2]. Qed.

Lemma metered_ret {A} (a : A) : metered 0 (ret a).
Proof. intros s. split; [reflexivity|intros H; split; [exact H|cbn; lia]]. Qed.

Lemma metered_gets {A} (f : session -> A) : metered 0 (gets f).
Proof. intros s. split; [reflexivity|intros H; split; [exact H|cbn; lia]]. Qed.

Lemma metered_bind {A B} k1 k2 (m : M A) (k : A -> M B) :
  metered k1 m -> (forall a, metered k2 (k a)) -> metered (k1 + k2) (bind m k).
Proof.
  intros Hm Hk s. rewrite bind_final, bind_events, reads_app, reads_ok_app.
  destruct (Hm s) as [R1 F1].
  destruct (Hk (result (m s)) (final (m s))) as [R2 F2].
  split; [lia|]. intros Hidx.
  destruct (F1 Hidx) as [I1 E1]. destruct (F2 I1) as [I2 E2].
  split; [exact I2|lia].
Qed.

Lemma metered_if {A} k (c : bool) (m1 m2 : M A) :
  metered k m1 -> metered k m2 -> metered k (if c then m1 else m2).
Proof. destruct c; auto. Qed.

Lemma metered_read_wave_h : metered 1 read_wave_h.
Proof.
  intros s. rewrite read_wave_h_cases.
  destruct (Z.eqb_spec (tail (rb_of s)) (head (rb_of s))) as [E|E].
  - split; [cbn; lia|intros H; split; [exact H|cbn; lia]].
  - split; [cbn; lia|]. intros H. unfold final, events. cbn [fst snd reads_ok].
    change (rb_of (with_wave_h (with_rb s (rb_pop (rb_of s))) (rb_front (rb_of s))))
      with (rb_pop (rb_of s)).
    destruct (rb_pop_idx _ H E) as [H1 H2]. split; [exact H1|lia].
Qed.

Lemma metered_read_wave_l : metered 1 read_wave_l.
Proof.
  intros s. rewrite read_wave_l_cases.
  destruct (Z.eqb_spec (tail (rb_of s)) (head (rb_of s))) as [E|E].
  - split; [cbn; lia|intros H; split; [exact H|cbn; lia]].
  - split; [cbn; lia|]. intros H. unfold final, events. cbn [fst snd reads_ok].
    change (rb_of (with_wave_l (with_rb s (rb_pop (rb_of s))) (rb_front (rb_of s))))
      with (rb_pop (rb_of s)).
    destruct (rb_pop_idx _ H E) as [H1 H2]. split; [exact H1|lia].
Qed.

Lemma metered_combine_value : metered 0 combine_value.
Proof.
  intros s. split; [reflexivity|intros H; split; [exact H|]].
  change (rb_get_free (rb_of s) = rb_get_free (rb_of s) + 0). lia.
Qed.

Lemma metered_left_duty v : metered 0 (ledc_set_left_duty_fast v).
Proof.
  intros s. split; [reflexivity|intros H; split; [exact H|]].
  change (rb_get_free (rb_of s) = rb_get_free (rb_of s) + 0). lia.
Qed.

Lemma metered_right_duty v : metered 0 (ledc_set_right_duty_fast v).
Proof.
  intros s. split; [reflexivity|intros H; split; [exact H|]].
  change (rb_get_free (rb_of s) = rb_get_free (rb_of s) + 0). lia.
Qed.

Lemma metered_after_read {B} (k : esp_err_t -> M B) (m : M esp_err_t) n :
  metered 1 m -> (forall a, metered n (k a)) -> metered (S n) (bind m k).
Proof. intros H1 H2. apply (metered_bind 1 n); assumption. Qed.

Lemma metered_after_unit {A B} (k : A -> M B) (m : M A) n :
  metered 0 m -> (forall a, metered n (k a)) -> metered n (bind m k).
Proof. intros H1 H2. apply (metered_bind 0 n); assumption. Qed.

Lemma metered_isr_left : metered 2 isr_left.
Proof.
  unfold isr_left. apply metered_after_unit; [apply metered_gets|intros h].
  apply metered_if; [apply metered_if|apply (metered_weaken 0); [lia|apply metered_ret]].
  - apply metered_after_read; [apply metered_read_wave_l|intros _].
    apply metered_after_read; [apply metered_read_wave_h|intros r].
    apply metered_if; [|apply metered_ret].
    apply metered_after_unit; [apply metered_combine_value|intros _].
    apply metered_after_unit; [apply metered_gets|intros v]. apply metered_left_duty.
  - apply (metered_weaken 1); [lia|].
    apply (metered_bind 1 0); [apply metered_read_wave_h|intros r].
    apply metered_if; [|apply metered_ret].
    apply metered_after_unit; [apply metered_gets|intros v]. apply metered_left_duty.
Qed.

Lemma metered_isr_right : metered 3 isr_right.
Proof.
  unfold isr_right. apply metered_after_unit; [apply metered_gets|intros h].
  apply metered_if; [apply metered_if; [apply metered_if|apply metered_if]|apply metered_if].
  - apply (metered_weaken 0); [lia|].
    apply metered_after_unit; [apply metered_gets|intros v]. apply metered_right_duty.
  - apply (metered_weaken 0); [lia|].
    apply metered_after_unit; [apply metered_gets|intros v]. apply metered_right_duty.
  - apply (metered_weaken 2); [lia|].
    apply metered_after_read; [apply metered_read_wave_l|intros _].
    apply metered_after_read; [apply metered_read_wave_h|intros r].
    apply metered_if; [|apply metered_ret].
    apply metered_after_unit; [apply metered_combine_value|intros _].
    apply metered_after_unit; [apply metered_gets|intros v]. apply metered_right_duty.
  - apply (metered_weaken 1); [lia|].
    apply (metered_bind 1 0); [apply metered_read_wave_h|intros r].
    apply metered_if; [|apply metered_ret].
    apply metered_after_unit; [apply metered_gets|intros v]. apply metered_right_duty.
  - apply (metered_bind 2 1).
    + apply metered_if.
      * apply metered_after_read; [apply metered_read_wave_h|intros _].
        apply (metered_bind 1 0); [apply metered_read_wave_h|intros _; apply metered_ret].
      * apply (metered_weaken 1); [lia|].
        apply (metered_bind 1 0); [apply metered_read_wave_h|intros _; apply metered_ret].
    + intros _. apply (metered_bind 1 0); [apply metered_read_wave_l|intros _; apply metered_ret].
  - apply (metered_weaken 0); [lia|apply metered_ret].
Qed.

(** X8. One run of the interrupt handler acts on the consumer side only:
    the configuration, the status, [head], [size] and the storage are
    untouched and no byte is written.  On a buffer that satisfies the
    invariant it keeps the invariant, issues at most five reads, and frees
    exactly one byte per successful read, so the free space never
    shrinks. *)
Theorem isr_only_consumes (s : session) :
  let r := isr_body s in
  (duty_resolution (handle (final r)) = duty_resolution (handle s) /\
   channel_mask (handle (final r)) = channel_mask (handle s) /\
   channel_set_num (handle (final r)) = channel_set_num (handle s) /\
   framerate (handle (final r)) = framerate (handle s) /\
   bits_per_sample (handle (final r)) = bits_per_sample (handle s) /\
   status (handle (final r)) = status (handle s)) /\
  (head (rb_of (final r)) = head (rb_of s) /\
   size (rb_of (final r)) = size (rb_of s) /\
   buf (rb_of (final r)) = buf (rb_of s)) /\
  write_results (events r) = [] /\
  (reads (events r) <= 5)%nat /\
  (rb_ok (rb_of s) ->
   rb_ok (rb_of (final r)) /\
   rb_get_free (rb_of (final r))
   = rb_get_free (rb_of s) + Z.of_nat (reads_ok (events r))).
Proof.
  intros r. unfold r.
  destruct (consumer_channels s) as [Hc He].
  destruct (metered_bind 2 3 isr_left (fun _ => isr_right) metered_isr_left
              (fun _ => metered_isr_right) s) as [Hr Hf].
  rewrite isr_body_split, prepend_final, prepend_events.
  set (s2 := final ((isr_left >> isr_right) s)) in *.
  set (e2 := events ((isr_left >> isr_right) s)) in *.
  assert (Hsig : (final (isr_signal s2) = s2 \/
                  final (isr_signal s2)
                  = with_rb s2 (set_semaphore (set_is_give (rb_of s2) 1) true)) /\
                 (events (isr_signal s2) = [] \/ events (isr_signal s2) = [EvGuard; EvGive])).
  { rewrite isr_signal_run. destruct (_ && _); cbn; auto. }
  destruct Hsig as [Hfin Hev].
  assert (Hrb : head (rb_of (final (isr_signal s2))) = head (rb_of s2) /\
                size (rb_of (final (isr_signal s2))) = size (rb_of s2) /\
                buf (rb_of (final (isr_signal s2))) = buf (rb_of s2) /\
                tail (rb_of (final (isr_signal s2))) = tail (rb_of s2) /\
                handle (final (isr_signal s2))
                = set_ringbuf (handle s2) (rb_of (final (isr_signal s2)))).
  { destruct Hfin as [->| ->]; cbn; repeat split. destruct s2 as [[] ? ? ? ? ?]. reflexivity. }
  destruct Hrb as (Hh & Hs & Hb & Ht & Hhd).
  assert (Hevs : write_results (events (isr_signal s2)) = [] /\
                 reads (events (isr_signal s2)) = 0%nat /\
                 reads_ok (events (isr_signal s2)) = 0%nat).
  { destruct Hev as [->| ->]; cbn; auto. }
  destruct Hevs as (Hw & Hrd & Hrok).
  split; [|split; [|split; [|split]]].
  - rewrite Hhd. cbn. repeat split; apply Hc.
  - rewrite Hh, Hs, Hb. repeat split; apply Hc.
  - rewrite write_results_app, Hw, (write_results_consumer _ He). reflexivity.
  - rewrite reads_app, Hrd. lia.
  - intros Hok. destruct (Hf (rb_ok_idx _ Hok)) as [Hi2 Hfree].
    assert (Hfs : rb_get_free (rb_of (final (isr_signal s2))) = rb_get_free (rb_of s2)).
    { unfold rb_get_free, rb_get_count. rewrite Hh, Hs, Ht. reflexivity. }
    split.
    + split; rewrite ?Hh, ?Hs, ?Ht, ?Hb; try apply Hi2.
      rewrite (cons_buf _ _ Hc), (cons_size _ _ Hc). apply Hok.
    + rewrite Hfs, Hfree, reads_ok_app, Hrok. lia.
Qed.

Lemma isr_only_consumes_witness :
  let s := demo_session (demo_rb_with [1; 2; 3]) 10 3 2 16 PWM_AUDIO_STATUS_BUSY in
  rb_ok (rb_of s) /\
  rb_get_free (rb_of (final (isr_body s))) = rb_get_free (rb_of s) + 3.
Proof.
  intros s.
  assert (Hok : rb_ok (rb_of s)) by (split; cbn; lia).
  split; [exact Hok|].
  destruct (isr_only_consumes s) as (_ & _ & _ & _ & H).
  destruct (H Hok) as [_ Hf]. exact Hf.
Defined.

(** ** Underrun and the regular frame *)

(** X9. Underrun.  On an empty ring buffer, unless a mono source is
    upmixed onto an enabled right output, the handler delivers no duty
    value: both outputs' registers, the three statics and the buffer
    indices stay as they are, every read it issues fails, and the run ends
    like the signalling step alone. *)
Theorem isr_underrun_silent (s : session) :
  tail (rb_of s) = head (rb_of s) ->
  Z.land (channel_mask (handle s)) CHANNEL_RIGHT_MASK = 0 \/
  channel_set_num (handle s) <> 1 ->
  let r := isr_body s in
  left_duties (events r) = [] /\ right_duties (events r) = [] /\
  reads_ok (events r) = 0%nat /\
  final r = final (isr_signal s) /\
  ledc_left (final r) = ledc_left s /\ ledc_right (final r) = ledc_right s /\
  wave_h (final r) = wave_h s /\ wave_l (final r) = wave_l s /\
  value (final r) = value s /\
  tail (rb_of (final r)) = tail (rb_of s) /\ head (rb_of (final r)) = head (rb_of s).
Proof.
  intros He Hcfg. apply Z.eqb_eq in He.
  assert (Hsig : forall x, x = final (isr_signal s) ->
            ledc_left x = ledc_left s /\ ledc_right x = ledc_right s /\
            wave_h x = wave_h s /\ wave_l x = wave_l s /\ value x = value s /\
            tail (rb_of x) = tail (rb_of s) /\ head (rb_of x) = head (rb_of s)).
  { intros x ->. rewrite isr_signal_run. destruct (_ && _); cbn; repeat split. }
  assert (Hse : left_duties (events (isr_signal s)) = [] /\
                right_duties (events (isr_signal s)) = [] /\
                reads_ok (events (isr_signal s)) = 0%nat).
  { rewrite isr_signal_run. destruct (_ && _); cbn; auto. }
  destruct Hse as (Hs1 & Hs2 & Hs3).
  cbv zeta.
  assert (Hmain : final (isr_body s) = final (isr_signal s) /\
                  left_duties (events (isr_body s)) = [] /\
                  right_duties (events (isr_body s)) = [] /\
                  reads_ok (events (isr_body s)) = 0%nat).
  { unfold isr_body, isr_left, isr_right.
    destruct Hcfg as [Hm|Hn].
    - apply Z.eqb_eq in Hm. apply (f_equal negb) in Hm. cbn [negb] in Hm.
      mrun; rewrite ?prepend_final, ?prepend_events;
        cbn [left_duties right_duties reads_ok app]; auto.
    - apply Z.eqb_neq in Hn.
      mrun; rewrite ?prepend_final, ?prepend_events;
        cbn [left_duties right_duties reads_ok app]; auto. }
  destruct Hmain as (Hf & Hl & Hr & Hk).
  rewrite Hl, Hr, Hk. repeat split; try reflexivity; try exact Hf;
    apply (Hsig _ Hf).
Qed.

Lemma isr_underrun_silent_witness :
  let s := demo_session demo_rb 10 3 2 16 PWM_AUDIO_STATUS_BUSY in
  (tail (rb_of s) = head (rb_of s) /\ channel_set_num (handle s) <> 1) /\
  left_duties (events (isr_body s)) = [] /\
  right_duties (events (isr_body s)) = [] /\
  ledc_left (final (isr_body s)) = ledc_left s.
Proof.
  intros s.
  assert (H1 : tail (rb_of s) = head (rb_of s)) by reflexivity.
  assert (H2 : channel_set_num (handle s) <> 1) by (cbn; discriminate).
  split; [auto|].
  destruct (isr_underrun_silent s H1 (or_intror H2)) as (Hl & Hr & _ & _ & Hreg & _).
  auto.
Defined.

Lemma rb_contents_bytes rb : Forall (fun b => 0 <= b < 2^8) (rb_contents rb).
Proof.
  unfold rb_contents. apply Forall_forall. intros b Hb.
  apply list_elem_of_In, in_map_iff in Hb. destruct Hb as (i & <- & _).
  unfold rb_cell, u8. apply Z.mod_pos_bound. lia.
Qed.

Lemma read_wave_h_front s x rest :
  rb_ok (rb_of s) -> rb_contents (rb_of s) = x :: rest ->
  read_wave_h s = (ESP_OK, with_wave_h (with_rb s (rb_pop (rb_of s))) x, [EvRead ESP_OK]) /\
  rb_ok (rb_pop (rb_of s)) /\ rb_contents (rb_pop (rb_of s)) = rest.
Proof.
  intros Hok Hc. pose proof (rb_contents_nonempty _ _ _ Hc) as Hne.
  destruct (rb_pop_contents _ Hok Hne) as [Hok' Hc']. rewrite Hc in Hc'.
  injection Hc' as Hx Hrest.
  rewrite read_wave_h_cases. apply Z.eqb_neq in Hne. rewrite Hne, <- Hx. auto.
Qed.

Lemma read_wave_l_front s x rest :
  rb_ok (rb_of s) -> rb_contents (rb_of s) = x :: rest ->
  read_wave_l s = (ESP_OK, with_wave_l (with_rb s (rb_pop (rb_of s))) x, [EvRead ESP_OK]) /\
  rb_ok (rb_pop (rb_of s)) /\ rb_contents (rb_pop (rb_of s)) = rest.
Proof.
  intros Hok Hc. pose proof (rb_contents_nonempty _ _ _ Hc) as Hne.
  destruct (rb_pop_contents _ Hok Hne) as [Hok' Hc']. rewrite Hc in Hc'.
  injection Hc' as Hx Hrest.
  rewrite read_wave_l_cases. apply Z.eqb_neq in Hne. rewrite Hne, <- Hx. auto.
Qed.

Lemma duty_register v : 0 <= v < 2^16 -> u32 (Z.shiftl (u32 v) 4) = 16 * v.
Proof.
  intros H. unfold u32. rewrite (Z.mod_small v) by lia.
  rewrite Z.shiftl_mul_pow2 by lia. change (2^4) with 16.
  rewrite Z.mod_small by lia. lia.
Qed.

(** The four shapes of a channel read on a buffer that holds the bytes. *)
Lemma isr_left_wide s l0 l1 rest :
  Z.land (channel_mask (handle s)) CHANNEL_LEFT_MASK <> 0 ->
  duty_resolution (handle s) > 8 ->
  rb_ok (rb_of s) -> rb_contents (rb_of s) = l0 :: l1 :: rest ->
  let v := u16 (Z.lor (Z.shiftl l1 8) l0) in
  let rb2 := rb_pop (rb_pop (rb_of s)) in
  isr_left s =
    (tt,
     with_left (with_value (with_wave_h (with_wave_l (with_rb s rb2) l0) l1) v)
               (ledc_set_duty_fast v (ledc_left s)),
     [EvRead ESP_OK; EvRead ESP_OK; EvLeftDuty v]) /\
  rb_ok rb2 /\ rb_contents rb2 = rest.
Proof.
  intros Hm Hd Hok Hc v rb2. apply Z.eqb_neq in Hm. apply Z.gtb_gt in Hd.
  destruct (read_wave_l_front s l0 (l1 :: rest) Hok Hc) as (R1 & Hok1 & Hc1).
  set (s1 := with_wave_l (with_rb s (rb_pop (rb_of s))) l0) in *.
  destruct (read_wave_h_front s1 l1 rest Hok1 Hc1) as (R2 & Hok2 & Hc2).
  split; [|split; [exact Hok2|exact Hc2]].
  unfold isr_left. rewrite bind_gets, Hm, Hd. cbn [negb].
  rewrite (bind_known _ _ _ _ _ _ R1), (bind_known _ _ _ _ _ _ R2).
  cbn [esp_err_eqb]. rewrite bind_combine_value, bind_gets. reflexivity.
Qed.

Lemma isr_left_narrow s l rest :
  Z.land (channel_mask (handle s)) CHANNEL_LEFT_MASK <> 0 ->
  duty_resolution (handle s) <= 8 ->
  rb_ok (rb_of s) -> rb_contents (rb_of s) = l :: rest ->
  let rb1 := rb_pop (rb_of s) in
  isr_left s =
    (tt, with_left (with_wave_h (with_rb s rb1) l) (ledc_set_duty_fast l (ledc_left s)),
     [EvRead ESP_OK; EvLeftDuty l]) /\
  rb_ok rb1 /\ rb_contents rb1 = rest.
Proof.
  intros Hm Hd Hok Hc rb1. apply Z.eqb_neq in Hm.
  assert (Hd' : (duty_resolution (handle s) >? 8) = false)
    by (destruct (Z.gtb_spec (duty_resolution (handle s)) 8); [lia|reflexivity]).
  destruct (read_wave_h_front s l rest Hok Hc) as (R1 & Hok1 & Hc1).
  split; [|split; [exact Hok1|exact Hc1]].
  unfold isr_left. rewrite bind_gets, Hm, Hd'. cbn [negb].
  rewrite (bind_known _ _ _ _ _ _ R1). cbn [esp_err_eqb]. rewrite bind_gets. reflexivity.
Qed.

Lemma isr_right_wide s r0 r1 rest :
  Z.land (channel_mask (handle s)) CHANNEL_RIGHT_MASK <> 0 ->
  channel_set_num (handle s) <> 1 ->
  duty_resolution (handle s) > 8 ->
  rb_ok (rb_of s) -> rb_contents (rb_of s) = r0 :: r1 :: rest ->
  let v := u16 (Z.lor (Z.shiftl r1 8) r0) in
  let rb2 := rb_pop (rb_pop (rb_of s)) in
  isr_right s =
    (tt,
     with_right (with_value (with_wave_h (with_wave_l (with_rb s rb2) r0) r1) v)
                (ledc_set_duty_fast v (ledc_right s)),
     [EvRead ESP_OK; EvRead ESP_OK; EvRightDuty v]) /\
  rb_ok rb2 /\ rb_contents rb2 = rest.
Proof.
  intros Hm Hn Hd Hok Hc v rb2.
  apply Z.eqb_neq in Hm, Hn. apply Z.gtb_gt in Hd.
  destruct (read_wave_l_front s r0 (r1 :: rest) Hok Hc) as (R1 & Hok1 & Hc1).
  set (s1 := with_wave_l (with_rb s (rb_pop (rb_of s))) r0) in *.
  destruct (read_wave_h_front s1 r1 rest Hok1 Hc1) as (R2 & Hok2 & Hc2).
  split; [|split; [exact Hok2|exact Hc2]].
  unfold isr_right. rewrite bind_gets, Hm, Hn, Hd. cbn [negb].
  rewrite (bind_known _ _ _ _ _ _ R1), (bind_known _ _ _ _ _ _ R2).
  cbn [esp_err_eqb]. rewrite bind_combine_value, bind_gets. reflexivity.
Qed.

Lemma isr_right_narrow s r rest :
  Z.land (channel_mask (handle s)) CHANNEL_RIGHT_MASK <> 0 ->
  channel_set_num (handle s) <> 1 ->
  duty_resolution (handle s) <= 8 ->
  rb_ok (rb_of s) -> rb_contents (rb_of s) = r :: rest ->
  let rb1 := rb_pop (rb_of s) in
  isr_right s =
    (tt, with_right (with_wave_h (with_rb s rb1) r) (ledc_set_duty_fast r (ledc_right s)),
     [EvRead ESP_OK; EvRightDuty r]) /\
  rb_ok rb1 /\ rb_contents rb1 = rest.
Proof.
  intros Hm Hn Hd Hok Hc rb1. apply Z.eqb_neq in Hm, Hn.
  assert (Hd' : (duty_resolution (handle s) >? 8) = false)
    by (destruct (Z.gtb_spec (duty_resolution (handle s)) 8); [lia|reflexivity]).
  destruct (read_wave_h_front s r rest Hok Hc) as (R1 & Hok1 & Hc1).
  split; [|split; [exact Hok1|exact Hc1]].
  unfold isr_right. rewrite bind_gets, Hm, Hn, Hd'. cbn [negb].
  rewrite (bind_known _ _ _ _ _ _ R1). cbn [esp_err_eqb]. rewrite bind_gets. reflexivity.
Qed.

Lemma isr_signal_contents s :
  rb_contents (rb_of (final (isr_signal s))) = rb_contents (rb_of s) /\
  ledc_left (final (isr_signal s)) = ledc_left s /\
  ledc_right (final (isr_signal s)) = ledc_right s /\
  left_duties (events (isr_signal s)) = [] /\
  right_duties (events (isr_signal s)) = [].
Proof. rewrite isr_signal_run. destruct (_ && _); cbn; auto. Qed.

Lemma isr_body_known s s1 e1 s2 e2 :
  isr_left s = (tt, s1, e1) -> isr_right s1 = (tt, s2, e2) ->
  final (isr_body s) = final (isr_signal s2) /\
  events (isr_body s) = e1 ++ e2 ++ events (isr_signal s2).
Proof.
  intros H1 H2. rewrite isr_body_final, isr_body_events, H1.
  change (final (tt, s1, e1)) with s1. change (events (tt, s1, e1)) with e1.
  rewrite H2.
  change (final (tt, s2, e2)) with s2. change (events (tt, s2, e2)) with e2.
  auto.
Qed.

(** X10. The regular stereo frame.  With both outputs enabled and a
    stereo source, on a buffer that holds a whole frame: at a duty
    resolution above 8 the handler takes four bytes, delivers
    [(b1 << 8) | b0] to the left and [(b3 << 8) | b2] to the right output;
    at a resolution up to 8 it takes two bytes and delivers the first to
    the left and the second to the right.  The rest of the queue stays, and
    each duty register ends up holding sixteen times the delivered
    value. *)
Theorem isr_stereo_frame (s : session) :
  Z.land (channel_mask (handle s)) CHANNEL_LEFT_MASK <> 0 ->
  Z.land (channel_mask (handle s)) CHANNEL_RIGHT_MASK <> 0 ->
  channel_set_num (handle s) <> 1 ->
  rb_ok (rb_of s) ->
  let r := isr_body s in
  (duty_resolution (handle s) > 8 ->
   forall b0 b1 b2 b3 rest,
     rb_contents (rb_of s) = b0 :: b1 :: b2 :: b3 :: rest ->
     let vl := u16 (Z.lor (Z.shiftl b1 8) b0) in
     let vr := u16 (Z.lor (Z.shiftl b3 8) b2) in
     left_duties (events r) = [vl] /\ right_duties (events r) = [vr] /\
     rb_contents (rb_of (final r)) = rest /\
     duty_val (ledc_left (final r)) = 16 * vl /\
     duty_val (ledc_right (final r)) = 16 * vr) /\
  (duty_resolution (handle s) <= 8 ->
   forall b0 b1 rest,
     rb_contents (rb_of s) = b0 :: b1 :: rest ->
     left_duties (events r) = [b0] /\ right_duties (events r) = [b1] /\
     rb_contents (rb_of (final r)) = rest /\
     duty_val (ledc_left (final r)) = 16 * b0 /\
     duty_val (ledc_right (final r)) = 16 * b1).
Proof.
  intros Hl Hr Hn Hok r. split.
  - intros Hd b0 b1 b2 b3 rest Hc vl vr.
    destruct (isr_left_wide s b0 b1 (b2 :: b3 :: rest) Hl Hd Hok Hc) as (E1 & Hok1 & Hc1).
    cbv zeta in E1. fold vl in E1.
    match type of E1 with _ = (_, ?x, _) => set (s1 := x) in * end.
    destruct (isr_right_wide s1 b2 b3 rest Hr Hn Hd Hok1 Hc1) as (E2 & Hok2 & Hc2).
    cbv zeta in E2. fold vr in E2.
    match type of E2 with _ = (_, ?x, _) => set (s2 := x) in * end.
    destruct (isr_body_known s s1 _ s2 _ E1 E2) as [Hf He].
    destruct (isr_signal_contents s2) as (Sc & Sl & Sr & Sel & Ser).
    unfold r. rewrite Hf, He, !left_duties_app, !right_duties_app, Sel, Ser, Sc, Sl, Sr.
    assert (Hvl : 0 <= vl < 2^16) by (apply Z.mod_pos_bound; lia).
    assert (Hvr : 0 <= vr < 2^16) by (apply Z.mod_pos_bound; lia).
    cbn [left_duties right_duties app]. repeat split; try exact Hc2.
    + cbn. apply duty_register. exact Hvl.
    + cbn. apply duty_register. exact Hvr.
  - intros Hd b0 b1 rest Hc.
    pose proof (rb_contents_bytes (rb_of s)) as Hb. rewrite Hc in Hb.
    apply Forall_cons in Hb as [Hb0 Hb]. apply Forall_cons in Hb as [Hb1 _].
    destruct (isr_left_narrow s b0 (b1 :: rest) Hl Hd Hok Hc) as (E1 & Hok1 & Hc1).
    cbv zeta in E1.
    match type of E1 with _ = (_, ?x, _) => set (s1 := x) in * end.
    destruct (isr_right_narrow s1 b1 rest Hr Hn Hd Hok1 Hc1) as (E2 & Hok2 & Hc2).
    cbv zeta in E2.
    match type of E2 with _ = (_, ?x, _) => set (s2 := x) in * end.
    destruct (isr_body_known s s1 _ s2 _ E1 E2) as [Hf He].
    destruct (isr_signal_contents s2) as (Sc & Sl & Sr & Sel & Ser).
    unfold r. rewrite Hf, He, !left_duties_app, !right_duties_app, Sel, Ser, Sc, Sl, Sr.
    cbn [left_duties right_duties app]. repeat split; try exact Hc2.
    + cbn. apply duty_register. lia.
    + cbn. apply duty_register. lia.
Qed.

Lemma isr_stereo_frame_witness :
  let s := demo_session (demo_rb_with [0x34; 0x02; 0xff; 0x03; 9])
                        10 3 2 16 PWM_AUDIO_STATUS_BUSY in
  (Z.land (channel_mask (handle s)) CHANNEL_LEFT_MASK <> 0 /\
   Z.land (channel_mask (handle s)) CHANNEL_RIGHT_MASK <> 0 /\
   channel_set_num (handle s) <> 1 /\ rb_ok (rb_of s) /\
   duty_resolution (handle s) > 8) /\
  left_duties (events (isr_body s)) = [0x234] /\
  right_duties (events (isr_body s)) = [0x3ff] /\
  rb_contents (rb_of (final (isr_body s))) = [9].
Proof.
  intros s.
  assert (H1 : Z.land (channel_mask (handle s)) CHANNEL_LEFT_MASK <> 0)
    by (vm_compute; discriminate).
  assert (H2 : Z.land (channel_mask (handle s)) CHANNEL_RIGHT_MASK <> 0)
    by (vm_compute; discriminate).
  assert (H3 : channel_set_num (handle s) <> 1) by (cbn; discriminate).
  assert (H4 : rb_ok (rb_of s)) by (split; cbn; lia).
  assert (H5 : duty_resolution (handle s) > 8) by (cbn; lia).
  split; [auto 10|].
  destruct (proj1 (isr_stereo_frame s H1 H2 H3 H4) H5 0x34 0x02 0xff 0x03 [9] eq_refl)
    as (Hl & Hr & Hc & _).
  auto.
Defined.

(** X11. A torn frame.  At a duty resolution above 8, when the buffer
    holds a single byte, the left path takes that byte into [wave_l], finds
    nothing for the high half and delivers no duty value: the byte is gone
    from the queue without having been played. *)
Theorem isr_left_swallows_lone_byte (s : session) (b : Z) :
  Z.land (channel_mask (handle s)) CHANNEL_LEFT_MASK <> 0 ->
  duty_resolution (handle s) > 8 ->
  rb_ok (rb_of s) -> rb_contents (rb_of s) = [b] ->
  let r := isr_left s in
  events r = [EvRead ESP_OK; EvRead ESP_FAIL] /\
  rb_contents (rb_of (final r)) = [] /\
  wave_l (final r) = b /\ wave_h (final r) = wave_h s /\ value (final r) = value s /\
  ledc_left (final r) = ledc_left s.
Proof.
  intros Hm Hd Hok Hc r. apply Z.eqb_neq in Hm. apply Z.gtb_gt in Hd.
  destruct (read_wave_l_front s b [] Hok Hc) as (R1 & Hok1 & Hc1).
  assert (He : tail (rb_pop (rb_of s)) = head (rb_pop (rb_of s))).
  { apply rb_empty_iff; [apply rb_ok_idx; exact Hok1|].
    pose proof (rb_contents_length (rb_pop (rb_of s))) as Hl. rewrite Hc1 in Hl.
    pose proof (rb_get_count_range _ (rb_ok_idx _ Hok1)). cbn in Hl. lia. }
  unfold r, isr_left. rewrite bind_gets, Hm, Hd. cbn [negb].
  rewrite (bind_known _ _ _ _ _ _ R1), bind_read_wave_h.
  change (rb_of (with_wave_l (with_rb s (rb_pop (rb_of s))) b)) with (rb_pop (rb_of s)).
  apply Z.eqb_eq in He. rewrite He. cbn [esp_err_eqb].
  unfold prepend, ret, events, final, result. cbn [fst snd app].
  repeat split. exact Hc1.
Qed.

Lemma isr_left_swallows_lone_byte_witness :
  let s := demo_session (demo_rb_with [0x55]) 10 1 1 16 PWM_AUDIO_STATUS_BUSY in
  (Z.land (channel_mask (handle s)) CHANNEL_LEFT_MASK <> 0 /\
   duty_resolution (handle s) > 8 /\ rb_ok (rb_of s) /\
   rb_contents (rb_of s) = [0x55]) /\
  events (isr_left s) = [EvRead ESP_OK; EvRead ESP_FAIL] /\
  rb_contents (rb_of (final (isr_left s))) = [].
Proof.
  intros s.
  assert (H1 : Z.land (channel_mask (handle s)) CHANNEL_LEFT_MASK <> 0)
    by (vm_compute; discriminate).
  assert (H2 : duty_resolution (handle s) > 8) by (cbn; lia).
  assert (H3 : rb_ok (rb_of s)) by (split; cbn; lia).
  assert (H4 : rb_contents (rb_of s) = [0x55]) by reflexivity.
  split; [auto 10|].
  destruct (isr_left_swallows_lone_byte s 0x55 H1 H2 H3 H4) as (He & Hc & _).
  auto.
Defined.
(** ** The wait of the producer *)

Lemma isr_body_free s :
  let s2 := final ((isr_left >> isr_right) s) in
  rb_get_free (rb_of (final (isr_body s))) = rb_get_free (rb_of s2).
Proof.
  intros s2. rewrite isr_body_split. fold s2. rewrite prepend_final, isr_signal_run.
  destruct (_ && _); reflexivity.
Qed.

Lemma xSemaphoreTake_pending n s :
  semaphore_rb (rb_of s) = true ->
  xSemaphoreTake n s = (true, with_rb s (set_semaphore (rb_of s) false), [EvTake true]).
Proof. intros H. destruct n; cbn [xSemaphoreTake]; rewrite H; reflexivity. Qed.

Lemma xSemaphoreTake_outcome n :
  forall s,
    rb_ok (rb_of s) -> semaphore_rb (rb_of s) = false -> is_give (rb_of s) = 0 ->
    let r := xSemaphoreTake n s in
    rb_ok (rb_of (final r)) /\ semaphore_rb (rb_of (final r)) = false /\
    (result r = true ->
       is_give (rb_of (final r)) = 1 /\ BUFFER_MIN_SIZE < rb_get_free (rb_of (final r))) /\
    (result r = false ->
       is_give (rb_of (final r)) = 0 /\
       (n <> 0%nat -> rb_get_free (rb_of (final r)) <= BUFFER_MIN_SIZE)) /\
    (n <> 0%nat -> BUFFER_MIN_SIZE < rb_get_free (rb_of s) -> result r = true).
Proof.
  induction n as [|n IH]; intros s Hok Hsem Hg; cbn [xSemaphoreTake]; rewrite Hsem.
  - unfold final, result. cbn [fst snd].
    split; [exact Hok|]. split; [exact Hsem|]. split; [discriminate|].
    split; [intros _; split; [exact Hg|congruence]|congruence].
  - rewrite bind_final, bind_result.
    destruct (isr_body_wake s) as (Hg2 & _ & _ & Hgive & Hs').
    pose proof (isr_body_free s) as Hfree.
    destruct (consumed_kept _ _ (proj1 (consumer_channels s))) as [_ _ _ _ _ _ K2].
    destruct (isr_body_kept s) as [[_ _ _ _ _ _ K] _].
    destruct (K Hok) as [Hok' Hle]. destruct (K2 Hok) as [_ Hle2].
    cbv zeta in Hg2, Hgive, Hs', Hfree.
    set (s2 := final ((isr_left >> isr_right) s)) in *.
    set (s' := final (isr_body s)) in *.
    rewrite Hg2, Hg in Hgive, Hs'. cbn [Z.eqb andb] in Hgive, Hs'.
    destruct (Z.gtb_spec (rb_get_free (rb_of s2)) BUFFER_MIN_SIZE) as [Hw|Hw].
    + rewrite (xSemaphoreTake_pending n s' Hs').
      unfold final at 1 2 3 4 5, result. cbn [fst snd].
      split; [destruct Hok' as [? ? ? ?]; split; assumption|].
      split; [reflexivity|].
      split; [intros _; split; [exact Hgive|]|split; [discriminate|reflexivity]].
      change (rb_get_free (rb_of (with_rb s' (set_semaphore (rb_of s') false))))
        with (rb_get_free (rb_of s')). lia.
    + rewrite Hsem in Hs'.
      destruct (IH s' Hok' Hs' Hgive) as (I1 & I2 & I3 & I4 & I5). cbv zeta in *.
      split; [exact I1|]. split; [exact I2|]. split; [exact I3|].
      split; [|intros _ Hbig; lia].
      intros Hr. destruct (I4 Hr) as [I4a I4b]. split; [exact I4a|]. intros _.
      destruct n as [|n]; [|apply I4b; discriminate].
      cbn [xSemaphoreTake]. rewrite Hs'. unfold final at 1. cbn [fst snd]. lia.
Qed.

(** X12. A wait that starts with no give pending.  It returns [ESP_OK]
    only after an interrupt found more than [BUFFER_MIN_SIZE] bytes free:
    that much is free on return and the guard is set again.  It returns
    [ESP_FAIL] with the guard still clear, and then at most
    [BUFFER_MIN_SIZE] bytes are free if any interrupt ran.  When more than
    [BUFFER_MIN_SIZE] bytes are free at the start, one interrupt within the
    timeout is enough for [ESP_OK].  No give is left pending and the buffer
    stays well formed. *)
Theorem rb_wait_semaphore_outcome (ticks : nat) (s : session) :
  rb_ok (rb_of s) -> semaphore_rb (rb_of s) = false ->
  let r := rb_wait_semaphore ticks s in
  rb_ok (rb_of (final r)) /\ semaphore_rb (rb_of (final r)) = false /\
  (result r = ESP_OK \/ result r = ESP_FAIL) /\
  (result r = ESP_OK ->
     is_give (rb_of (final r)) = 1 /\ BUFFER_MIN_SIZE < rb_get_free (rb_of (final r))) /\
  (result r = ESP_FAIL ->
     is_give (rb_of (final r)) = 0 /\
     (ticks <> 0%nat -> rb_get_free (rb_of (final r)) <= BUFFER_MIN_SIZE)) /\
  (ticks <> 0%nat -> BUFFER_MIN_SIZE < rb_get_free (rb_of s) -> result r = ESP_OK).
Proof.
  intros Hok Hsem r. unfold r. rewrite rb_wait_semaphore_run. cbv zeta.
  rewrite prepend_final, prepend_result.
  set (s0 := with_rb s (set_is_give (rb_of s) 0)).
  assert (Hok0 : rb_ok (rb_of s0)) by (destruct Hok as [? ? ? ?]; split; assumption).
  pose proof (xSemaphoreTake_outcome ticks s0 Hok0 Hsem eq_refl) as H. cbv zeta in H.
  change (rb_get_free (rb_of s0)) with (rb_get_free (rb_of s)) in H.
  destruct (xSemaphoreTake ticks s0) as [[b sf] ev].
  unfold final, result in *. cbn [fst snd] in *.
  destruct H as (I1 & I2 & I3 & I4 & I5).
  split; [exact I1|]. split; [exact I2|].
  destruct b.
  - split; [left; reflexivity|]. split; [intros _; apply I3; reflexivity|].
    split; [discriminate|reflexivity].
  - split; [right; reflexivity|]. split; [discriminate|].
    split; [intros _; apply I4; reflexivity|].
    intros Ht Hbig. specialize (I5 Ht Hbig). discriminate.
Qed.

Lemma rb_wait_semaphore_outcome_witness :
  let s := demo_session demo_rb 10 3 2 16 PWM_AUDIO_STATUS_BUSY in
  (rb_ok (rb_of s) /\ semaphore_rb (rb_of s) = false /\
   BUFFER_MIN_SIZE < rb_get_free (rb_of s)) /\
  result (rb_wait_semaphore 1 s) = ESP_OK.
Proof.
  intros s.
  assert (Hok : rb_ok (rb_of s)) by (split; cbn; lia).
  assert (Hsem : semaphore_rb (rb_of s) = false) by reflexivity.
  assert (Hbig : BUFFER_MIN_SIZE < rb_get_free (rb_of s)) by (vm_compute; reflexivity).
  split; [auto|].
  destruct (rb_wait_semaphore_outcome 1 s Hok Hsem) as (_ & _ & _ & _ & _ & H).
  apply H; [discriminate|exact Hbig].
Defined.

(** ** The whole call *)

Lemma rb_wait_semaphore_result t s :
  result (rb_wait_semaphore t s) = ESP_OK \/ result (rb_wait_semaphore t s) = ESP_FAIL.
Proof.
  rewrite rb_wait_semaphore_run. cbv zeta. rewrite prepend_result.
  unfold result at 1. cbn [fst]. destruct (result _); auto.
Qed.

Lemma prepend_prepend {A} a b (r : A * session * list event) :
  prepend a (prepend b r) = prepend (a ++ b) r.
Proof.
  unfold prepend, result, final, events. cbn [fst snd]. rewrite app_assoc. reflexivity.
Qed.

(** One pass of the [while] loop, by cases. *)
Lemma write_loop_pass t sched inbuf n bw res s :
  rb_ok (rb_of s) -> 0 < n < 2^32 ->
  let w := rb_wait_semaphore t s in
  let s1 := final w in
  let free := rb_get_free (rb_of s1) in
  let b := round_size n free in
  let c := convert_result (handle s1) b in
  let out := convert_out (handle s1) inbuf b in
  rb_ok (rb_of s1) /\ kept s s1 /\ write_results (events w) = [] /\
  ((result w = ESP_FAIL /\
    write_loop (t :: sched) inbuf n bw res s
    = prepend (events w) (write_loop sched inbuf n bw ESP_FAIL s1)) \/
   (result w = ESP_OK /\ Z.min n free < 4 /\
    write_loop (t :: sched) inbuf n bw res s
    = (Some (ESP_OK, u32 (bw + n)), s1, events w)) \/
   (result w = ESP_OK /\ 4 <= Z.min n free /\ b = 4 * (Z.min n free / 4) /\
    0 <= c <= b /\
    exists rb',
      pushed (rb_of s1) out rb' /\
      write_loop (t :: sched) inbuf n bw res s
      = prepend (events w ++ map (fun _ => EvWrite ESP_OK) out)
          (write_loop sched (drop (Z.to_nat c) inbuf) (u32 (n - c)) (u32 (bw + c)) res
                      (with_rb s1 rb')))).
Proof.
  intros Hok Hn w s1 free b c out.
  destruct (rb_wait_semaphore_kept t s) as [K E]. fold w in K, E. fold s1 in K.
  destruct (kept_ok _ _ K Hok) as [Hok1 _].
  split; [exact Hok1|]. split; [exact K|]. split; [exact E|].
  rewrite write_loop_step by lia. fold w s1.
  destruct (rb_wait_semaphore_result t s) as [Hw|Hw]; fold w in Hw; rewrite Hw;
    cbn [esp_err_eqb]; [|left; auto].
  right.
  pose proof (write_round_run s1 inbuf n Hok1 ltac:(lia)) as Hround.
  cbv zeta in Hround. fold free b in Hround. destruct Hround as [(Hb0 & Hbf & Hb) Hrun].
  pose proof (rb_free_range _ (rb_ok_idx _ Hok1)) as Hfr. fold free in Hfr.
  destruct (0 =? b) eqn:E0.
  - left. apply Z.eqb_eq in E0. split; [reflexivity|].
    split; [Z.div_mod_to_equations; lia|].
    rewrite (bind_known _ _ _ _ _ _ Hrun). unfold prepend, ret, result, final, events.
    cbn [fst snd]. rewrite !app_nil_r. reflexivity.
  - right. apply Z.eqb_neq in E0. split; [reflexivity|].
    split; [Z.div_mod_to_equations; lia|]. split; [exact Hb|].
    split.
    { unfold c, convert_result. destruct (expanding _); [|lia].
      rewrite Z.shiftr_div_pow2 by lia. change (2^1) with 2.
      Z.div_mod_to_equations; lia. }
    destruct Hrun as (rb' & Hr & P). exists rb'. split; [exact P|].
    rewrite (bind_known _ _ _ _ _ _ Hr). fold c out.
    apply prepend_prepend.
Qed.
Lemma write_loop_reports sched :
  forall inbuf n bw res s,
    rb_ok (rb_of s) -> 0 <= n -> 0 <= bw -> bw + n < 2^32 ->
    res = ESP_OK \/ res = ESP_FAIL ->
    forall res' k,
      result (write_loop sched inbuf n bw res s) = Some (res', k) ->
      k = bw + n /\ (res' = ESP_OK \/ res' = ESP_FAIL).
Proof.
  induction sched as [|t sched IH]; intros inbuf n bw res s Hok Hn Hbw Hsum Hres res' k.
  - cbn [write_loop]. destruct (Z.eqb_spec n 0) as [->|Hne]; [|discriminate].
    unfold ret, result. cbn [fst]. intros [= <- <-]. split; [lia|exact Hres].
  - destruct (Z.eq_dec n 0) as [->|Hne].
    { cbn [write_loop Z.eqb]. unfold ret, result. cbn [fst]. intros [= <- <-].
      split; [lia|exact Hres]. }
    destruct (write_loop_pass t sched inbuf n bw res s Hok ltac:(lia))
      as (Hok1 & _ & _ & Hcases).
    cbv zeta in Hcases.
    destruct Hcases as [[_ ->]|[(_ & _ & ->)|(_ & _ & _ & Hc & rb' & P & ->)]].
    + rewrite prepend_result. intros Hr.
      apply (IH inbuf n bw ESP_FAIL _ Hok1 Hn Hbw Hsum (or_intror eq_refl) _ _ Hr).
    + unfold result. cbn [fst]. intros [= <- <-].
      split; [u32_small; reflexivity|left; reflexivity].
    + rewrite prepend_result. intros Hr.
      set (c := convert_result _ _) in *.
      assert (Hcn : c <= n).
      { pose proof (write_round_run (final (rb_wait_semaphore t s)) inbuf n Hok1 ltac:(lia))
          as [(Hb1 & _) _]. cbv zeta in Hb1. lia. }
      assert (E1 : u32 (n - c) = n - c) by (u32_small; reflexivity).
      assert (E2 : u32 (bw + c) = bw + c) by (u32_small; reflexivity).
      rewrite E1, E2 in Hr.
      destruct (IH _ (n - c) (bw + c) res (with_rb (final (rb_wait_semaphore t s)) rb')
                   (push_ok _ _ _ P) ltac:(lia) ltac:(lia) ltac:(lia) Hres _ _ Hr)
        as [Hk Hr'].
      split; [lia|exact Hr'].
Qed.

(** X13. Whatever the interrupt schedule, format and input, no byte
    that [pwm_audio_write] hands to [rb_write_byte] is refused, and the
    ring buffer is well formed when the call returns or is still waiting:
    the producer never overruns the consumer. *)
Theorem pwm_audio_write_never_overruns (inbuf : option (list Z)) (inbuf_len : Z)
    (bytes_written : option Z) (sched : list nat) (s : session) :
  rb_ok (rb_of s) -> 0 <= inbuf_len < 2^32 ->
  let r := pwm_audio_write inbuf inbuf_len bytes_written sched s in
  Forall (fun e => e = ESP_OK) (write_results (events r)) /\
  rb_ok (rb_of (final r)).
Proof.
  intros Hok Hn r. unfold r.
  destruct inbuf as [data|], bytes_written as [bw0|];
    try (unfold pwm_audio_write, ret, events, final; cbn [fst snd write_results];
         split; [apply Forall_nil; trivial|exact Hok]).
  destruct (Z.eq_dec inbuf_len 0) as [->|Hne].
  { unfold pwm_audio_write, ret, events, final. cbn [Z.eqb negb fst snd write_results].
    split; [apply Forall_nil; trivial|exact Hok]. }
  destruct (pwm_audio_write_run data inbuf_len bw0 sched s Hne) as (_ & -> & ->).
  apply write_loop_never_fails; assumption.
Qed.

Lemma pwm_audio_write_never_overruns_witness :
  let s := demo_session demo_rb 10 3 2 16 PWM_AUDIO_STATUS_BUSY in
  let r := pwm_audio_write (Some [1; 2; 3; 4; 5; 6; 7; 8]) 8 (Some 0) [1%nat; 1%nat] s in
  (rb_ok (rb_of s) /\ 0 <= 8 < 2^32) /\
  Forall (fun e => e = ESP_OK) (write_results (events r)) /\
  write_results (events r) = replicate 8 ESP_OK.
Proof.
  intros s r.
  assert (Hok : rb_ok (rb_of s)) by (split; cbn; lia).
  assert (Hn : 0 <= 8 < 2^32) by lia.
  split; [auto|]. split.
  - apply (pwm_audio_write_never_overruns (Some [1; 2; 3; 4; 5; 6; 7; 8]) 8 (Some 0)
             [1%nat; 1%nat] s Hok Hn).
  - vm_compute. reflexivity.
Defined.

(** X14. What a returning call reports.  A call that fails the argument
    check returns [ESP_ERR_INVALID_ARG] having touched neither the caller's
    counter nor the session.  Any other call that returns has status
    [ESP_OK] or [ESP_FAIL] and reports the whole input length in
    [*bytes_written], whatever part of the input was stored: the counter is
    never a short count. *)
Theorem pwm_audio_write_reports_all (inbuf : option (list Z)) (inbuf_len : Z)
    (bytes_written : option Z) (sched : list nat) (s : session)
    (res : esp_err_t) (out : option Z) :
  rb_ok (rb_of s) -> 0 <= inbuf_len < 2^32 ->
  let r := pwm_audio_write inbuf inbuf_len bytes_written sched s in
  result r = Some (res, out) ->
  ((inbuf = None \/ bytes_written = None \/ inbuf_len = 0) /\
   res = ESP_ERR_INVALID_ARG /\ out = bytes_written /\ final r = s /\ events r = []) \/
  (inbuf <> None /\ bytes_written <> None /\ inbuf_len <> 0 /\
   (res = ESP_OK \/ res = ESP_FAIL) /\ out = Some inbuf_len).
Proof.
  intros Hok Hn r. unfold r.
  destruct inbuf as [data|], bytes_written as [bw0|];
    try (unfold pwm_audio_write, ret, result, events, final; cbn [fst snd];
         intros [= <- <-]; left; auto 10).
  destruct (Z.eq_dec inbuf_len 0) as [->|Hne].
  { unfold pwm_audio_write, ret, result, events, final. cbn [Z.eqb negb fst snd].
    intros [= <- <-]. left. auto 10. }
  destruct (pwm_audio_write_run data inbuf_len bw0 sched s Hne) as (-> & _ & _).
  destruct (result (write_loop sched data inbuf_len 0 ESP_OK s)) as [[res' k]|] eqn:E;
    [|discriminate].
  intros [= <- <-]. right.
  destruct (write_loop_reports sched data inbuf_len 0 ESP_OK s Hok ltac:(lia) ltac:(lia)
              ltac:(lia) (or_introl eq_refl) _ _ E) as [-> Hr].
  repeat split; try discriminate; try assumption.
Qed.

Lemma pwm_audio_write_reports_all_witness :
  let s := demo_session demo_rb 10 3 2 16 PWM_AUDIO_STATUS_BUSY in
  let r := pwm_audio_write (Some [1; 2; 3; 4; 5; 6; 7; 8]) 8 (Some 0) [0%nat; 1%nat] s in
  (rb_ok (rb_of s) /\ 0 <= 8 < 2^32 /\ result r = Some (ESP_FAIL, Some 8)) /\
  write_results (events r) = replicate 8 ESP_OK /\
  (ESP_FAIL = ESP_OK \/ ESP_FAIL = ESP_FAIL) /\ Some 8 = Some 8.
Proof.
  intros s r.
  assert (Hok : rb_ok (rb_of s)) by (split; cbn; lia).
  assert (Hn : 0 <= 8 < 2^32) by lia.
  assert (Hr : result r = Some (ESP_FAIL, Some 8)) by (vm_compute; reflexivity).
  split; [auto|]. split; [vm_compute; reflexivity|].
  destruct (pwm_audio_write_reports_all (Some [1; 2; 3; 4; 5; 6; 7; 8]) 8 (Some 0)
               [0%nat; 1%nat] s ESP_FAIL (Some 8) Hok Hn Hr) as [(_ & H & _)|H].
  - discriminate H.
  - apply H.
Defined.
Lemma events_run {A} (a : A) s e : events (a, s, e) = e.
Proof. reflexivity. Qed.

Lemma result_run {A} (a : A) s e : result (a, s, e) = a.
Proof. reflexivity. Qed.

Lemma final_run {A} (a : A) s e : final (a, s, e) = s.
Proof. reflexivity. Qed.

Lemma write_loop_expanding sched :
  forall inbuf n bw res s,
    rb_ok (rb_of s) -> expanding (handle s) = true -> 0 < n < 2^32 ->
    forall res' k,
      result (write_loop sched inbuf n bw res s) = Some (res', k) ->
      res' = ESP_OK /\
      Z.of_nat (length (write_results (events (write_loop sched inbuf n bw res s))))
      <= 2 * (n - 1).
Proof.
  induction sched as [|t sched IH]; intros inbuf n bw res s Hok Hexp Hn res' k.
  - cbn [write_loop]. destruct (Z.eqb_spec n 0) as [->|Hne]; [lia|discriminate].
  - destruct (write_loop_pass t sched inbuf n bw res s Hok Hn)
      as (Hok1 & K & Ew & Hcases).
    cbv zeta in Hcases.
    destruct (kept_format _ _ inbuf 0 K) as (Hexp1 & _). rewrite Hexp in Hexp1.
    destruct Hcases as [[_ ->]|[(_ & _ & ->)|(_ & Hmin & Hb & Hc & rb' & P & ->)]].
    + rewrite prepend_result, prepend_events, write_results_app, Ew. cbn [app].
      apply IH; assumption.
    + rewrite result_run, events_run, Ew. intros [= <- _].
      split; [reflexivity|cbn [write_results length]; lia].
    + rewrite prepend_result, prepend_events, !write_results_app, Ew, write_results_ok.
      cbn [app]. rewrite length_app, length_replicate.
      set (s1 := final (rb_wait_semaphore t s)) in *.
      set (q := Z.min n (rb_get_free (rb_of s1)) / 4) in *.
      assert (Hq : 1 <= q) by (unfold q; Z.div_mod_to_equations; lia).
      assert (Hq4 : 4 * q <= n) by (unfold q; Z.div_mod_to_equations; lia).
      rewrite Hb in *.
      assert (Hlen : Z.of_nat (length (convert_out (handle s1) inbuf (4 * q))) = 4 * q).
      { rewrite convert_out_length by lia. rewrite Hexp1. reflexivity. }
      assert (Hcv : convert_result (handle s1) (4 * q) = 2 * q).
      { unfold convert_result. rewrite Hexp1, Z.shiftr_div_pow2 by lia.
        change (2^1) with 2. Z.div_mod_to_equations; lia. }
      rewrite Hcv in *.
      assert (E1 : u32 (n - 2 * q) = n - 2 * q) by (u32_small; reflexivity).
      rewrite E1. intros Hr.
      destruct (IH _ (n - 2 * q) (u32 (bw + 2 * q)) res (with_rb s1 rb')
                   (push_ok _ _ _ P) Hexp1 ltac:(lia) _ _ Hr) as [Hres Hw].
      split; [exact Hres|]. lia.
Qed.

(** X15. 8-bit samples at a duty resolution above 8.  Each round takes
    half as many input bytes as it stores, so the input length never
    reaches 0: a call that returns does so through the discard branch,
    with [ESP_OK] even after timed-out waits and with the whole length in
    [*bytes_written].  It has stored at most [2 * (inbuf_len - 1)] bytes: at
    least one input sample is dropped, also when [inbuf_len] is a multiple
    of 4. *)
Theorem expanding_write_drops_tail (inbuf : list Z) (inbuf_len bw0 : Z)
    (sched : list nat) (s : session) (res : esp_err_t) (out : option Z) :
  rb_ok (rb_of s) -> 0 < inbuf_len < 2^32 ->
  bits_per_sample (handle s) = 8 -> 8 < duty_resolution (handle s) <= 10 ->
  let r := pwm_audio_write (Some inbuf) inbuf_len (Some bw0) sched s in
  result r = Some (res, out) ->
  res = ESP_OK /\ out = Some inbuf_len /\
  Forall (fun e => e = ESP_OK) (write_results (events r)) /\
  Z.of_nat (length (write_results (events r))) <= 2 * (inbuf_len - 1).
Proof.
  intros Hok Hn Hbits Hduty r. unfold r.
  assert (Hexp : expanding (handle s) = true).
  { unfold expanding. rewrite Hbits. cbn [Z.eqb Pos.eqb andb].
    apply Z.ltb_lt. unfold s8.
    assert (Hd : duty_resolution (handle s) = 9 \/ duty_resolution (handle s) = 10) by lia.
    destruct Hd as [-> | ->]; vm_compute; reflexivity. }
  destruct (pwm_audio_write_run inbuf inbuf_len bw0 sched s ltac:(lia)) as (-> & _ & ->).
  destruct (result (write_loop sched inbuf inbuf_len 0 ESP_OK s)) as [[res' k]|] eqn:E;
    [|discriminate].
  intros [= <- <-].
  destruct (write_loop_expanding sched inbuf inbuf_len 0 ESP_OK s Hok Hexp Hn _ _ E)
    as [Hres Hlen].
  destruct (write_loop_reports sched inbuf inbuf_len 0 ESP_OK s Hok ltac:(lia) ltac:(lia)
              ltac:(lia) (or_introl eq_refl) _ _ E) as [-> _].
  split; [exact Hres|]. split; [reflexivity|].
  split; [|exact Hlen].
  apply write_loop_never_fails; [exact Hok|lia].
Qed.

Lemma expanding_write_drops_tail_witness :
  let s := demo_session demo_rb 10 3 2 8 PWM_AUDIO_STATUS_BUSY in
  let inbuf := [1; 2; 3; 4; 5; 6; 7; 8] in
  let r := pwm_audio_write (Some inbuf) 8 (Some 0) [1%nat; 1%nat; 1%nat] s in
  (rb_ok (rb_of s) /\ 0 < 8 < 2^32 /\ bits_per_sample (handle s) = 8 /\
   8 < duty_resolution (handle s) <= 10 /\ result r = Some (ESP_OK, Some 8)) /\
  length (write_results (events r)) = 12%nat /\
  Z.of_nat (length (write_results (events r))) <= 2 * (8 - 1).
Proof.
  intros s inbuf r.
  assert (Hok : rb_ok (rb_of s)) by (split; cbn; lia).
  assert (Hn : 0 < 8 < 2^32) by lia.
  assert (Hb : bits_per_sample (handle s) = 8) by reflexivity.
  assert (Hd : 8 < duty_resolution (handle s) <= 10) by (cbn; lia).
  assert (Hr : result r = Some (ESP_OK, Some 8)) by (vm_compute; reflexivity).
  split; [auto 10|]. split; [vm_compute; reflexivity|].
  apply (expanding_write_drops_tail inbuf 8 0 [1%nat; 1%nat; 1%nat] s ESP_OK (Some 8)
           Hok Hn Hb Hd Hr).
Defined.

(** X16. The discard branch.  A wait returns [ESP_OK] at once, without
    any interrupt having run, when a give is already pending.  And when a
    wait has succeeded but room for fewer than four bytes is left, or fewer
    than four input bytes remain, the call stores nothing, returns
    [ESP_OK] and reports the whole length as written. *)
Theorem write_discards_when_no_group_fits (inbuf : list Z) (inbuf_len bw0 : Z)
    (t : nat) (sched : list nat) (s : session) :
  rb_ok (rb_of s) -> 0 < inbuf_len < 2^32 ->
  (semaphore_rb (rb_of s) = true ->
   rb_wait_semaphore t s
   = (ESP_OK, with_rb s (set_semaphore (set_is_give (rb_of s) 0) false),
      [EvArm; EvTake true])) /\
  (let s1 := final (rb_wait_semaphore t s) in
   result (rb_wait_semaphore t s) = ESP_OK ->
   Z.min inbuf_len (rb_get_free (rb_of s1)) < 4 ->
   let r := pwm_audio_write (Some inbuf) inbuf_len (Some bw0) (t :: sched) s in
   result r = Some (ESP_OK, Some inbuf_len) /\
   write_results (events r) = [] /\ final r = s1).
Proof.
  intros Hok Hn. split.
  - intros Hsem. rewrite rb_wait_semaphore_run. cbv zeta.
    rewrite xSemaphoreTake_pending by exact Hsem. reflexivity.
  - intros s1 Hw Hmin r. unfold r.
    destruct (pwm_audio_write_run inbuf inbuf_len bw0 (t :: sched) s ltac:(lia))
      as (-> & -> & ->).
    destruct (write_loop_pass t sched inbuf inbuf_len 0 ESP_OK s Hok Hn)
      as (_ & _ & Ew & Hcases).
    cbv zeta in Hcases. fold s1 in Hcases.
    destruct Hcases as [[Hf _]|[(_ & _ & ->)|(_ & Hge & _)]].
    + rewrite Hw in Hf. discriminate.
    + rewrite result_run, events_run, final_run, Ew.
      split; [|auto]. cbn [Z.add]. u32_small. reflexivity.
    + lia.
Qed.

Lemma write_discards_when_no_group_fits_witness :
  let rb := mkRingBuf (replicate 1024 7) 1022 0 1024 1 true in
  let s := demo_session rb 10 3 2 16 PWM_AUDIO_STATUS_BUSY in
  let inbuf := [1; 2; 3; 4; 5; 6; 7; 8] in
  let r := pwm_audio_write (Some inbuf) 8 (Some 0) [5%nat] s in
  (rb_ok (rb_of s) /\ 0 < 8 < 2^32 /\ semaphore_rb (rb_of s) = true /\
   result (rb_wait_semaphore 5 s) = ESP_OK /\
   Z.min 8 (rb_get_free (rb_of (final (rb_wait_semaphore 5 s)))) < 4) /\
  result r = Some (ESP_OK, Some 8) /\ write_results (events r) = [].
Proof.
  intros rb s inbuf r.
  assert (Hok : rb_ok (rb_of s)) by (split; cbn; lia).
  assert (Hn : 0 < 8 < 2^32) by lia.
  assert (Hsem : semaphore_rb (rb_of s) = true) by reflexivity.
  assert (Hw : result (rb_wait_semaphore 5 s) = ESP_OK) by (vm_compute; reflexivity).
  assert (Hmin : Z.min 8 (rb_get_free (rb_of (final (rb_wait_semaphore 5 s)))) < 4)
    by (vm_compute; reflexivity).
  split; [auto 10|].
  destruct (proj2 (write_discards_when_no_group_fits inbuf 8 0 5 [] s Hok Hn) Hw Hmin)
    as (H1 & H2 & _).
  auto.
Defined.
(** ** Initialisation *)

Lemma esp_err_eqb_ok_l r : esp_err_eqb ESP_OK r = true <-> r = ESP_OK.
Proof. destruct r; cbn; split; congruence. Qed.

Lemma esp_err_eqb_ok_r r : esp_err_eqb r ESP_OK = true <-> r = ESP_OK.
Proof. destruct r; cbn; split; congruence. Qed.

Lemma rb_create_cases size0 heap :
  (rb_create size0 heap = None /\ (u32 size0 < 1024 \/ heap = false)) \/
  (exists rb,
     rb_create size0 heap = Some rb /\ 1024 <= u32 size0 /\ heap = true /\
     size rb = u32 size0 /\ rb_ok rb /\ rb_contents rb = [] /\
     is_give rb = 0 /\ semaphore_rb rb = false).
Proof.
  destruct (rb_create size0 heap) as [rb|] eqn:E.
  - right. exists rb. destruct (rb_create_ok _ _ _ E) as (Hok & Hh & Ht & Hs & Hg & Hsem).
    unfold rb_create in E. change (Z.shiftl BUFFER_MIN_SIZE 2) with 1024 in E.
    destruct (Z.ltb_spec (u32 size0) 1024); [discriminate|].
    destruct heap; [|discriminate]. injection E as <-.
    repeat split; try assumption; try reflexivity; apply Hok.
  - left. split; [reflexivity|].
    unfold rb_create in E. change (Z.shiftl BUFFER_MIN_SIZE 2) with 1024 in E.
    destruct (Z.ltb_spec (u32 size0) 1024); [auto|].
    destruct heap; [discriminate|auto].
Qed.

Lemma ledc_channel_setup_cases gpio res mask h :
  (ledc_channel_setup gpio res mask h = None /\ 0 <= gpio /\ res <> ESP_OK) \/
  (ledc_channel_setup gpio res mask h
   = Some (set_channel_mask h (Z.lor (channel_mask h) (if gpio >=? 0 then mask else 0))) /\
   (0 <= gpio -> res = ESP_OK)).
Proof.
  unfold ledc_channel_setup. rewrite Z.geb_leb.
  destruct (Z.leb_spec 0 gpio) as [Hge|Hlt].
  - destruct (esp_err_eqb ESP_OK res) eqn:E; cbn [negb].
    + right. apply esp_err_eqb_ok_l in E. auto.
    + left. split; [reflexivity|]. split; [exact Hge|].
      intros ->. discriminate.
  - right. split; [|lia]. rewrite Z.lor_0_r. destruct h; reflexivity.
Qed.

(** [pwm_audio_init] past its argument checks and allocations: what is
    returned and which handle is published. *)
Lemma pwm_audio_init_published cfg env g rb :
  tg_num cfg < TIMER_GROUP_MAX env -> timer_num cfg < TIMER_MAX env ->
  8 <= cfg_duty_resolution cfg <= 10 -> handle_heap env = true ->
  rb_create (ringbuf_len cfg) (ringbuf_heap env) = Some rb ->
  let h0 := mkHandle (cfg_duty_resolution cfg) rb 0 0 0 0 (zero_status env) in
  let ok :=
    (0 <= gpio_num_left cfg -> ledc_channel_left_res env = ESP_OK) /\
    (0 <= gpio_num_right cfg -> ledc_channel_right_res env = ESP_OK) /\
    (0 <= gpio_num_left cfg \/ 0 <= gpio_num_right cfg) /\
    ledc_timer_res env = ESP_OK /\
    zero_status env <> PWM_AUDIO_STATUS_BUSY in
  (ok /\
   pwm_audio_init (Some cfg) env g
   = (ESP_OK, Some (mkHandle (cfg_duty_resolution cfg) rb (config_mask cfg) 2 16000 8
                             PWM_AUDIO_STATUS_IDLE))) \/
  (~ ok /\
   exists m,
     pwm_audio_init (Some cfg) env g = (ESP_ERR_INVALID_ARG, Some (set_channel_mask h0 m))).
Proof.
  intros Htg Htm Hd Hheap Hrb h0 ok. unfold pwm_audio_init.
  apply Z.ltb_lt in Htg, Htm. rewrite Htg, Htm, Hheap, Hrb. cbn [negb].
  assert (Ed : (cfg_duty_resolution cfg <=? 10) && (cfg_duty_resolution cfg >=? 8) = true).
  { apply andb_true_iff. rewrite Z.leb_le, Z.geb_leb, Z.leb_le. lia. }
  rewrite Ed. cbn [negb]. cbv zeta. fold h0.
  destruct (ledc_channel_setup_cases (gpio_num_left cfg) (ledc_channel_left_res env)
              CHANNEL_LEFT_MASK (set_channel_mask h0 0)) as [(-> & Hl & Hlr)|[-> Hl]].
  { right. split; [intros (H & _); apply Hlr, H, Hl|]. exists 0. reflexivity. }
  match goal with |- context [ledc_channel_setup _ _ _ ?h] => set (h1 := h) end.
  destruct (ledc_channel_setup_cases (gpio_num_right cfg) (ledc_channel_right_res env)
              CHANNEL_RIGHT_MASK h1) as [(-> & Hr & Hrr)|[-> Hr]].
  { right. split; [intros (_ & H & _); apply Hrr, H, Hr|]. eexists. reflexivity. }
  match goal with |- context [channel_mask ?h] => set (h2 := h) end.
  assert (Hmask : channel_mask h2 = config_mask cfg).
  { unfold h2, h1, config_mask. cbn [channel_mask set_channel_mask h0].
    rewrite Z.lor_0_l. reflexivity. }
  rewrite Hmask.
  assert (Hm0 : config_mask cfg = 0 <-> ~ (0 <= gpio_num_left cfg \/ 0 <= gpio_num_right cfg)).
  { unfold config_mask, CHANNEL_LEFT_MASK, CHANNEL_RIGHT_MASK. rewrite !Z.geb_leb.
    destruct (Z.leb_spec 0 (gpio_num_left cfg)), (Z.leb_spec 0 (gpio_num_right cfg));
      cbn; split; intros H'; try lia; try discriminate H';
      try reflexivity; try (exfalso; apply H'; lia). }
  destruct (Z.eqb_spec 0 (config_mask cfg)) as [E0|E0]; cbn [negb].
  { right. split; [intros (_ & _ & H & _); symmetry in E0; apply Hm0 in E0; auto|].
    exists (channel_mask h2). reflexivity. }
  destruct (esp_err_eqb (ledc_timer_res env) ESP_OK) eqn:Et; cbn [negb].
  2:{ right. split.
      - intros (_ & _ & _ & H & _). apply esp_err_eqb_ok_r in H. congruence.
      - exists (channel_mask h2). reflexivity. }
  apply esp_err_eqb_ok_r in Et.
  unfold pwm_audio_set_param. cbn [status h2 h1 h0 set_channel_mask].
  destruct (zero_status env) eqn:Ez; cbn.
  - left. split; [|rewrite <- Hmask; reflexivity].
    repeat split; try assumption; try discriminate.
    destruct (Z.leb_spec 0 (gpio_num_left cfg)); [auto|].
    destruct (Z.leb_spec 0 (gpio_num_right cfg)); [auto|].
    exfalso. apply E0. symmetry. apply Hm0. lia.
  - left. split; [|rewrite <- Hmask; reflexivity].
    repeat split; try assumption; try discriminate.
    destruct (Z.leb_spec 0 (gpio_num_left cfg)); [auto|].
    destruct (Z.leb_spec 0 (gpio_num_right cfg)); [auto|].
    exfalso. apply E0. symmetry. apply Hm0. lia.
  - right. split; [intros (_ & _ & _ & _ & H); congruence|].
    exists (channel_mask h2). reflexivity.
Qed.

(** The checks and allocations before the handle is published. *)
Lemma pwm_audio_init_early cfg env g :
  let valid :=
    tg_num cfg < TIMER_GROUP_MAX env /\ timer_num cfg < TIMER_MAX env /\
    8 <= cfg_duty_resolution cfg <= 10 in
  let alloc :=
    handle_heap env = true /\ ringbuf_heap env = true /\ 1024 <= u32 (ringbuf_len cfg) in
  (~ valid /\ pwm_audio_init (Some cfg) env g = (ESP_ERR_INVALID_ARG, g)) \/
  (valid /\ ~ alloc /\ pwm_audio_init (Some cfg) env g = (ESP_ERR_NO_MEM, g)) \/
  (valid /\ alloc /\
   exists rb,
     rb_create (ringbuf_len cfg) (ringbuf_heap env) = Some rb /\
     size rb = u32 (ringbuf_len cfg) /\ rb_ok rb /\ rb_contents rb = [] /\
     is_give rb = 0 /\ semaphore_rb rb = false).
Proof.
  intros valid alloc. unfold pwm_audio_init.
  destruct (Z.ltb_spec (tg_num cfg) (TIMER_GROUP_MAX env)) as [Htg|Htg]; cbn [negb];
    [|left; split; [intros (H & _); lia|reflexivity]].
  destruct (Z.ltb_spec (timer_num cfg) (TIMER_MAX env)) as [Htm|Htm]; cbn [negb];
    [|left; split; [intros (_ & H & _); lia|reflexivity]].
  destruct ((cfg_duty_resolution cfg <=? 10) && (cfg_duty_resolution cfg >=? 8)) eqn:Ed;
    cbn [negb].
  2:{ apply andb_false_iff in Ed. rewrite Z.leb_gt, Z.geb_leb, Z.leb_gt in Ed.
      left. split; [intros (_ & _ & H); lia|reflexivity]. }
  apply andb_true_iff in Ed. rewrite Z.leb_le, Z.geb_leb, Z.leb_le in Ed.
  assert (Hv : valid) by (unfold valid; repeat split; lia).
  right.
  destruct (handle_heap env) eqn:Eh; cbn [negb];
    [|left; split; [exact Hv|]; split; [intros (H & _); discriminate|reflexivity]].
  destruct (rb_create_cases (ringbuf_len cfg) (ringbuf_heap env))
    as [(-> & Hno)|(rb & Hrb & Hsz & Hheap & Hs & Hok & Hc & Hg & Hsem)].
  - left. split; [exact Hv|]. split; [|reflexivity].
    intros (_ & H1 & H2). destruct Hno as [Hno|Hno]; [lia|congruence].
  - right. split; [exact Hv|]. split; [unfold alloc; auto|].
    exists rb. auto 10.
Qed.

(** X17. [pwm_audio_init] returns [ESP_OK] exactly when the timer group
    and timer numbers are below the driver's limits, the duty resolution
    is 8, 9 or 10, the handle and a ring buffer of at least 1024 bytes can
    be allocated, at least one output pin is given, the LEDC driver accepts
    every given channel and the timer, and a zeroed handle does not read as
    busy.  The session it publishes is idle, set to 16000 Hz, 8 bits and 2
    channels, has the outputs of the given pins enabled and an empty, well
    formed ring buffer of the requested size with guard and semaphore
    clear.  At a duty resolution above 8 this default format is the
    expanding one. *)
Theorem pwm_audio_init_accepts (cfg : pwm_audio_config_t) (env : init_env)
    (g : option pwm_audio_handle) :
  let r := pwm_audio_init (Some cfg) env g in
  (fst r = ESP_OK <->
   (tg_num cfg < TIMER_GROUP_MAX env /\ timer_num cfg < TIMER_MAX env /\
    8 <= cfg_duty_resolution cfg <= 10) /\
   (handle_heap env = true /\ ringbuf_heap env = true /\
    1024 <= u32 (ringbuf_len cfg)) /\
   (0 <= gpio_num_left cfg -> ledc_channel_left_res env = ESP_OK) /\
   (0 <= gpio_num_right cfg -> ledc_channel_right_res env = ESP_OK) /\
   (0 <= gpio_num_left cfg \/ 0 <= gpio_num_right cfg) /\
   ledc_timer_res env = ESP_OK /\
   zero_status env <> PWM_AUDIO_STATUS_BUSY) /\
  (fst r = ESP_OK ->
   exists h,
     snd r = Some h /\ status h = PWM_AUDIO_STATUS_IDLE /\
     framerate h = 16000 /\ bits_per_sample h = 8 /\ channel_set_num h = 2 /\
     duty_resolution h = cfg_duty_resolution cfg /\
     channel_mask h = config_mask cfg /\
     size (ringbuf h) = u32 (ringbuf_len cfg) /\
     rb_ok (ringbuf h) /\ rb_contents (ringbuf h) = [] /\
     is_give (ringbuf h) = 0 /\ semaphore_rb (ringbuf h) = false /\
     expanding h = (8 <? cfg_duty_resolution cfg)).
Proof.
  intros r. unfold r.
  destruct (pwm_audio_init_early cfg env g)
    as [(Hnv & ->)|[(Hv & Hna & ->)|(Hv & Ha & rb & Hrb & Hs & Hok & Hc & Hg & Hsem)]];
    cbn [fst snd].
  - split; [split; [discriminate|intros (H & _); contradiction]|discriminate].
  - split; [split; [discriminate|intros (_ & H & _); contradiction]|discriminate].
  - destruct Hv as (Htg & Htm & Hd). destruct Ha as (Hh & Hrh & Hlen).
    destruct (pwm_audio_init_published cfg env g rb Htg Htm Hd Hh Hrb)
      as [(Hgood & ->)|(Hbad & m & ->)]; cbn [fst snd].
    + split; [split; [intros _|reflexivity]|].
      { split; [repeat split; assumption || apply Hd|]. split; [auto|exact Hgood]. }
      intros _. eexists. split; [reflexivity|].
      cbn [status framerate bits_per_sample channel_set_num duty_resolution channel_mask
           ringbuf].
      repeat split; try assumption; try apply Hok.
      unfold expanding. cbn [bits_per_sample duty_resolution Z.eqb Pos.eqb andb].
      assert (Hdd : cfg_duty_resolution cfg = 8 \/ cfg_duty_resolution cfg = 9 \/
                    cfg_duty_resolution cfg = 10) by lia.
      destruct Hdd as [-> | [-> | ->]]; vm_compute; reflexivity.
    + split; [split; [discriminate|]|discriminate].
      intros (_ & _ & H). exfalso. apply Hbad. exact H.
Qed.

Lemma pwm_audio_init_accepts_witness :
  exists h,
    pwm_audio_init (Some demo_config) demo_env None = (ESP_OK, Some h) /\
    status h = PWM_AUDIO_STATUS_IDLE /\ channel_mask h = 3 /\
    expanding h = true /\ rb_get_free (ringbuf h) = 8191.
Proof.
  destruct (proj2 (pwm_audio_init_accepts demo_config demo_env None) eq_refl)
    as (h & Hh & Hst & _ & _ & _ & _ & Hm & _ & _ & _ & _ & _ & He).
  exists h. split; [|split; [exact Hst|split; [exact Hm|split; [exact He|]]]].
  - rewrite <- Hh. reflexivity.
  - cbn in Hh. injection Hh as <-. vm_compute. reflexivity.
Defined.

(** X18. A failing [pwm_audio_init] returns [ESP_ERR_NO_MEM] exactly
    when the arguments are in range and an allocation fails, and
    [ESP_ERR_INVALID_ARG] otherwise.  When it fails in the argument checks
    or in an allocation [g_pwm_audio_handle] is as before.  When it fails
    later, the new handle stays published although the call failed: a
    handle with the zeroed status, no sample format and an empty ring
    buffer, on which [pwm_audio_start] is refused unless a zeroed status
    reads as idle. *)
Theorem pwm_audio_init_failure (cfg : pwm_audio_config_t) (env : init_env)
    (g : option pwm_audio_handle) :
  let r := pwm_audio_init (Some cfg) env g in
  let valid :=
    tg_num cfg < TIMER_GROUP_MAX env /\ timer_num cfg < TIMER_MAX env /\
    8 <= cfg_duty_resolution cfg <= 10 in
  let alloc :=
    handle_heap env = true /\ ringbuf_heap env = true /\ 1024 <= u32 (ringbuf_len cfg) in
  fst r <> ESP_OK ->
  (fst r = ESP_ERR_NO_MEM <-> valid /\ ~ alloc) /\
  (fst r <> ESP_ERR_NO_MEM -> fst r = ESP_ERR_INVALID_ARG) /\
  (~ (valid /\ alloc) -> snd r = g) /\
  (valid /\ alloc ->
   exists h,
     snd r = Some h /\ status h = zero_status env /\
     framerate h = 0 /\ bits_per_sample h = 0 /\ channel_set_num h = 0 /\
     duty_resolution h = cfg_duty_resolution cfg /\
     rb_ok (ringbuf h) /\ rb_contents (ringbuf h) = [] /\
     (zero_status env <> PWM_AUDIO_STATUS_IDLE ->
      forall res, pwm_audio_start res h = (ESP_ERR_INVALID_STATE, h))).
Proof.
  intros r valid alloc. unfold r.
  destruct (pwm_audio_init_early cfg env g)
    as [(Hnv & ->)|[(Hv & Hna & ->)|(Hv & Ha & rb & Hrb & Hs & Hok & Hc & Hg & Hsem)]];
    cbn [fst snd].
  - intros _. split; [split; [discriminate|intros (H & _); exfalso; apply Hnv, H]|].
    split; [reflexivity|]. split; [reflexivity|]. intros (H & _). exfalso. apply Hnv, H.
  - intros _. split; [split; [intros _; split; [exact Hv|exact Hna]|reflexivity]|].
    split; [intros H; exfalso; apply H; reflexivity|].
    split; [reflexivity|]. intros (_ & H). exfalso. apply Hna, H.
  - destruct Hv as (Htg & Htm & Hd). destruct Ha as (Hh & Hrh & Hlen).
    destruct (pwm_audio_init_published cfg env g rb Htg Htm Hd Hh Hrb)
      as [(Hgood & ->)|(Hbad & m & ->)]; cbn [fst snd].
    + intros H. exfalso. apply H. reflexivity.
    + intros _. split; [split; [discriminate|]|].
      { intros (_ & H). exfalso. apply H. unfold alloc. auto. }
      split; [reflexivity|]. split.
      { intros H. exfalso. apply H. unfold valid, alloc. auto 10. }
      intros _. eexists. split; [reflexivity|].
      cbn [status framerate bits_per_sample channel_set_num duty_resolution ringbuf
           set_channel_mask].
      repeat split; try assumption; try apply Hok.
      intros Hz res. unfold pwm_audio_start.
      cbn [status set_channel_mask].
      destruct (zero_status env); try contradiction; reflexivity.
Qed.

Lemma pwm_audio_init_failure_witness :
  let env := mkInitEnv 2 2 PWM_AUDIO_STATUS_UN_INIT true true ESP_OK ESP_OK ESP_FAIL in
  let r := pwm_audio_init (Some demo_config) env None in
  fst r <> ESP_OK /\
  fst r = ESP_ERR_INVALID_ARG /\
  exists h, snd r = Some h /\ status h = PWM_AUDIO_STATUS_UN_INIT /\
            pwm_audio_start ESP_OK h = (ESP_ERR_INVALID_STATE, h).
Proof.
  intros env r.
  assert (Hne : fst r <> ESP_OK) by (vm_compute; discriminate).
  split; [exact Hne|].
  destruct (pwm_audio_init_failure demo_config env None Hne) as (_ & Harg & _ & Hpub).
  split; [apply Harg; vm_compute; discriminate|].
  destruct Hpub as (h & Hh & Hst & _ & _ & _ & _ & _ & _ & Hstart).
  - vm_compute. repeat split; try discriminate; try reflexivity.
  - exists h. split; [exact Hh|]. split; [exact Hst|].
    apply Hstart. cbn. discriminate.
Defined.
(** ** A session's life *)

Lemma same_config_refl s : same_config s s.
Proof. split; reflexivity. Qed.

Lemma same_config_trans s1 s2 s3 :
  same_config s1 s2 -> same_config s2 s3 -> same_config s1 s3.
Proof.
  intros [] []. split; etransitivity; eassumption.
Qed.

Lemma same_config_consumed s s' : consumed s s' -> same_config s s'.
Proof. intros H. split; apply H. Qed.

Lemma same_config_with_rb s rb :
  size rb = size (rb_of s) -> same_config s (with_rb s rb).
Proof. intros H. split; try reflexivity. exact H. Qed.

Lemma isr_body_same_config s : same_config s (final (isr_body s)).
Proof.
  rewrite isr_body_split, prepend_final, isr_signal_run.
  pose proof (same_config_consumed _ _ (proj1 (consumer_channels s))) as H.
  destruct (_ && _); rewrite final_run; [|exact H].
  eapply same_config_trans; [exact H|]. apply same_config_with_rb. reflexivity.
Qed.

Lemma xSemaphoreTake_same_config n :
  forall s, same_config s (final (xSemaphoreTake n s)).
Proof.
  induction n as [|n IH]; intros s; cbn [xSemaphoreTake];
    destruct (semaphore_rb (rb_of s)); rewrite ?final_run;
    try (apply same_config_with_rb; reflexivity); try apply same_config_refl.
  rewrite bind_final.
  eapply same_config_trans; [apply isr_body_same_config|apply IH].
Qed.

Lemma rb_wait_semaphore_same_config t s :
  same_config s (final (rb_wait_semaphore t s)).
Proof.
  rewrite rb_wait_semaphore_run. cbv zeta. rewrite prepend_final, final_run.
  eapply same_config_trans; [|apply xSemaphoreTake_same_config].
  apply same_config_with_rb. reflexivity.
Qed.

Lemma write_loop_same_config sched :
  forall inbuf n bw res s,
    rb_ok (rb_of s) -> 0 <= n < 2^32 ->
    same_config s (final (write_loop sched inbuf n bw res s)).
Proof.
  induction sched as [|t sched IH]; intros inbuf n bw res s Hok Hn.
  - cbn [write_loop]. destruct (n =? 0); apply same_config_refl.
  - destruct (Z.eq_dec n 0) as [->|Hne].
    { cbn [write_loop Z.eqb]. apply same_config_refl. }
    destruct (write_loop_pass t sched inbuf n bw res s Hok ltac:(lia))
      as (Hok1 & _ & _ & Hcases).
    cbv zeta in Hcases.
    pose proof (rb_wait_semaphore_same_config t s) as Hw.
    destruct Hcases as [[_ ->]|[(_ & _ & ->)|(_ & _ & _ & _ & rb' & P & ->)]].
    + rewrite prepend_final. eapply same_config_trans; [exact Hw|].
      apply IH; assumption.
    + rewrite final_run. exact Hw.
    + rewrite prepend_final. eapply same_config_trans; [exact Hw|].
      eapply same_config_trans;
        [apply (same_config_with_rb _ rb'), (push_size _ _ _ P)|].
      apply IH; [apply (push_ok _ _ _ P)|apply u32_range].
Qed.

Lemma session_ok_same_config s s' :
  session_ok s -> same_config s s' -> rb_ok (rb_of s') -> session_ok s'.
Proof.
  intros [] [] Hok. split; try congruence; try lia.
Qed.

Lemma set_param_cases rate bits ch h :
  (pwm_audio_set_param rate bits ch h = (ESP_ERR_INVALID_ARG, h) /\ True) \/
  (pwm_audio_set_param rate bits ch h
   = (ESP_OK, mkHandle (duty_resolution h) (ringbuf h) (channel_mask h) ch rate bits
                       (status h)) /\
   SAMPLE_RATE_MIN <= rate <= SAMPLE_RATE_MAX /\
   (bits = 8 \/ bits = 16 \/ bits = 32) /\ (ch = 1 \/ ch = 2)).
Proof.
  unfold pwm_audio_set_param.
  destruct (status_eqb (status h) PWM_AUDIO_STATUS_BUSY); cbn [negb]; [auto|].
  destruct ((rate <=? SAMPLE_RATE_MAX) && (rate >=? SAMPLE_RATE_MIN)) eqn:Er;
    cbn [negb]; [|auto].
  apply andb_true_iff in Er. rewrite Z.leb_le, Z.geb_leb, Z.leb_le in Er.
  destruct ((bits =? 32) || (bits =? 16) || (bits =? 8)) eqn:Eb; cbn [negb]; [|auto].
  rewrite !orb_true_iff, !Z.eqb_eq in Eb.
  destruct ((ch <=? 2) && (ch >=? 1)) eqn:Ec; cbn [negb]; [|auto].
  apply andb_true_iff in Ec. rewrite Z.leb_le, Z.geb_leb, Z.leb_le in Ec.
  right. split; [reflexivity|]. split; [lia|]. split; [tauto|lia].
Qed.

Lemma set_sample_rate_cases timer_res rate h :
  pwm_audio_set_sample_rate timer_res rate h = (ESP_ERR_INVALID_ARG, h) \/
  (pwm_audio_set_sample_rate timer_res rate h = (timer_res, set_framerate h rate) /\
   SAMPLE_RATE_MIN <= rate <= SAMPLE_RATE_MAX).
Proof.
  unfold pwm_audio_set_sample_rate.
  destruct (status_eqb (status h) PWM_AUDIO_STATUS_BUSY); cbn [negb]; [auto|].
  destruct ((rate <=? SAMPLE_RATE_MAX) && (rate >=? SAMPLE_RATE_MIN)) eqn:Er;
    cbn [negb]; [|auto].
  apply andb_true_iff in Er. rewrite Z.leb_le, Z.geb_leb, Z.leb_le in Er.
  right. split; [reflexivity|lia].
Qed.

Lemma run_call_ok s c :
  session_ok s ->
  session_ok (fst (run_call s c)) /\
  duty_resolution (handle (fst (run_call s c))) = duty_resolution (handle s) /\
  channel_mask (handle (fst (run_call s c))) = channel_mask (handle s) /\
  size (rb_of (fst (run_call s c))) = size (rb_of s) /\
  Forall (fun e => e = ESP_OK) (write_results (snd (run_call s c))).
Proof.
  intros Hs. pose proof Hs as [Hrb Hsz Hd Hm Hst Hr Hb Hc].
  destruct c as [rate bits ch|tres rate|tres| |inbuf n sched| ]; cbn [run_call fst snd].
  - (* pwm_audio_set_param *)
    destruct (set_param_cases rate bits ch (handle s)) as [(-> & _)|(-> & Hr' & Hb' & Hc')];
      cbn [snd].
    + split; [|repeat split; apply Forall_nil; trivial].
      destruct s as [[] ? ? ? ? ?]. exact Hs.
    + split; [|repeat split; apply Forall_nil; trivial].
      split; cbn; try assumption.
  - (* pwm_audio_set_sample_rate *)
    destruct (set_sample_rate_cases tres rate (handle s)) as [->|(-> & Hr')]; cbn [snd].
    + split; [|repeat split; apply Forall_nil; trivial].
      destruct s as [[] ? ? ? ? ?]. exact Hs.
    + split; [|repeat split; apply Forall_nil; trivial].
      split; cbn; try assumption.
  - (* pwm_audio_start *)
    unfold pwm_audio_start. destruct (status_eqb _ _); cbn [negb snd].
    + split; [|repeat split; apply Forall_nil; trivial].
      split; cbn; try assumption. discriminate.
    + split; [|repeat split; apply Forall_nil; trivial].
      destruct s as [[] ? ? ? ? ?]. exact Hs.
  - (* pwm_audio_stop *)
    unfold pwm_audio_stop, rb_flush. cbn [snd].
    split; [|repeat split; apply Forall_nil; trivial].
    split; cbn; try assumption; try discriminate.
    destruct Hrb as [? ? ? ?]. split; cbn; try assumption; unfold rb_of in *; lia.
  - (* pwm_audio_write *)
    pose proof (u32_range n) as Hn.
    destruct (Z.eq_dec (u32 n) 0) as [E|E].
    { rewrite E. unfold pwm_audio_write, ret. cbn [Z.eqb negb]. rewrite final_run, events_run.
      split; [exact Hs|]. repeat split. apply Forall_nil; trivial. }
    destruct (pwm_audio_write_run inbuf (u32 n) 0 sched s E) as (_ & -> & ->).
    destruct (write_loop_never_fails sched inbuf (u32 n) 0 ESP_OK s Hrb Hn) as [Hall Hok'].
    pose proof (write_loop_same_config sched inbuf (u32 n) 0 ESP_OK s Hrb Hn) as Hsame.
    split; [exact (session_ok_same_config _ _ Hs Hsame Hok')|].
    split; [apply Hsame|]. split; [apply Hsame|]. split; [apply Hsame|exact Hall].
  - (* timer_group_isr *)
    destruct (isr_body_kept s) as [K Hw]. destruct (kept_ok _ _ K Hrb) as [Hok' _].
    pose proof (isr_body_same_config s) as Hsame.
    split; [exact (session_ok_same_config _ _ Hs Hsame Hok')|].
    split; [apply Hsame|]. split; [apply Hsame|]. split; [apply Hsame|].
    rewrite Hw. apply Forall_nil; trivial.
Qed.

Lemma run_calls_ok cs :
  forall s,
    session_ok s ->
    session_ok (fst (run_calls s cs)) /\
    duty_resolution (handle (fst (run_calls s cs))) = duty_resolution (handle s) /\
    channel_mask (handle (fst (run_calls s cs))) = channel_mask (handle s) /\
    size (rb_of (fst (run_calls s cs))) = size (rb_of s) /\
    Forall (fun e => e = ESP_OK) (write_results (snd (run_calls s cs))).
Proof.
  induction cs as [|c cs IH]; intros s Hs; cbn [run_calls].
  - cbn [fst snd write_results]. split; [exact Hs|].
    split; [reflexivity|]. split; [reflexivity|]. split; [reflexivity|].
    apply Forall_nil; trivial.
  - destruct (run_call_ok s c Hs) as (H1 & Hd1 & Hm1 & Hz1 & Hw1).
    destruct (run_call s c) as [s1 e1]. cbn [fst snd] in *.
    destruct (IH s1 H1) as (H2 & Hd2 & Hm2 & Hz2 & Hw2).
    destruct (run_calls s1 cs) as [s2 e2]. cbn [fst snd] in *.
    split; [exact H2|]. split; [congruence|]. split; [congruence|]. split; [congruence|].
    rewrite write_results_app. apply Forall_app. auto.
Qed.

Lemma pwm_audio_init_result cfg env g h :
  pwm_audio_init (Some cfg) env g = (ESP_OK, Some h) ->
  exists rb,
    h = mkHandle (cfg_duty_resolution cfg) rb (config_mask cfg) 2 16000 8
                 PWM_AUDIO_STATUS_IDLE /\
    8 <= cfg_duty_resolution cfg <= 10 /\ 1 <= config_mask cfg <= 3 /\
    size rb = u32 (ringbuf_len cfg) /\ 1024 <= size rb /\ rb_ok rb.
Proof.
  intros Hinit.
  destruct (pwm_audio_init_early cfg env g)
    as [(_ & E)|[(_ & _ & E)|(Hv & Ha & rb & Hrb & Hs & Hok & _)]];
    try (rewrite E in Hinit; discriminate).
  destruct Hv as (Htg & Htm & Hd). destruct Ha as (Hh & Hrh & Hlen).
  destruct (pwm_audio_init_published cfg env g rb Htg Htm Hd Hh Hrb)
    as [(Hgood & E)|(_ & m & E)]; rewrite E in Hinit; [|discriminate].
  injection Hinit as <-. exists rb.
  split; [reflexivity|]. split; [exact Hd|]. split; [|split; [exact Hs|split; [lia|exact Hok]]].
  destruct Hgood as (_ & _ & Hpin & _).
  unfold config_mask, CHANNEL_LEFT_MASK, CHANNEL_RIGHT_MASK. rewrite !Z.geb_leb.
  destruct (Z.leb_spec 0 (gpio_num_left cfg)), (Z.leb_spec 0 (gpio_num_right cfg));
    repeat match goal with
    | |- context [Z.lor ?a ?b] =>
      let v := eval vm_compute in (Z.lor a b) in change (Z.lor a b) with v
    end; lia.
Qed.

(** X19. A session's life.  The session that a successful
    [pwm_audio_init] publishes is well formed, and it stays so under any
    sequence of [pwm_audio_set_param], [pwm_audio_set_sample_rate],
    [pwm_audio_start], [pwm_audio_stop] and [pwm_audio_write] calls and
    timer interrupts, accepted or refused: the ring buffer's indices stay
    inside its storage, the status is idle or busy, the sample format is
    one the conversion knows, the rate is within 8000..48000.  Duty
    resolution, channel mask and buffer size stay what [pwm_audio_init]
    made them, and no byte handed to [rb_write_byte] is ever refused. *)
Theorem session_lifetime (cfg : pwm_audio_config_t) (env : init_env)
    (g : option pwm_audio_handle) (h : pwm_audio_handle)
    (wh wl v : Z) (left right : ledc_regs) (cs : list call) :
  pwm_audio_init (Some cfg) env g = (ESP_OK, Some h) ->
  let s0 := mkSession h wh wl v left right in
  let out := run_calls s0 cs in
  session_ok s0 /\ session_ok (fst out) /\
  duty_resolution (handle (fst out)) = cfg_duty_resolution cfg /\
  channel_mask (handle (fst out)) = config_mask cfg /\
  size (rb_of (fst out)) = u32 (ringbuf_len cfg) /\
  Forall (fun e => e = ESP_OK) (write_results (snd out)).
Proof.
  intros Hinit s0 out.
  destruct (pwm_audio_init_result cfg env g h Hinit)
    as (rb & -> & Hd & Hm & Hs & Hsz & Hok).
  assert (H0 : session_ok s0).
  { split; cbn; try assumption; try discriminate; auto.
    unfold SAMPLE_RATE_MIN, SAMPLE_RATE_MAX. lia. }
  destruct (run_calls_ok cs s0 H0) as (H1 & Hd1 & Hm1 & Hz1 & Hw1).
  split; [exact H0|]. split; [exact H1|].
  split; [exact Hd1|]. split; [exact Hm1|]. split; [|exact Hw1].
  unfold out. rewrite Hz1. exact Hs.
Qed.

Lemma session_lifetime_witness :
  exists h,
    pwm_audio_init (Some demo_config) demo_env None = (ESP_OK, Some h) /\
    let s0 := mkSession h 0 0 0 (mkLedc 0 0 0) (mkLedc 0 0 0) in
    let cs := [SetParam 44100 16 2; Start ESP_OK; WriteCall [1; 2; 3; 4; 5; 6; 7; 8] 8 [1%nat];
               Interrupt; SetParam 8000 8 1; Stop] in
    session_ok (fst (run_calls s0 cs)) /\
    status (handle (fst (run_calls s0 cs))) = PWM_AUDIO_STATUS_IDLE /\
    bits_per_sample (handle (fst (run_calls s0 cs))) = 16 /\
    length (write_results (snd (run_calls s0 cs))) = 8%nat.
Proof.
  eexists. split; [reflexivity|]. intros s0 cs.
  split; [|split; [|split]]; try (vm_compute; reflexivity).
  apply (session_lifetime demo_config demo_env None _ 0 0 0 (mkLedc 0 0 0) (mkLedc 0 0 0) cs
           eq_refl).
Defined.
(** ** The converted samples *)

Ltac closed_tests :=
  repeat match goal with
  | |- context [s8 (Zpos ?p - Zpos ?q)] =>
    let v := eval vm_compute in (s8 (Zpos p - Zpos q)) in
    change (s8 (Zpos p - Zpos q)) with v
  | |- context [s8 (- Zneg ?p)] =>
    let v := eval vm_compute in (s8 (- Zneg p)) in change (s8 (- Zneg p)) with v
  | |- context [Zpos ?p =? Zpos ?q] =>
    let v := eval vm_compute in (Zpos p =? Zpos q) in change (Zpos p =? Zpos q) with v
  | |- context [Zpos ?p >? Zpos ?q] =>
    let v := eval vm_compute in (Zpos p >? Zpos q) in change (Zpos p >? Zpos q) with v
  | |- context [Zpos ?p <? 0] => change (Zpos p <? 0) with false
  | |- context [Zneg ?p <? 0] => change (Zneg p <? 0) with true
  | |- context [0 <? 0] => change (0 <? 0) with false
  end; cbv iota; cbn [andb].

Lemma shiftr_fits x k w :
  0 <= k -> 0 <= w -> 0 <= x < 2^(k + w) -> 0 <= Z.shiftr x k < 2^w.
Proof.
  intros Hk Hw Hx. rewrite Z.shiftr_div_pow2 by lia.
  split; [apply Z.div_pos; lia|].
  apply Z.div_lt_upper_bound; [lia|]. rewrite <- Z.pow_add_r by lia. apply Hx.
Qed.

Lemma conv16_fits inbuf k i :
  0 <= k <= 16 -> conv16 inbuf k i = Z.shiftr (u16 (s16 (load16 inbuf i) + 0x7fff)) k /\
  0 <= conv16 inbuf k i < 2^(16 - k).
Proof.
  intros Hk. unfold conv16. cbv zeta.
  set (x := u16 (s16 (load16 inbuf i) + 0x7fff)).
  assert (Hx : 0 <= x < 2^16) by (apply Z.mod_pos_bound; lia).
  assert (Hs : 0 <= Z.shiftr x k < 2^(16 - k)).
  { apply shiftr_fits; try lia. replace (k + (16 - k)) with 16 by lia. exact Hx. }
  assert (Hp : 2^(16 - k) <= 2^16) by (apply Z.pow_le_mono_r; lia).
  assert (E : u16 (Z.shiftr x k) = Z.shiftr x k) by (apply Z.mod_small; lia).
  rewrite !E. split; [reflexivity|exact Hs].
Qed.

Lemma conv32_fits inbuf k i :
  0 <= k <= 32 -> conv32 inbuf k i = Z.shiftr (u32 (s32 (load32 inbuf i) + 0x7fffffff)) k /\
  0 <= conv32 inbuf k i < 2^(32 - k).
Proof.
  intros Hk. unfold conv32. cbv zeta.
  set (x := u32 (s32 (load32 inbuf i) + 0x7fffffff)).
  assert (Hx : 0 <= x < 2^32) by (apply Z.mod_pos_bound; lia).
  assert (Hs : 0 <= Z.shiftr x k < 2^(32 - k)).
  { apply shiftr_fits; try lia. replace (k + (32 - k)) with 32 by lia. exact Hx. }
  assert (Hp : 2^(32 - k) <= 2^32) by (apply Z.pow_le_mono_r; lia).
  assert (E : u32 (Z.shiftr x k) = Z.shiftr x k) by (apply Z.mod_small; lia).
  rewrite !E. split; [reflexivity|exact Hs].
Qed.

Lemma expand8_fits t k :
  0 <= t < 2^8 -> 0 <= k <= 8 -> 0 <= u16 (Z.shiftl t k) < 2^(8 + k).
Proof.
  intros Ht Hk. rewrite Z.shiftl_mul_pow2 by lia.
  assert (Hp : 0 < 2^k) by (apply Z.pow_pos_nonneg; lia).
  assert (Hb : t * 2^k < 2^(8 + k)) by (rewrite Z.pow_add_r by lia; nia).
  assert (Hq : 2^(8 + k) <= 2^16) by (apply Z.pow_le_mono_r; lia).
  unfold u16. rewrite Z.mod_small by nia. nia.
Qed.

Lemma sample_value_fits h inbuf i :
  bits_per_sample h = 8 \/ bits_per_sample h = 16 \/ bits_per_sample h = 32 ->
  8 <= duty_resolution h <= 10 ->
  0 <= sample_value h inbuf i < 2^(duty_resolution h).
Proof.
  intros Hb Hd. unfold sample_value. cbv zeta.
  assert (Hdd : duty_resolution h = 8 \/ duty_resolution h = 9 \/ duty_resolution h = 10)
    by lia.
  assert (Ht : 0 <= u8 (byte_at inbuf i + 0x7f) < 2^8) by (apply Z.mod_pos_bound; lia).
  destruct Hb as [-> | [-> | ->]], Hdd as [-> | [-> | ->]]; closed_tests.
  - exact Ht.
  - apply (expand8_fits _ 1); [exact Ht|lia].
  - apply (expand8_fits _ 2); [exact Ht|lia].
  - apply (conv16_fits inbuf 8 i). lia.
  - apply (conv16_fits inbuf 7 i). lia.
  - apply (conv16_fits inbuf 6 i). lia.
  - apply (conv32_fits inbuf 24 i). lia.
  - apply (conv32_fits inbuf 23 i). lia.
  - apply (conv32_fits inbuf 22 i). lia.
Qed.

Lemma convert_out_samples h inbuf b :
  bits_per_sample h = 8 \/ bits_per_sample h = 16 \/ bits_per_sample h = 32 ->
  8 <= duty_resolution h <= 10 ->
  convert_out h inbuf b
  = loop_out (Z.to_nat (sample_count h b)) 0
             (fun i => sample_bytes h (sample_value h inbuf i)).
Proof.
  intros Hb Hd.
  assert (Hdd : duty_resolution h = 8 \/ duty_resolution h = 9 \/ duty_resolution h = 10)
    by lia.
  unfold convert_out, sample_count, sample_bytes, sample_value, expanding. cbv zeta.
  destruct Hb as [-> | [-> | ->]], Hdd as [-> | [-> | ->]]; closed_tests; reflexivity.
Qed.

Lemma loop_out_seq_from (f : Z -> list Z) n :
  forall i k,
    loop_out n (i + Z.of_nat k) f = flat_map (fun j => f (i + Z.of_nat j)) (seq k n).
Proof.
  induction n as [|n IH]; intros i k; [reflexivity|].
  cbn [loop_out seq flat_map]. f_equal.
  replace (i + Z.of_nat k + 1) with (i + Z.of_nat (S k)) by lia. apply IH.
Qed.

Lemma loop_out_seq (f : Z -> list Z) n :
  loop_out n 0 f = flat_map (fun j => f (Z.of_nat j)) (seq 0 n).
Proof. exact (loop_out_seq_from f n 0 0%nat). Qed.

Lemma flat_map_map_list {A B C} (g : A -> B) (f : B -> list C) (l : list A) :
  flat_map f (map g l) = flat_map (fun x => f (g x)) l.
Proof. induction l as [|a l IH]; cbn; [|rewrite IH]; reflexivity. Qed.

Lemma sample_count_zero h : sample_count h 0 = 0.
Proof. unfold sample_count. repeat case_match; reflexivity. Qed.

(** What one round leaves in the ring buffer. *)
Lemma write_round_stores s inbuf n :
  rb_ok (rb_of s) -> 0 < n < 2^32 ->
  bits_per_sample (handle s) = 8 \/ bits_per_sample (handle s) = 16 \/
  bits_per_sample (handle s) = 32 ->
  8 <= duty_resolution (handle s) <= 10 ->
  let h := handle s in
  let b := round_size n (rb_get_free (rb_of s)) in
  let vs := map (fun i => sample_value h inbuf (Z.of_nat i))
                (seq 0 (Z.to_nat (sample_count h b))) in
  let r := write_round inbuf n s in
  rb_contents (rb_of (final r)) = rb_contents (rb_of s) ++ flat_map (sample_bytes h) vs /\
  write_results (events r) = replicate (length (flat_map (sample_bytes h) vs)) ESP_OK /\
  rb_ok (rb_of (final r)) /\ handle (final r) = set_ringbuf h (rb_of (final r)).
Proof.
  intros Hok Hn Hb Hd h b vs r.
  assert (Hout : convert_out h inbuf b = flat_map (sample_bytes h) vs).
  { unfold vs. rewrite flat_map_map_list, (convert_out_samples h inbuf b Hb Hd), loop_out_seq.
    reflexivity. }
  destruct (write_round_run s inbuf n Hok ltac:(lia)) as [_ Hrun].
  fold b r in Hrun. destruct (0 =? b) eqn:E.
  - apply Z.eqb_eq in E. rewrite Hrun, final_run, events_run.
    assert (Hvs : vs = []) by (unfold vs; rewrite <- E, sample_count_zero; reflexivity).
    rewrite Hvs. cbn [flat_map length replicate write_results]. rewrite app_nil_r.
    split; [reflexivity|]. split; [reflexivity|]. split; [exact Hok|].
    unfold h, rb_of. destruct s as [[] ? ? ? ? ?]. reflexivity.
  - destruct Hrun as (rb' & Hr & P). fold h in Hr, P. rewrite Hout in Hr, P.
    rewrite Hr, final_run, events_run. change (rb_of (with_rb s rb')) with rb'.
    split; [apply P|]. split; [apply write_results_ok|]. split; [apply P|reflexivity].
Qed.

Lemma isr_right_mono_quiet s :
  channel_set_num (handle s) = 1 ->
  rb_of (final (isr_right s)) = rb_of s /\ handle (final (isr_right s)) = handle s /\
  left_duties (events (isr_right s)) = [].
Proof.
  intros Hn.
  destruct (Z.eq_dec (Z.land (channel_mask (handle s)) CHANNEL_RIGHT_MASK) 0) as [Hr|Hr].
  - apply Z.eqb_eq in Hr. apply Z.eqb_eq in Hn.
    unfold isr_right. rewrite bind_gets, Hr. cbn [negb].
    assert (E2 : (channel_set_num (handle s) =? 2) = false).
    { apply Z.eqb_eq in Hn. rewrite Hn. reflexivity. }
    rewrite E2. auto.
  - rewrite (isr_right_mono s Hr Hn). auto.
Qed.

(** One interrupt on a mono source plays the sample at the front. *)
Lemma isr_body_plays s v rest :
  Z.land (channel_mask (handle s)) CHANNEL_LEFT_MASK <> 0 ->
  channel_set_num (handle s) = 1 ->
  8 <= duty_resolution (handle s) <= 10 ->
  rb_ok (rb_of s) -> 0 <= v < 2^(duty_resolution (handle s)) ->
  rb_contents (rb_of s) = sample_bytes (handle s) v ++ rest ->
  left_duties (events (isr_body s)) = [v] /\
  rb_contents (rb_of (final (isr_body s))) = rest.
Proof.
  intros Hl Hn Hd Hok Hv Hc.
  assert (Hp : 2^(duty_resolution (handle s)) <= 2^10) by (apply Z.pow_le_mono_r; lia).
  assert (Hleft : exists s1 e1,
            isr_left s = (tt, s1, e1) /\ left_duties e1 = [v] /\
            rb_contents (rb_of s1) = rest /\
            channel_set_num (handle s1) = 1).
  { unfold sample_bytes in Hc. destruct (Z.gtb_spec (duty_resolution (handle s)) 8) as [Hw|Hw].
    - destruct (isr_left_wide s _ _ rest Hl ltac:(lia) Hok Hc) as (E & _ & Hc').
      cbv zeta in E. rewrite rebuild_duty in E by lia.
      eexists _, _. split; [exact E|]. split; [reflexivity|]. split; [exact Hc'|exact Hn].
    - destruct (isr_left_narrow s _ rest Hl ltac:(lia) Hok Hc) as (E & _ & Hc').
      cbv zeta in E.
      assert (E8 : duty_resolution (handle s) = 8) by lia. rewrite E8 in Hv.
      assert (Eu : u8 v = v) by (apply Z.mod_small; lia). rewrite Eu in E.
      eexists _, _. split; [exact E|]. split; [reflexivity|]. split; [exact Hc'|exact Hn]. }
  destruct Hleft as (s1 & e1 & E1 & Hd1 & Hc1 & Hn1).
  destruct (isr_right_mono_quiet s1 Hn1) as (Hrb & _ & Hq).
  rewrite isr_body_final, isr_body_events, E1, final_run, events_run.
  destruct (isr_signal_contents (final (isr_right s1))) as (Sc & _ & _ & Sl & _).
  rewrite !left_duties_app, Hd1, Hq, Sl, Sc, Hrb. auto.
Qed.

Lemma isr_runs_play (vs : list Z) :
  forall s rest,
    Z.land (channel_mask (handle s)) CHANNEL_LEFT_MASK <> 0 ->
    channel_set_num (handle s) = 1 ->
    8 <= duty_resolution (handle s) <= 10 ->
    rb_ok (rb_of s) ->
    Forall (fun v => 0 <= v < 2^(duty_resolution (handle s))) vs ->
    rb_contents (rb_of s) = flat_map (sample_bytes (handle s)) vs ++ rest ->
    left_duties (events (isr_runs (length vs) s)) = vs /\
    rb_contents (rb_of (final (isr_runs (length vs) s))) = rest.
Proof.
  induction vs as [|v vs IH]; intros s rest Hl Hn Hd Hok Hall Hc.
  - cbn [length isr_runs]. unfold ret. rewrite events_run, final_run. auto.
  - apply Forall_cons in Hall as [Hv Hall].
    cbn [flat_map] in Hc. rewrite <- app_assoc in Hc.
    destruct (isr_body_plays s v _ Hl Hn Hd Hok Hv Hc) as [Hd1 Hc1].
    pose proof (isr_body_same_config s) as Hs.
    destruct (isr_body_kept s) as [K _]. destruct (kept_ok _ _ K Hok) as [Hok1 _].
    set (s1 := final (isr_body s)) in *.
    assert (Hsb : sample_bytes (handle s1) = sample_bytes (handle s)).
    { unfold sample_bytes. rewrite (same_duty _ _ Hs). reflexivity. }
    destruct (IH s1 rest) as [Hd2 Hc2].
    + rewrite (same_mask _ _ Hs). exact Hl.
    + rewrite (same_num _ _ Hs). exact Hn.
    + rewrite (same_duty _ _ Hs). exact Hd.
    + exact Hok1.
    + rewrite (same_duty _ _ Hs). exact Hall.
    + rewrite Hsb. exact Hc1.
    + cbn [length isr_runs]. rewrite bind_events, bind_final. fold s1.
      rewrite left_duties_app, Hd1, Hd2. auto.
Qed.

(** X20. The converted values.  For 8, 16 and 32 bit samples and a duty
    resolution of 8, 9 or 10, one round of [pwm_audio_write] after a
    successful wait appends to the ring buffer, sample by sample, the value
    its loop computed: two bytes, low first, above a resolution of 8, and
    one byte at 8, every write succeeding.  Every such value lies below
    [2 ^ duty_resolution], so no duty exceeds the PWM period.  And the
    handler gives the values back: on a mono source with the left output
    enabled and a buffer that was empty before the round, as many
    interrupts as samples were stored deliver exactly these values to the
    left output, in order, and leave the buffer empty. *)
Theorem converted_samples_fit (s : session) (inbuf : list Z) (inbuf_len : Z) :
  rb_ok (rb_of s) -> 0 < inbuf_len < 2^32 ->
  bits_per_sample (handle s) = 8 \/ bits_per_sample (handle s) = 16 \/
  bits_per_sample (handle s) = 32 ->
  8 <= duty_resolution (handle s) <= 10 ->
  let h := handle s in
  let bytes_can_write := round_size inbuf_len (rb_get_free (rb_of s)) in
  let vs := map (fun i => sample_value h inbuf (Z.of_nat i))
                (seq 0 (Z.to_nat (sample_count h bytes_can_write))) in
  let r := write_round inbuf inbuf_len s in
  Forall (fun v => 0 <= v < 2^(duty_resolution h)) vs /\
  rb_contents (rb_of (final r)) = rb_contents (rb_of s) ++ flat_map (sample_bytes h) vs /\
  write_results (events r) = replicate (length (flat_map (sample_bytes h) vs)) ESP_OK /\
  (Z.land (channel_mask h) CHANNEL_LEFT_MASK <> 0 -> channel_set_num h = 1 ->
   rb_contents (rb_of s) = [] ->
   let p := isr_runs (length vs) (final r) in
   left_duties (events p) = vs /\ rb_contents (rb_of (final p)) = []).
Proof.
  intros Hok Hn Hb Hd h b vs r.
  destruct (write_round_stores s inbuf inbuf_len Hok Hn Hb Hd) as (Hc & Hw & Hok' & Hh).
  fold h b vs r in Hc, Hw, Hok', Hh.
  assert (Hall : Forall (fun v => 0 <= v < 2^(duty_resolution h)) vs).
  { unfold vs. apply Forall_forall. intros v Hv.
    apply list_elem_of_In, in_map_iff in Hv. destruct Hv as (i & <- & _).
    apply sample_value_fits; assumption. }
  split; [exact Hall|]. split; [exact Hc|]. split; [exact Hw|].
  intros Hl Hch He p. rewrite He in Hc. cbn [app] in Hc.
  assert (Hsb : sample_bytes (handle (final r)) = sample_bytes h).
  { rewrite Hh. reflexivity. }
  unfold p. apply isr_runs_play; rewrite ?Hsb, ?Hh;
    cbn [channel_mask channel_set_num duty_resolution set_ringbuf];
    try assumption.
  rewrite app_nil_r. exact Hc.
Qed.

Lemma converted_samples_fit_witness :
  let s := demo_session demo_rb 10 1 1 32 PWM_AUDIO_STATUS_BUSY in
  let inbuf := [0xff; 0xff; 0xff; 0x7f; 0; 0; 0; 0x80; 0; 0; 0; 0; 0; 0; 0; 0x40] in
  let r := write_round inbuf 16 s in
  (rb_ok (rb_of s) /\ 0 < 16 < 2^32 /\ bits_per_sample (handle s) = 32 /\
   8 <= duty_resolution (handle s) <= 10 /\
   Z.land (channel_mask (handle s)) CHANNEL_LEFT_MASK <> 0 /\
   channel_set_num (handle s) = 1 /\ rb_contents (rb_of s) = []) /\
  rb_contents (rb_of (final r)) = [0xff; 0x03; 0xff; 0x03; 0xff; 0x01; 0xff; 0x02] /\
  left_duties (events (isr_runs 4 (final r))) = [1023; 1023; 511; 767].
Proof.
  intros s inbuf r.
  assert (Hok : rb_ok (rb_of s)) by (split; cbn; lia).
  assert (Hn : 0 < 16 < 2^32) by lia.
  assert (Hb : bits_per_sample (handle s) = 8 \/ bits_per_sample (handle s) = 16 \/
               bits_per_sample (handle s) = 32) by (right; right; reflexivity).
  assert (Hb32 : bits_per_sample (handle s) = 32) by reflexivity.
  assert (Hd : 8 <= duty_resolution (handle s) <= 10) by (cbn; lia).
  assert (Hl : Z.land (channel_mask (handle s)) CHANNEL_LEFT_MASK <> 0)
    by (vm_compute; discriminate).
  assert (Hch : channel_set_num (handle s) = 1) by reflexivity.
  assert (He : rb_contents (rb_of s) = []) by reflexivity.
  split; [auto 10|].
  destruct (converted_samples_fit s inbuf 16 Hok Hn Hb Hd) as (_ & Hc & _ & Hplay).
  destruct (Hplay Hl Hch He) as [Hp _].
  split; [exact Hc|exact Hp].
Defined.
